(** * Semantic highlighting of clangd: classifier, token collector, line
    diff and wire encoder.

    Shallow embedding of clang-tools-extra/clangd/SemanticHighlighting.cpp.
    C++ [int] values are integers of [Z] whose range is stated where it
    matters, [llvm::Optional] is [option], [ArrayRef] and [std::vector]
    are lists, and an iterator into an [ArrayRef] is the suffix of the
    list that starts at it. *)

From Stdlib Require Import String Ascii.
From Stdlib Require Import ZArith List Bool Lia.
From Stdlib Require Import Sorting.Sorted Sorting.Permutation.
From Equations Require Import Equations.
Import ListNotations.
Local Open Scope Z_scope.

Set Implicit Arguments.

(* ===================================================================== *)
(** ** Protocol types *)
(* ===================================================================== *)

(** Modelled from the spec: [Position] and [Range] are declared in
    Protocol.h, outside this file.  Both are
    compared with [std::tie], that is lexicographically: a position by
    (line, character), a range by (start, end).  The fields are C++
    [int]s holding zero-based editor coordinates. *)
Module Protocol.

Definition INT_MAX : Z := 2147483647.

Record Position := mkPosition { line : Z; character : Z }.

Record Range := mkRange { start : Position; end_ : Position }.

Definition Position_eqb (L R : Position) : bool :=
  (line L =? line R) && (character L =? character R).

(** [std::tie(a1, b1) < std::tie(a2, b2)] on a pair. *)
Definition tie_ltb {A B} (ltA : A -> A -> bool) (ltB : B -> B -> bool)
    (a1 : A) (b1 : B) (a2 : A) (b2 : B) : bool :=
  ltA a1 a2 || (negb (ltA a2 a1) && ltB b1 b2).

Definition Position_ltb (L R : Position) : bool :=
  tie_ltb Z.ltb Z.ltb (line L) (character L) (line R) (character R).

Definition Range_eqb (L R : Range) : bool :=
  Position_eqb (start L) (start R) && Position_eqb (end_ L) (end_ R).

Definition Range_ltb (L R : Range) : bool :=
  tie_ltb Position_ltb Position_ltb (start L) (end_ L) (start R) (end_ R).

End Protocol.
Import Protocol.

(* ===================================================================== *)
(** ** Highlighting kinds and tokens *)
(* ===================================================================== *)

(** Modelled from the spec: the enumeration [HighlightingKind] lives in
    SemanticHighlighting.h; its enumerators are listed in declaration
    order, which fixes the ordinal [static_cast<int>(Kind)]. *)
Inductive HighlightingKind : Type :=
| Variable_ | LocalVariable | Parameter_ | Function_ | Method | StaticMethod
| Field | StaticField | Class_ | Enum | EnumConstant | Typedef
| DependentType | DependentName | Namespace | TemplateParameter
| Primitive | Macro.

Definition ordinal (K : HighlightingKind) : Z :=
  match K with
  | Variable_ => 0 | LocalVariable => 1 | Parameter_ => 2 | Function_ => 3
  | Method => 4 | StaticMethod => 5 | Field => 6 | StaticField => 7
  | Class_ => 8 | Enum => 9 | EnumConstant => 10 | Typedef => 11
  | DependentType => 12 | DependentName => 13 | Namespace => 14
  | TemplateParameter => 15 | Primitive => 16 | Macro => 17
  end.

Definition Kind_eqb (K1 K2 : HighlightingKind) : bool := ordinal K1 =? ordinal K2.
Definition Kind_ltb (K1 K2 : HighlightingKind) : bool := ordinal K1 <? ordinal K2.

(** [llvm::Optional<HighlightingKind>] compared with [!=]. *)
Definition OptKind_neqb (A B : option HighlightingKind) : bool :=
  match A, B with
  | Some a, Some b => negb (Kind_eqb a b)
  | None, None => false
  | _, _ => true
  end.

Record HighlightingToken := mkToken { Kind : HighlightingKind; R : Range }.

(** [operator==] and [operator<] of [HighlightingToken]:
    [std::tie(L.R, L.Kind)] against [std::tie(R.R, R.Kind)]. *)
Definition Token_eqb (L R' : HighlightingToken) : bool :=
  Range_eqb (R L) (R R') && Kind_eqb (Kind L) (Kind R').

Definition Token_ltb (L R' : HighlightingToken) : bool :=
  tie_ltb Range_ltb Kind_ltb (R L) (Kind L) (R R') (Kind R').

(** [operator==] of two [ArrayRef<HighlightingToken>]: same length and
    element-wise equal. *)
Fixpoint ArrayRef_eqb (A B : list HighlightingToken) : bool :=
  match A, B with
  | [], [] => true
  | a :: A', b :: B' => Token_eqb a b && ArrayRef_eqb A' B'
  | _, _ => false
  end.

(** [ArrayRef::take_while] and [ArrayRef::drop_front]. *)
Fixpoint take_while {A} (P : A -> bool) (l : list A) : list A :=
  match l with
  | [] => []
  | x :: l' => if P x then x :: take_while P l' else []
  end.

Definition drop_front {A} (n : nat) (l : list A) : list A := skipn n l.

Record LineHighlightings := mkLine { Line : Z; Tokens : list HighlightingToken }.

(* ===================================================================== *)
(** ** Classifier *)
(* ===================================================================== *)

(** Modelled from the spec: the declaration and type classes of the clang
    AST are declared in clang/AST (Decl.h, DeclCXX.h, DeclTemplate.h,
    Type.h), outside this file.  A declaration is given by its most derived
    class among those that [kindForDecl] tells apart, with the attributes
    the function reads; a null pointer is [None].  [kindForType] sees a
    type through [isBuiltinType], [dyn_cast<TemplateTypeParmType>] and
    [getAsTagDecl]; its null test is the [None] of the typedef's
    underlying type. *)
#[warnings="-register-all"] Inductive NamedDecl : Type :=
| UsingShadowDecl (getTargetDecl : option NamedDecl)
| ClassTemplateDecl (getTemplatedDecl : option NamedDecl)
| TemplateTemplateParmDecl (getTemplatedDecl : option NamedDecl)
| OtherTemplateDecl (getTemplatedDecl : option NamedDecl)
| TypedefNameDecl (getUnderlyingType : option ClangType)
| RecordDecl (isLambda : bool)
| CXXConstructorDecl
| CXXMethodDecl (isStatic : bool)
| FieldDecl
| EnumDecl
| EnumConstantDecl
| ParmVarDecl
| VarDecl (isStaticDataMember isLocalVarDecl : bool)
| BindingDecl
| FunctionDecl
| NamespaceDecl
| NamespaceAliasDecl
| UsingDirectiveDecl
| TemplateTypeParmDecl
| NonTypeTemplateParmDecl
| OtherNamedDecl
with ClangType : Type :=
| BuiltinType
| TemplateTypeParmType (getDecl : NamedDecl)
| TagType (getAsTagDecl : NamedDecl)
| OtherType.

(** [isa<>] and [dyn_cast<>] along the class hierarchy. *)
Definition isa_ClassTemplateDecl (D : NamedDecl) : bool :=
  match D with ClassTemplateDecl _ => true | _ => false end.

Definition isa_RecordDecl (D : NamedDecl) : option bool :=
  match D with RecordDecl L => Some L | _ => None end.

Definition isa_CXXConstructorDecl (D : NamedDecl) : bool :=
  match D with CXXConstructorDecl => true | _ => false end.

(** A constructor is a method, and it is never static. *)
Definition isa_CXXMethodDecl (D : NamedDecl) : option bool :=
  match D with
  | CXXMethodDecl St => Some St
  | CXXConstructorDecl => Some false
  | _ => None
  end.

(** A parameter is a variable; it is neither a static data member nor a
    local variable declaration. *)
Definition isa_VarDecl (D : NamedDecl) : option (bool * bool) :=
  match D with
  | VarDecl St Lo => Some (St, Lo)
  | ParmVarDecl => Some (false, false)
  | _ => None
  end.

Definition isa_FunctionDecl (D : NamedDecl) : bool :=
  match D with
  | FunctionDecl | CXXMethodDecl _ | CXXConstructorDecl => true
  | _ => false
  end.

Fixpoint kindForDecl (D : NamedDecl) : option HighlightingKind :=
  let D1 :=
    match D with
    | UsingShadowDecl (Some Target) => Target
    | _ => D
    end in
  let D2 :=
    match D1 with
    | ClassTemplateDecl (Some Templated)
    | TemplateTemplateParmDecl (Some Templated)
    | OtherTemplateDecl (Some Templated) => Templated
    | _ => D1
    end in
  match D2 with
  | TypedefNameDecl U =>
      (* We try to highlight typedefs as their underlying type, and fall
         back to a generic kind if this fails. *)
      match (match U with Some TP => kindForType TP | None => None end) with
      | Some K => Some K
      | None => Some Typedef
      end
  | _ =>
      match isa_RecordDecl D2 with
      | Some true => None
      | Some false => Some Class_
      | None =>
      if isa_ClassTemplateDecl D2
         || match isa_RecordDecl D2 with Some _ => true | None => false end
         || isa_CXXConstructorDecl D2
      then Some Class_
      else match isa_CXXMethodDecl D2 with
      | Some St => Some (if St then StaticMethod else Method)
      | None =>
      match D2 with
      | FieldDecl => Some Field
      | EnumDecl => Some Enum
      | EnumConstantDecl => Some EnumConstant
      | ParmVarDecl => Some Parameter_
      | _ =>
      match isa_VarDecl D2 with
      | Some (St, Lo) =>
          Some (if St then StaticField else if Lo then LocalVariable else Variable_)
      | None =>
      match D2 with
      | BindingDecl => Some Variable_
      | _ =>
      if isa_FunctionDecl D2 then Some Function_
      else match D2 with
      | NamespaceDecl | NamespaceAliasDecl | UsingDirectiveDecl => Some Namespace
      | TemplateTemplateParmDecl _ | TemplateTypeParmDecl
      | NonTypeTemplateParmDecl => Some TemplateParameter
      | _ => None
      end end end end end end
  end
with kindForType (TP : ClangType) : option HighlightingKind :=
  match TP with
  | BuiltinType => Some Primitive
  | TemplateTypeParmType TD => kindForDecl TD
  | TagType TD => kindForDecl TD
  | OtherType => None
  end.

(** Given a set of candidate declarations, if the declarations all have
    the same highlighting kind, return that highlighting kind, otherwise
    return None.  [Result] is the loop-carried variable of the source. *)
Fixpoint kindForCandidateDecls_from (Result : option HighlightingKind)
    (Decls : list NamedDecl) : option HighlightingKind :=
  match Decls with
  | [] => Result
  | Decl :: Decls' =>
      let Kind := kindForDecl Decl in
      if match Kind with None => true | Some _ => false end
         || (match Result with Some _ => true | None => false end
             && OptKind_neqb Kind Result)
      then None
      else kindForCandidateDecls_from Kind Decls'
  end.

Definition kindForCandidateDecls (Decls : list NamedDecl) : option HighlightingKind :=
  kindForCandidateDecls_from None Decls.

(* ===================================================================== *)
(** ** Tree walker: the token-adding step and two visitors *)
(* ===================================================================== *)

(** Modelled from the spec: what the walker asks of the resolved tree
    about a source location ([SourceLocation], [SourceManager],
    [isInsideMainFile] and [getTokenRange] are declared in other
    headers), and the macro-expansion ranges of the primary
    file. *)
Record ParsedAST := mkParsedAST {
  SourceLocation : Type;
  isInvalid : SourceLocation -> bool;
  isMacroID : SourceLocation -> bool;
  isMacroArgExpansion : SourceLocation -> bool;
  getSpellingLoc : SourceLocation -> SourceLocation;
  isInsideMainFile : SourceLocation -> bool;
  getTokenRange : SourceLocation -> option Range;
  getMacros_Ranges : list Range
}.

(** The collector's mutable state: the token vector, and the messages
    sent to the error log. *)
Record Collector := mkCollector {
  CollectedTokens : list HighlightingToken;
  ErrorLog : list string
}.

Definition addToken (AST : ParsedAST) (Loc : SourceLocation AST)
    (K : HighlightingKind) (C : Collector) : Collector :=
  if isInvalid AST Loc then C
  else
    let continue_with (Loc : SourceLocation AST) :=
      if negb (isInsideMainFile AST Loc) then C
      else match getTokenRange AST Loc with
           | None =>
               mkCollector (CollectedTokens C)
                 (ErrorLog C ++
                    ["Tried to add semantic token with an invalid range"%string])
           | Some Rg => mkCollector (CollectedTokens C ++ [mkToken K Rg]) (ErrorLog C)
           end in
    if isMacroID AST Loc then
      (* Only interested in highlighting arguments in macros. *)
      if negb (isMacroArgExpansion AST Loc) then C
      else continue_with (getSpellingLoc AST Loc)
    else continue_with Loc.

(** The overload that takes a declaration. *)
Definition addTokenDecl (AST : ParsedAST) (Loc : SourceLocation AST)
    (D : NamedDecl) (C : Collector) : Collector :=
  match kindForDecl D with
  | Some K => addToken AST Loc K C
  | None => C
  end.

(** Modelled from the spec: [DeclarationName] as [canHighlightName]
    reads it. *)
Inductive NameKind : Type :=
| Identifier | CXXConstructorName | CXXDestructorName | CXXOperatorName
| CXXUsingDirective | OtherNameKind.

Record DeclarationName := mkName {
  getNameKind : NameKind;
  getAsIdentifierInfo : option string
}.

(** Some names are not written in the source code and cannot be
    highlighted, e.g. anonymous classes. *)
Definition canHighlightName (Name : DeclarationName) : bool :=
  match getNameKind Name with
  | CXXConstructorName | CXXUsingDirective => true
  | _ =>
      match getAsIdentifierInfo Name with
      | Some II => negb (String.eqb II EmptyString)
      | None => false
      end
  end.

Record OverloadExpr (AST : ParsedAST) := mkOverloadExpr {
  getName : DeclarationName;
  getNameLoc : SourceLocation AST;
  decls : list NamedDecl
}.

Record UsingDecl (AST : ParsedAST) := mkUsingDecl {
  getLocation : SourceLocation AST;
  shadows : list NamedDecl
}.

(** A visitor returns whether the traversal goes on, and the new state. *)
Definition VisitOverloadExpr (AST : ParsedAST) (E : OverloadExpr AST)
    (C : Collector) : bool * Collector :=
  (true,
   if canHighlightName (getName E)
   then addToken AST (getNameLoc E)
          (match kindForCandidateDecls (decls E) with
           | Some K => K
           | None => DependentName
           end) C
   else C).

Definition VisitUsingDecl (AST : ParsedAST) (UD : UsingDecl AST)
    (C : Collector) : bool * Collector :=
  (true,
   match kindForCandidateDecls (shadows UD) with
   | Some K => addToken AST (getLocation UD) K C
   | None => C
   end).

(* ===================================================================== *)
(** ** Token collector *)
(* ===================================================================== *)

(** [llvm::sort] with [operator<] of the tokens.  The order is total, so
    every sorting algorithm returns the same vector; it is written here
    as an insertion sort. *)
Fixpoint sort_insert (T : HighlightingToken) (Sorted : list HighlightingToken)
    : list HighlightingToken :=
  match Sorted with
  | [] => [T]
  | X :: Sorted' =>
      if Token_ltb T X then T :: X :: Sorted' else X :: sort_insert T Sorted'
  end.

Definition sort (Tokens : list HighlightingToken) : list HighlightingToken :=
  fold_right sort_insert [] Tokens.

(** [std::unique]: of every run of equal neighbours the first is kept. *)
Fixpoint unique_after (Kept : HighlightingToken) (Tokens : list HighlightingToken)
    : list HighlightingToken :=
  match Tokens with
  | [] => []
  | X :: Tokens' =>
      if Token_eqb Kept X then unique_after Kept Tokens'
      else X :: unique_after X Tokens'
  end.

Definition unique (Tokens : list HighlightingToken) : list HighlightingToken :=
  match Tokens with
  | [] => []
  | X :: Tokens' => X :: unique_after X Tokens'
  end.

(** The tokens at the front of [TokRef] that share the range of its
    first element. *)
Definition Conflicting_of (TokRef : list HighlightingToken) : list HighlightingToken :=
  match TokRef with
  | [] => []
  | front :: _ => take_while (fun T => Range_eqb (R T) (R front)) TokRef
  end.

(** The loop over [TokRef] that fills [NonConflicting]: a range that
    exactly one token has keeps its token, the others lose all theirs. *)
Equations removeConflicting (TokRef NonConflicting : list HighlightingToken)
    : list HighlightingToken by wf (length TokRef) lt :=
  removeConflicting [] NonConflicting := NonConflicting;
  removeConflicting (front :: rest) NonConflicting :=
    removeConflicting
      (drop_front (length (Conflicting_of (front :: rest))) (front :: rest))
      (if (length (Conflicting_of (front :: rest)) =? 1)%nat
       then NonConflicting ++ [front] else NonConflicting).
Next Obligation.
  unfold drop_front, Range_eqb, Position_eqb.
  rewrite !Z.eqb_refl. cbn [andb length skipn].
  rewrite length_skipn. lia.
Qed.

(** [collectTokens]: [Traversed] is what the traversal of the tree has
    pushed; the macro ranges are added after it. *)
Definition collectTokens (Traversed : list HighlightingToken)
    (MacroRanges : list Range) : list HighlightingToken :=
  let Tokens := Traversed ++ map (fun M => mkToken Macro M) MacroRanges in
  let Tokens := unique (sort Tokens) in
  removeConflicting Tokens [].

(* ===================================================================== *)
(** ** Diff engine *)
(* ===================================================================== *)

(** Get the highlightings on [Line] where the first entry of line is at
    [StartLineIt]; the iterator is the suffix [FromStartLineIt]. *)
Definition takeLine (FromStartLineIt : list HighlightingToken) (Line : Z)
    : list HighlightingToken :=
  take_while (fun Token => line (start (R Token)) =? Line) FromStartLineIt.

(** [NextLineNumber], from the suffixes at [NewLine.end()] and
    [OldLine.end()]. *)
Definition NextLineNumber (FromNewLineEnd FromOldLineEnd : list HighlightingToken) : Z :=
  let NextNew := match FromNewLineEnd with
                 | T :: _ => line (start (R T))
                 | [] => INT_MAX
                 end in
  let NextOld := match FromOldLineEnd with
                 | T :: _ => line (start (R T))
                 | [] => INT_MAX
                 end in
  Z.min NextNew NextOld.

Definition is_empty {A} (l : list A) : bool :=
  match l with [] => true | _ => false end.

(** The loop of [diffHighlightings].  The state is the line number, the
    suffixes of [New] and [Old] at the ends of the current slices, and
    the lines pushed so far; [fuel] bounds the number of iterations and
    [None] means it ran out. *)
Fixpoint diffLoop (fuel : nat) (LineNumber : Z)
    (FromNewLineEnd FromOldLineEnd : list HighlightingToken)
    (DiffedLines : list LineHighlightings) : option (list LineHighlightings) :=
  if negb (is_empty FromNewLineEnd) || negb (is_empty FromOldLineEnd) then
    match fuel with
    | O => None
    | S fuel' =>
        let NewLine := takeLine FromNewLineEnd LineNumber in
        let OldLine := takeLine FromOldLineEnd LineNumber in
        let FromNewLineEnd' := drop_front (length NewLine) FromNewLineEnd in
        let FromOldLineEnd' := drop_front (length OldLine) FromOldLineEnd in
        diffLoop fuel' (NextLineNumber FromNewLineEnd' FromOldLineEnd')
          FromNewLineEnd' FromOldLineEnd'
          (if negb (ArrayRef_eqb NewLine OldLine)
           then DiffedLines ++ [mkLine LineNumber NewLine]
           else DiffedLines)
    end
  else Some DiffedLines.

(** [std::is_sorted]: no element is less than its predecessor. *)
Fixpoint is_sorted (Tokens : list HighlightingToken) : bool :=
  match Tokens with
  | [] => true
  | X :: Tokens' =>
      match Tokens' with
      | [] => true
      | Y :: _ => negb (Token_ltb Y X) && is_sorted Tokens'
      end
  end.

(** After the first iteration every iteration consumes a token, so one
    more step than there are tokens is enough fuel. *)
Definition diffHighlightings (New Old : list HighlightingToken)
    : option (list LineHighlightings) :=
  diffLoop (S (length New + length Old)) 0 New Old [].

(** The highlightings of a token vector on one line: the tokens whose
    range starts on that line, in order. *)
Definition lineGroup (Tokens : list HighlightingToken) (LineNo : Z)
    : list HighlightingToken :=
  filter (fun Token => line (start (R Token)) =? LineNo) Tokens.

(** Overwriting a per-line grouping with changed-line records, one after
    the other. *)
Definition overwriteLine (Group : Z -> list HighlightingToken)
    (Rec : LineHighlightings) : Z -> list HighlightingToken :=
  fun LineNo => if LineNo =? Line Rec then Tokens Rec else Group LineNo.

Definition applyDiff (Diffed : list LineHighlightings)
    (Group : Z -> list HighlightingToken) : Z -> list HighlightingToken :=
  fold_left overwriteLine Diffed Group.

(* ===================================================================== *)
(** ** Wire encoder *)
(* ===================================================================== *)

(** Conversions between the integer types of the source.  An [int]
    result wraps to 32 bits; [uint32_t] and [uint16_t] keep the low 32
    and 16 bits. *)
Definition to_int (x : Z) : Z := (x + 2 ^ 31) mod 2 ^ 32 - 2 ^ 31.
Definition to_uint32_t (x : Z) : Z := x mod 2 ^ 32.
Definition to_uint16_t (x : Z) : Z := x mod 2 ^ 16.

(** The byte buffers of the source hold [char], which is a signed 8-bit
    type on the platforms clangd is built for by default (x86): a byte
    with the high bit set is a negative [char]. *)
Definition to_char (byte : Z) : Z :=
  if byte mod 256 <? 128 then byte mod 256 else byte mod 256 - 256.

(** The byte behind a [char]. *)
Definition to_byte (c : Z) : Z := c mod 256.

(** [llvm::support::endian::write32be] and [write16be] into a buffer of
    [char], followed by [OS.write]: the most significant byte first. *)
Definition write32be (I : Z) (OS : list Z) : list Z :=
  OS ++ map to_char
          [Z.shiftr I 24; Z.shiftr I 16; Z.shiftr I 8; I].

Definition write16be (I : Z) (OS : list Z) : list Z :=
  OS ++ map to_char [Z.shiftr I 8; I].

Definition Table : string :=
  "ABCDEFGHIJKLMNOPQRSTUVWXYZabcdefghijklmnopqrstuvwxyz0123456789+/".

Definition Table_at (i : Z) : ascii :=
  match String.get (Z.to_nat i) Table with
  | Some c => c
  | None => "000"%char
  end.

(** Encode binary data into base64.  The loop takes three [char]s at a
    time; the [char]s are promoted to [int] before they are shifted and
    added, and the sum is converted to [uint32_t]. *)
Fixpoint encodeBase64 (Bytes : list Z) : string :=
  match Bytes with
  | b0 :: b1 :: b2 :: Bytes' =>
      let X := to_uint32_t (to_int (to_int (Z.shiftl b0 16 + Z.shiftl b1 8) + b2)) in
      String (Table_at (Z.land (Z.shiftr X 18) 63))
        (String (Table_at (Z.land (Z.shiftr X 12) 63))
           (String (Table_at (Z.land (Z.shiftr X 6) 63))
              (String (Table_at (Z.land X 63))
                 (encodeBase64 Bytes'))))
  | [b0] =>
      let X := to_uint32_t (Z.shiftl b0 16) in
      String (Table_at (Z.land (Z.shiftr X 18) 63))
        (String (Table_at (Z.land (Z.shiftr X 12) 63)) "==")
  | [b0; b1] =>
      let X := to_uint32_t (to_int (Z.shiftl b0 16 + Z.shiftl b1 8)) in
      String (Table_at (Z.land (Z.shiftr X 18) 63))
        (String (Table_at (Z.land (Z.shiftr X 12) 63))
           (String (Table_at (Z.land (Z.shiftr X 6) 63)) "="))
  | [] => EmptyString
  end.

(** Modelled from the spec: [SemanticHighlightingInformation] is declared
    in Protocol.h: a line number and the base64 string of its tokens. *)
Record SemanticHighlightingInformation := mkInfo {
  InfoLine : Z;
  InfoTokens : string
}.

(** The bytes written for one token:
    |<---- 4 bytes ---->|<-- 2 bytes -->|<--- 2 bytes -->|
    |    character      |  length       |    index       | *)
Definition writeToken (OS : list Z) (Token : HighlightingToken) : list Z :=
  let OS := write32be (to_uint32_t (character (start (R Token)))) OS in
  let OS := write16be
              (to_uint16_t (to_int (character (end_ (R Token))
                                    - character (start (R Token))))) OS in
  write16be (to_uint16_t (ordinal (Kind Token))) OS.

(** The contents of [LineByteTokens] after the loop over a line. *)
Definition LineByteTokens_of (LineTokens : list HighlightingToken) : list Z :=
  fold_left writeToken LineTokens [].

(** The body of the loop over the lines: what is pushed for one line. *)
Definition encodeLine (Line' : LineHighlightings) : SemanticHighlightingInformation :=
  mkInfo (Line Line') (encodeBase64 (LineByteTokens_of (Tokens Line'))).

Definition toSemanticHighlightingInformation (Tokens : list LineHighlightings)
    : list SemanticHighlightingInformation :=
  if (length Tokens =? 0)%nat then []
  else fold_left (fun Lines Line' => Lines ++ [encodeLine Line']) Tokens [].

(** *** The reader's side of the wire format

    These definitions follow the words of the specification, not the
    source: the standard base64 alphabet with [=] padding, and records of
    eight bytes, big-endian. *)

Fixpoint index_in (c : ascii) (s : string) (i : Z) : option Z :=
  match s with
  | EmptyString => None
  | String c' s' => if Ascii.eqb c c' then Some i else index_in c s' (i + 1)
  end.

Definition base64_value (c : ascii) : option Z :=
  index_in c "ABCDEFGHIJKLMNOPQRSTUVWXYZabcdefghijklmnopqrstuvwxyz0123456789+/" 0.

(** Four characters carry three bytes; [=] stands for a missing byte and
    is only allowed at the end. *)
Fixpoint decodeBase64 (s : string) : option (list Z) :=
  match s with
  | EmptyString => Some []
  | String c0 (String c1 (String c2 (String c3 s'))) =>
      match base64_value c0, base64_value c1 with
      | Some v0, Some v1 =>
          let byte0 := v0 * 4 + v1 / 16 in
          if Ascii.eqb c2 "=" then
            if Ascii.eqb c3 "=" && String.eqb s' EmptyString
            then Some [byte0] else None
          else
            match base64_value c2 with
            | Some v2 =>
                let byte1 := (v1 mod 16) * 16 + v2 / 4 in
                if Ascii.eqb c3 "=" then
                  if String.eqb s' EmptyString then Some [byte0; byte1] else None
                else
                  match base64_value c3, decodeBase64 s' with
                  | Some v3, Some bytes =>
                      Some (byte0 :: byte1 :: (v2 mod 4) * 64 + v3 :: bytes)
                  | _, _ => None
                  end
            | None => None
            end
      | _, _ => None
      end
  | _ => None
  end.

(** The unsigned big-endian number that a list of bytes spells. *)
Definition be_value (bytes : list Z) : Z :=
  fold_left (fun acc b => acc * 256 + b) bytes 0.

(** Splitting a payload into records of eight bytes: start column in
    four bytes, length in two, kind ordinal in two. *)
Fixpoint decodeRecords (bytes : list Z) : option (list (Z * Z * Z)) :=
  match bytes with
  | [] => Some []
  | c0 :: c1 :: c2 :: c3 :: l0 :: l1 :: k0 :: k1 :: bytes' =>
      match decodeRecords bytes' with
      | Some records =>
          Some ((be_value [c0; c1; c2; c3], be_value [l0; l1], be_value [k0; k1])
                :: records)
      | None => None
      end
  | _ => None
  end.

Definition decodePayload (payload : string) : option (list (Z * Z * Z)) :=
  match decodeBase64 payload with
  | Some bytes => decodeRecords bytes
  | None => None
  end.

(** The triple the specification names for a token. *)
Definition tokenTriple (Token : HighlightingToken) : Z * Z * Z :=
  (character (start (R Token)),
   character (end_ (R Token)) - character (start (R Token)),
   ordinal (Kind Token)).

(** The record the specification lays out for a token:
    start column as u32, length as u16, kind ordinal as u16, each with
    the most significant byte first. *)
Definition be_bytes (width : nat) (value : Z) : list Z :=
  map (fun i => (value / 256 ^ Z.of_nat i) mod 256) (rev (seq 0 width)).

Definition recordOf (Token : HighlightingToken) : list Z :=
  be_bytes 4 (character (start (R Token)) mod 2 ^ 32)
  ++ be_bytes 2 ((character (end_ (R Token)) - character (start (R Token))) mod 2 ^ 16)
  ++ be_bytes 2 (ordinal (Kind Token)).

(* ===================================================================== *)
(** ** The remaining visitors, and the collector's entry point *)
(* ===================================================================== *)

(** Each visitor takes, in place of its node, what it reads of the node;
    the arguments are named after the accessors. *)

Definition VisitNamespaceAliasDecl (AST : ParsedAST)
    (getTargetNameLoc : SourceLocation AST) (getAliasedNamespace : NamedDecl)
    (C : Collector) : bool * Collector :=
  (* The target namespace of an alias can not be found in any other way. *)
  (true, addTokenDecl AST getTargetNameLoc getAliasedNamespace C).

Definition VisitMemberExpr (AST : ParsedAST)
    (getMemberName : DeclarationName) (getMemberLoc : SourceLocation AST)
    (getMemberDecl : NamedDecl) (C : Collector) : bool * Collector :=
  (true,
   if canHighlightName getMemberName
   then addTokenDecl AST getMemberLoc getMemberDecl C else C).

Definition VisitDependentScopeDeclRefExpr (AST : ParsedAST)
    (getDeclName : DeclarationName) (getLoc : SourceLocation AST)
    (C : Collector) : bool * Collector :=
  (true,
   if canHighlightName getDeclName
   then addToken AST getLoc DependentName C else C).

Definition VisitCXXDependentScopeMemberExpr (AST : ParsedAST)
    (getMember : DeclarationName) (getMemberLoc : SourceLocation AST)
    (C : Collector) : bool * Collector :=
  (true,
   if canHighlightName getMember
   then addToken AST getMemberLoc DependentName C else C).

Definition VisitNamedDecl (AST : ParsedAST)
    (getDeclName : DeclarationName) (getLoc : SourceLocation AST)
    (ND : NamedDecl) (C : Collector) : bool * Collector :=
  (true,
   if canHighlightName getDeclName then addTokenDecl AST getLoc ND C else C).

Definition VisitDeclRefExpr (AST : ParsedAST)
    (getRefName : DeclarationName) (getLoc : SourceLocation AST)
    (getDecl : NamedDecl) (C : Collector) : bool * Collector :=
  (true,
   if canHighlightName getRefName then addTokenDecl AST getLoc getDecl C else C).

Definition VisitTypedefTypeLoc (AST : ParsedAST)
    (getBeginLoc : SourceLocation AST) (getTypedefNameDecl : NamedDecl)
    (C : Collector) : bool * Collector :=
  (true, addTokenDecl AST getBeginLoc getTypedefNameDecl C).

Definition VisitTemplateSpecializationTypeLoc (AST : ParsedAST)
    (getBeginLoc : SourceLocation AST) (getAsTemplateDecl : option NamedDecl)
    (C : Collector) : bool * Collector :=
  (true,
   match getAsTemplateDecl with
   | Some TD => addTokenDecl AST getBeginLoc TD C
   | None => C
   end).

Definition VisitTagTypeLoc (AST : ParsedAST)
    (isDefinition : bool) (getBeginLoc : SourceLocation AST)
    (getTypePtr : ClangType) (C : Collector) : bool * Collector :=
  if isDefinition then (true, C) (* highlighted by VisitNamedDecl *)
  else (true,
        match kindForType getTypePtr with
        | Some K => addToken AST getBeginLoc K C
        | None => C
        end).

Definition VisitDecltypeTypeLoc (AST : ParsedAST)
    (getBeginLoc : SourceLocation AST) (getTypePtr : ClangType)
    (C : Collector) : bool * Collector :=
  (true,
   match kindForType getTypePtr with
   | Some K => addToken AST getBeginLoc K C
   | None => C
   end).

Definition VisitDependentNameTypeLoc (AST : ParsedAST)
    (getNameLoc : SourceLocation AST) (C : Collector) : bool * Collector :=
  (true, addToken AST getNameLoc DependentType C).

Definition VisitTemplateTypeParmTypeLoc (AST : ParsedAST)
    (getBeginLoc : SourceLocation AST) (C : Collector) : bool * Collector :=
  (true, addToken AST getBeginLoc TemplateParameter C).

(** Modelled from the spec: the kinds of a nested-name-specifier, declared
    in clang/AST/NestedNameSpecifier.h. *)
Inductive SpecifierKind : Type :=
| NNS_Identifier | NNS_Namespace | NNS_NamespaceAlias | NNS_TypeSpec
| NNS_TypeSpecWithTemplate | NNS_Global | NNS_Super.

(** The two traversal overrides add their token and then hand over to the
    traversal of the base class, [Base], whose result they return. *)
Definition TraverseNestedNameSpecifierLoc (AST : ParsedAST)
    (getNestedNameSpecifier : option SpecifierKind)
    (getLocalBeginLoc : SourceLocation AST)
    (Base : Collector -> bool * Collector) (C : Collector) : bool * Collector :=
  Base
    match getNestedNameSpecifier with
    | Some NNS_Namespace | Some NNS_NamespaceAlias =>
        addToken AST getLocalBeginLoc Namespace C
    | _ => C
    end.

Definition TraverseConstructorInitializer (AST : ParsedAST)
    (getMember : option NamedDecl) (getSourceLocation : SourceLocation AST)
    (Base : Collector -> bool * Collector) (C : Collector) : bool * Collector :=
  Base
    match getMember with
    | Some FD => addTokenDecl AST getSourceLocation FD C
    | None => C
    end.

(** [getContainedAutoType] is [None] when the declared type holds no
    [auto]; otherwise it gives the deduced type, which may be null. *)
Definition VisitDeclaratorDecl (AST : ParsedAST)
    (getContainedAutoType : option (option ClangType))
    (getTypeSpecStartLoc : SourceLocation AST)
    (C : Collector) : bool * Collector :=
  (* Highlight 'auto' with its underlying type. *)
  match getContainedAutoType with
  | None => (true, C)
  | Some getDeducedType =>
      match (match getDeducedType with
             | Some TP => kindForType TP
             | None => None
             end) with
      | None => (true, C)
      | Some K => (true, addToken AST getTypeSpecStartLoc K C)
      end
  end.

(** Modelled from the spec: the traversal of the tree is the business of
    [RecursiveASTVisitor], declared in clang/AST/RecursiveASTVisitor.h.
    It is given here by the calls it makes, one after the other: which
    visitor, on what.  For the two overrides the base traversal goes on
    with the calls that follow, so its own part is to go on. *)
Inductive VisitorCall (AST : ParsedAST) : Type :=
| CallNamespaceAliasDecl (Loc : SourceLocation AST) (D : NamedDecl)
| CallMemberExpr (Name : DeclarationName) (Loc : SourceLocation AST) (D : NamedDecl)
| CallOverloadExpr (E : OverloadExpr AST)
| CallDependentScopeDeclRefExpr (Name : DeclarationName) (Loc : SourceLocation AST)
| CallCXXDependentScopeMemberExpr (Name : DeclarationName) (Loc : SourceLocation AST)
| CallNamedDecl (Name : DeclarationName) (Loc : SourceLocation AST) (D : NamedDecl)
| CallUsingDecl (UD : UsingDecl AST)
| CallDeclRefExpr (Name : DeclarationName) (Loc : SourceLocation AST) (D : NamedDecl)
| CallTypedefTypeLoc (Loc : SourceLocation AST) (D : NamedDecl)
| CallTemplateSpecializationTypeLoc (Loc : SourceLocation AST) (TD : option NamedDecl)
| CallTagTypeLoc (isDefinition : bool) (Loc : SourceLocation AST) (TP : ClangType)
| CallDecltypeTypeLoc (Loc : SourceLocation AST) (TP : ClangType)
| CallDependentNameTypeLoc (Loc : SourceLocation AST)
| CallTemplateTypeParmTypeLoc (Loc : SourceLocation AST)
| CallNestedNameSpecifierLoc (NNS : option SpecifierKind) (Loc : SourceLocation AST)
| CallConstructorInitializer (Member : option NamedDecl) (Loc : SourceLocation AST)
| CallDeclaratorDecl (Auto : option (option ClangType)) (Loc : SourceLocation AST).

Arguments CallNamespaceAliasDecl {AST}.
Arguments CallMemberExpr {AST}.
Arguments CallOverloadExpr {AST}.
Arguments CallDependentScopeDeclRefExpr {AST}.
Arguments CallCXXDependentScopeMemberExpr {AST}.
Arguments CallNamedDecl {AST}.
Arguments CallUsingDecl {AST}.
Arguments CallDeclRefExpr {AST}.
Arguments CallTypedefTypeLoc {AST}.
Arguments CallTemplateSpecializationTypeLoc {AST}.
Arguments CallTagTypeLoc {AST}.
Arguments CallDecltypeTypeLoc {AST}.
Arguments CallDependentNameTypeLoc {AST}.
Arguments CallTemplateTypeParmTypeLoc {AST}.
Arguments CallNestedNameSpecifierLoc {AST}.
Arguments CallConstructorInitializer {AST}.
Arguments CallDeclaratorDecl {AST}.

Definition dispatch (AST : ParsedAST) (Call : VisitorCall AST) (C : Collector)
    : bool * Collector :=
  match Call with
  | CallNamespaceAliasDecl Loc D => VisitNamespaceAliasDecl AST Loc D C
  | CallMemberExpr Name Loc D => VisitMemberExpr AST Name Loc D C
  | CallOverloadExpr E => VisitOverloadExpr E C
  | CallDependentScopeDeclRefExpr Name Loc => VisitDependentScopeDeclRefExpr AST Name Loc C
  | CallCXXDependentScopeMemberExpr Name Loc =>
      VisitCXXDependentScopeMemberExpr AST Name Loc C
  | CallNamedDecl Name Loc D => VisitNamedDecl AST Name Loc D C
  | CallUsingDecl UD => VisitUsingDecl UD C
  | CallDeclRefExpr Name Loc D => VisitDeclRefExpr AST Name Loc D C
  | CallTypedefTypeLoc Loc D => VisitTypedefTypeLoc AST Loc D C
  | CallTemplateSpecializationTypeLoc Loc TD =>
      VisitTemplateSpecializationTypeLoc AST Loc TD C
  | CallTagTypeLoc isDef Loc TP => VisitTagTypeLoc AST isDef Loc TP C
  | CallDecltypeTypeLoc Loc TP => VisitDecltypeTypeLoc AST Loc TP C
  | CallDependentNameTypeLoc Loc => VisitDependentNameTypeLoc AST Loc C
  | CallTemplateTypeParmTypeLoc Loc => VisitTemplateTypeParmTypeLoc AST Loc C
  | CallNestedNameSpecifierLoc NNS Loc =>
      TraverseNestedNameSpecifierLoc AST NNS Loc (fun C' => (true, C')) C
  | CallConstructorInitializer Member Loc =>
      TraverseConstructorInitializer AST Member Loc (fun C' => (true, C')) C
  | CallDeclaratorDecl Auto Loc => VisitDeclaratorDecl AST Auto Loc C
  end.

(** The traversal stops at the first visitor that returns [false]. *)
Fixpoint TraverseAST (AST : ParsedAST) (Calls : list (VisitorCall AST))
    (C : Collector) : Collector :=
  match Calls with
  | [] => C
  | Call :: Calls' =>
      let (goOn, C') := dispatch Call C in
      if goOn then TraverseAST Calls' C' else C'
  end.

(** [getSemanticHighlightings]: a fresh collector's [collectTokens].  The
    token vector is cleared, the tree is traversed, and the macro ranges
    of the tree are added. *)
Definition getSemanticHighlightings (AST : ParsedAST) (Calls : list (VisitorCall AST))
    (Log : list string) : list HighlightingToken :=
  collectTokens
    (CollectedTokens (TraverseAST Calls (mkCollector [] Log)))
    (getMacros_Ranges AST).

(* ===================================================================== *)
(** ** Printing of kinds, scopes, and equality of changed lines *)
(* ===================================================================== *)

(** [operator<<] for a kind: the text sent to the stream. *)
Definition printKind (K : HighlightingKind) : string :=
  match K with
  | Variable_ => "Variable"
  | LocalVariable => "LocalVariable"
  | Parameter_ => "Parameter"
  | Function_ => "Function"
  | Method => "Method"
  | StaticMethod => "StaticMethod"
  | Field => "Field"
  | StaticField => "StaticField"
  | Class_ => "Class"
  | Enum => "Enum"
  | EnumConstant => "EnumConstant"
  | Typedef => "Typedef"
  | DependentType => "DependentType"
  | DependentName => "DependentName"
  | Namespace => "Namespace"
  | TemplateParameter => "TemplateParameter"
  | Primitive => "Primitive"
  | Macro => "Macro"
  end.

Definition toTextMateScope (K : HighlightingKind) : string :=
  match K with
  | Function_ => "entity.name.function.cpp"
  | Method => "entity.name.function.method.cpp"
  | StaticMethod => "entity.name.function.method.static.cpp"
  | Variable_ => "variable.other.cpp"
  | LocalVariable => "variable.other.local.cpp"
  | Parameter_ => "variable.parameter.cpp"
  | Field => "variable.other.field.cpp"
  | StaticField => "variable.other.field.static.cpp"
  | Class_ => "entity.name.type.class.cpp"
  | Enum => "entity.name.type.enum.cpp"
  | EnumConstant => "variable.other.enummember.cpp"
  | Typedef => "entity.name.type.typedef.cpp"
  | DependentType => "entity.name.type.dependent.cpp"
  | DependentName => "entity.name.other.dependent.cpp"
  | Namespace => "entity.name.namespace.cpp"
  | TemplateParameter => "entity.name.type.template.cpp"
  | Primitive => "storage.type.primitive.cpp"
  | Macro => "entity.name.function.preprocessor.cpp"
  end.

(** [operator==] of [LineHighlightings]: [std::tie(Line, Tokens)]. *)
Definition LineHighlightings_eqb (L R' : LineHighlightings) : bool :=
  (Line L =? Line R') && ArrayRef_eqb (Tokens L) (Tokens R').

(* ===================================================================== *)
(** ** Vocabulary of the properties *)
(* ===================================================================== *)

(** A boolean strict total order. *)
Record StrictTotal {T} (lt : T -> T -> bool) : Prop := mkStrictTotal {
  st_irrefl : forall x, lt x x = false;
  st_trans : forall x y z, lt x y = true -> lt y z = true -> lt x z = true;
  st_total : forall x y, lt x y = false -> lt y x = false -> x = y
}.

(** [Token_lt] is the canonical order, [Token_le] its reflexive closure
    written as the source's [is_sorted] tests it: not greater. *)
Definition Token_lt (A B : HighlightingToken) : Prop := Token_ltb A B = true.
Definition Token_le (A B : HighlightingToken) : Prop := Token_ltb B A = false.

(** The raw token stream of [collectTokens]: what the traversal pushed,
    then one [Macro] token per macro range. *)
Definition rawTokens (Traversed : list HighlightingToken) (MacroRanges : list Range)
    : list HighlightingToken :=
  Traversed ++ map (fun M => mkToken Macro M) MacroRanges.

(** [T] is the only token of [Tokens] that has its range. *)
Definition uniqueRangeIn (Tokens : list HighlightingToken) (T : HighlightingToken) : bool :=
  forallb (fun T' => implb (Range_eqb (R T') (R T)) (Token_eqb T' T)) Tokens.

(** The kind that [kindForDecl] tries first for a typedef: the kind of
    its underlying type, when there is a type and it has a kind. *)
Definition underlyingKind (U : option ClangType) : option HighlightingKind :=
  match U with
  | Some TP => kindForType TP
  | None => None
  end.

(** The location that [addToken] tests against the main file. *)
Definition resolvedLoc (AST : ParsedAST) (Loc : SourceLocation AST) : SourceLocation AST :=
  if isMacroID AST Loc then getSpellingLoc AST Loc else Loc.

(** A tree whose locations are numbers: odd numbers are macro locations,
    those above 100 are macro-argument expansions spelled at half the
    number, and the main file holds the locations below 50. *)
Definition sampleAST : ParsedAST :=
  mkParsedAST (SourceLocation:=Z)
    (fun Loc => Loc =? 0)
    Z.odd
    (fun Loc => 100 <? Loc)
    (fun Loc => Loc / 2)
    (fun Loc => Loc <? 50)
    (fun Loc => Some (mkRange (mkPosition 0 Loc) (mkPosition 0 (Loc + 1))))
    [].

Definition startLine (T : HighlightingToken) : Z := line (start (R T)).

(** The tokens are in the order of their start lines. *)
Definition lineSorted (Tokens : list HighlightingToken) : Prop :=
  StronglySorted (fun A B => startLine A <= startLine B) Tokens.

(** The start lines fit the [int] that holds them. *)
Definition linesBounded (Tokens : list HighlightingToken) : Prop :=
  Forall (fun T => startLine T <= INT_MAX) Tokens.

(** The start lines are zero-based and fit an [int]. *)
Definition linesValid (Tokens : list HighlightingToken) : Prop :=
  Forall (fun T => 0 <= startLine T <= INT_MAX) Tokens.

(** A token whose start column and length are below 128. *)
Definition sevenBit (Token : HighlightingToken) : Prop :=
  0 <= character (start (R Token)) < 128
  /\ 0 <= character (end_ (R Token)) - character (start (R Token)) < 128.

(** A canonical token set: in strict canonical order, and no two tokens
    of one range. *)
Definition canonical (Tokens : list HighlightingToken) : Prop :=
  StronglySorted Token_lt Tokens /\ NoDup (map R Tokens).

(** [Diffed] holds exactly the changed lines of [New] against [Old]: one
    record for every line whose tokens differ, with the tokens [New] has
    on it, in increasing order of the line numbers. *)
Definition changedLines (New Old : list HighlightingToken)
    (Diffed : list LineHighlightings) : Prop :=
  StronglySorted Z.lt (map Line Diffed)
  /\ forall L ts,
       In (mkLine L ts) Diffed
       <-> ts = lineGroup New L /\ lineGroup New L <> lineGroup Old L.

(** The bytes that a reader of standard base64 gets out of what
    [encodeBase64] writes for a buffer: of every group the low three
    bytes of the group's [X]. *)
Fixpoint receivedBytes (Bytes : list Z) : list Z :=
  match Bytes with
  | b0 :: b1 :: b2 :: Bytes' =>
      let X := to_uint32_t (to_int (to_int (Z.shiftl b0 16 + Z.shiftl b1 8) + b2)) in
      (X / 65536) mod 256 :: (X / 256) mod 256 :: X mod 256 :: receivedBytes Bytes'
  | [b0] =>
      let X := to_uint32_t (Z.shiftl b0 16) in
      [(X / 65536) mod 256]
  | [b0; b1] =>
      let X := to_uint32_t (to_int (Z.shiftl b0 16 + Z.shiftl b1 8)) in
      [(X / 65536) mod 256; (X / 256) mod 256]
  | [] => []
  end.

(** No [char] at the second or third place of a group of three is
    negative. *)
Fixpoint offsetsSafe (Bytes : list Z) : Prop :=
  match Bytes with
  | _ :: b1 :: b2 :: Bytes' => 0 <= b1 /\ 0 <= b2 /\ offsetsSafe Bytes'
  | [_; b1] => 0 <= b1
  | _ => True
  end.

(** The values of a [char]. *)
Definition isChar (c : Z) : Prop := -128 <= c < 128.

(** The kinds that only the collector and the visitors of dependent
    names hand out. *)
Definition notReserved (K : option HighlightingKind) : Prop :=
  K <> Some Macro /\ K <> Some DependentName /\ K <> Some DependentType.

(** The nesting depth of a declaration or type. *)
Fixpoint declDepth (D : NamedDecl) : nat :=
  match D with
  | UsingShadowDecl (Some T) | ClassTemplateDecl (Some T)
  | TemplateTemplateParmDecl (Some T) | OtherTemplateDecl (Some T) => S (declDepth T)
  | TypedefNameDecl (Some TP) => S (typeDepth TP)
  | _ => O
  end
with typeDepth (TP : ClangType) : nat :=
  match TP with
  | TemplateTypeParmType D | TagType D => S (declDepth D)
  | _ => O
  end.

(** What one call of a visitor adds to an empty collector. *)
Definition callEffect (AST : ParsedAST) (Call : VisitorCall AST) : Collector :=
  snd (dispatch Call (mkCollector [] [])).

(** The tokens that the calls of a traversal push, in order. *)
Definition traversedTokens (AST : ParsedAST) (Calls : list (VisitorCall AST))
    : list HighlightingToken :=
  CollectedTokens (TraverseAST Calls (mkCollector [] [])).

(** The collector [C] with what [E] holds added behind. *)
Definition extend (C E : Collector) : Collector :=
  mkCollector (CollectedTokens C ++ CollectedTokens E) (ErrorLog C ++ ErrorLog E).

(* ===================================================================== *)
(** * Properties *)
(* ===================================================================== *)

(** ** Equality tests decide equality *)

Lemma Position_eqb_eq (P Q : Position) : Position_eqb P Q = true <-> P = Q.
Proof.
  destruct P as [l c], Q as [l' c']. unfold Position_eqb. cbn.
  rewrite andb_true_iff, !Z.eqb_eq. split.
  - intros [-> ->]. reflexivity.
  - intros H. injection H as -> ->. auto.
Qed.

Lemma Range_eqb_eq (A B : Range) : Range_eqb A B = true <-> A = B.
Proof.
  destruct A as [s e], B as [s' e']. unfold Range_eqb. cbn.
  rewrite andb_true_iff, !Position_eqb_eq. split.
  - intros [-> ->]. reflexivity.
  - intros H. injection H as -> ->. auto.
Qed.

Lemma ordinal_inj (K1 K2 : HighlightingKind) : ordinal K1 = ordinal K2 -> K1 = K2.
Proof.
  destruct K1, K2; cbn; intros H; try reflexivity; discriminate H.
Qed.

Lemma Kind_eqb_eq (K1 K2 : HighlightingKind) : Kind_eqb K1 K2 = true <-> K1 = K2.
Proof.
  unfold Kind_eqb. rewrite Z.eqb_eq. split.
  - apply ordinal_inj.
  - now intros ->.
Qed.

Lemma Token_eqb_eq (A B : HighlightingToken) : Token_eqb A B = true <-> A = B.
Proof.
  destruct A as [k r], B as [k' r']. unfold Token_eqb. cbn.
  rewrite andb_true_iff, Range_eqb_eq, Kind_eqb_eq. split.
  - intros [-> ->]. reflexivity.
  - intros H. injection H as -> ->. auto.
Qed.

Lemma Token_eqb_refl (A : HighlightingToken) : Token_eqb A A = true.
Proof. now apply Token_eqb_eq. Qed.

Lemma Range_eqb_refl (Rg : Range) : Range_eqb Rg Rg = true.
Proof. now apply Range_eqb_eq. Qed.

Lemma ArrayRef_eqb_eq (A B : list HighlightingToken) : ArrayRef_eqb A B = true <-> A = B.
Proof.
  revert B. induction A as [|a A IH]; intros [|b B]; cbn; try (split; congruence).
  rewrite andb_true_iff, Token_eqb_eq, IH. split.
  - intros [-> ->]. reflexivity.
  - intros H. injection H as -> ->. auto.
Qed.

(** ** The canonical order is a strict total order *)

Section StrictOrders.

Variables (T A B : Type) (f : T -> A) (g : T -> B).
Variables (ltA : A -> A -> bool) (ltB : B -> B -> bool).
Hypothesis HA : StrictTotal ltA.
Hypothesis HB : StrictTotal ltB.
Hypothesis Hfg : forall x y, f x = f y -> g x = g y -> x = y.

Lemma lt_false_cases (x y : A) : ltA x y = false -> x = y \/ ltA y x = true.
Proof.
  intros H. destruct (ltA y x) eqn:E; [now right|left].
  now apply (st_total HA).
Qed.

(** Comparing two fields with [std::tie] is again a strict total order
    when the fields determine the value. *)
Lemma tie_StrictTotal :
  StrictTotal (fun x y => tie_ltb ltA ltB (f x) (g x) (f y) (g y)).
Proof.
  unfold tie_ltb. constructor.
  - intros x. now rewrite (st_irrefl HA), (st_irrefl HB).
  - intros x y z Hxy Hyz.
    apply orb_true_iff in Hxy. apply orb_true_iff in Hyz.
    apply orb_true_iff.
    destruct Hxy as [Hxy|Hxy], Hyz as [Hyz|Hyz].
    + left. eapply (st_trans HA); eassumption.
    + apply andb_true_iff in Hyz as [Hn Hb].
      apply negb_true_iff in Hn. left.
      destruct (lt_false_cases Hn) as [E|Hlt].
      * now rewrite E.
      * eapply (st_trans HA); eassumption.
    + apply andb_true_iff in Hxy as [Hn Hb].
      apply negb_true_iff in Hn. left.
      destruct (lt_false_cases Hn) as [E|Hlt].
      * now rewrite <- E.
      * eapply (st_trans HA); eassumption.
    + apply andb_true_iff in Hxy as [Hn1 Hb1].
      apply andb_true_iff in Hyz as [Hn2 Hb2].
      apply negb_true_iff in Hn1. apply negb_true_iff in Hn2.
      destruct (ltA (f x) (f y)) eqn:Exy.
      * left. destruct (ltA (f y) (f z)) eqn:Eyz.
        -- eapply (st_trans HA); eassumption.
        -- assert (f y = f z) as <- by now apply (st_total HA).
           assumption.
      * assert (f x = f y) as E1 by now apply (st_total HA).
        destruct (ltA (f y) (f z)) eqn:Eyz.
        -- left. now rewrite E1.
        -- assert (f y = f z) as E2 by now apply (st_total HA).
           right. rewrite E1, E2, (st_irrefl HA). cbn.
           eapply (st_trans HB); eassumption.
  - intros x y H1 H2.
    apply orb_false_iff in H1 as [H1 H1'].
    apply orb_false_iff in H2 as [H2 H2'].
    assert (f x = f y) as E by now apply (st_total HA).
    rewrite H1 in H2'. rewrite H2 in H1'. cbn in *.
    apply Hfg; [exact E|]. now apply (st_total HB).
Qed.

End StrictOrders.

Lemma Zltb_StrictTotal : StrictTotal Z.ltb.
Proof.
  constructor.
  - intros x. apply Z.ltb_irrefl.
  - intros x y z H1 H2. apply Z.ltb_lt in H1, H2. apply Z.ltb_lt. lia.
  - intros x y H1 H2. apply Z.ltb_ge in H1, H2. lia.
Qed.

Lemma Position_ltb_StrictTotal : StrictTotal Position_ltb.
Proof.
  apply (tie_StrictTotal line character Zltb_StrictTotal Zltb_StrictTotal).
  intros [l c] [l' c']; cbn; congruence.
Qed.

Lemma Range_ltb_StrictTotal : StrictTotal Range_ltb.
Proof.
  apply (tie_StrictTotal start end_ Position_ltb_StrictTotal Position_ltb_StrictTotal).
  intros [s e] [s' e']; cbn; congruence.
Qed.

Lemma Kind_ltb_StrictTotal : StrictTotal Kind_ltb.
Proof.
  unfold Kind_ltb. constructor.
  - intros x. apply Z.ltb_irrefl.
  - intros x y z H1 H2. apply Z.ltb_lt in H1, H2. apply Z.ltb_lt. lia.
  - intros x y H1 H2. apply Z.ltb_ge in H1, H2. apply ordinal_inj. lia.
Qed.

Lemma Token_ltb_StrictTotal : StrictTotal Token_ltb.
Proof.
  apply (tie_StrictTotal R Kind Range_ltb_StrictTotal Kind_ltb_StrictTotal).
  intros [k r] [k' r']; cbn; congruence.
Qed.

Lemma Token_lt_irrefl (A : HighlightingToken) : ~ Token_lt A A.
Proof.
  unfold Token_lt. rewrite (st_irrefl Token_ltb_StrictTotal). discriminate.
Qed.

Lemma Token_lt_trans (A B C : HighlightingToken) :
  Token_lt A B -> Token_lt B C -> Token_lt A C.
Proof. apply (st_trans Token_ltb_StrictTotal). Qed.

Lemma Token_lt_le (A B : HighlightingToken) : Token_lt A B -> Token_le A B.
Proof.
  unfold Token_lt, Token_le. intros H.
  destruct (Token_ltb B A) eqn:E; [|reflexivity].
  exfalso. apply (Token_lt_irrefl (A:=A)). eapply Token_lt_trans; eassumption.
Qed.

Lemma Token_le_cases (A B : HighlightingToken) : Token_le A B -> A = B \/ Token_lt A B.
Proof.
  unfold Token_le, Token_lt. intros H.
  destruct (Token_ltb A B) eqn:E; [now right|left].
  now apply (st_total Token_ltb_StrictTotal).
Qed.

Lemma Token_le_lt_trans (A B C : HighlightingToken) :
  Token_le A B -> Token_lt B C -> Token_lt A C.
Proof.
  intros H1 H2. destruct (Token_le_cases H1) as [->|H]; [exact H2|].
  eapply Token_lt_trans; eassumption.
Qed.

Lemma Token_lt_le_trans (A B C : HighlightingToken) :
  Token_lt A B -> Token_le B C -> Token_lt A C.
Proof.
  intros H1 H2. destruct (Token_le_cases H2) as [<-|H]; [exact H1|].
  eapply Token_lt_trans; eassumption.
Qed.

Lemma Token_le_trans (A B C : HighlightingToken) :
  Token_le A B -> Token_le B C -> Token_le A C.
Proof.
  intros H1 H2. destruct (Token_le_cases H1) as [->|H]; [exact H2|].
  apply Token_lt_le. eapply Token_lt_le_trans; eassumption.
Qed.

(** A token that is not less has a range that is not less. *)
Lemma Token_le_Range (A B : HighlightingToken) :
  Token_le A B -> Range_ltb (R B) (R A) = false.
Proof.
  unfold Token_le, Token_ltb, tie_ltb. intros H.
  now apply orb_false_iff in H as [H _].
Qed.

Lemma Token_le_line (A B : HighlightingToken) :
  Token_le A B -> line (start (R A)) <= line (start (R B)).
Proof.
  intros H. apply Token_le_Range in H.
  unfold Range_ltb, tie_ltb in H. apply orb_false_iff in H as [H _].
  unfold Position_ltb, tie_ltb in H. apply orb_false_iff in H as [H _].
  now apply Z.ltb_ge in H.
Qed.

(** ** Sorting and deduplication *)

Lemma In_sort_insert (T X : HighlightingToken) (l : list HighlightingToken) :
  In X (sort_insert T l) <-> X = T \/ In X l.
Proof.
  induction l as [|Y l IH]; cbn.
  - intuition congruence.
  - destruct (Token_ltb T Y); cbn; [|rewrite IH]; intuition congruence.
Qed.

Lemma In_sort (X : HighlightingToken) (l : list HighlightingToken) :
  In X (sort l) <-> In X l.
Proof.
  induction l as [|Y l IH]; cbn; [tauto|].
  rewrite In_sort_insert, IH. intuition congruence.
Qed.

Lemma sort_insert_sorted (T : HighlightingToken) (l : list HighlightingToken) :
  StronglySorted Token_le l -> StronglySorted Token_le (sort_insert T l).
Proof.
  induction 1 as [|Y l Hl IH HY]; cbn.
  - constructor; constructor.
  - destruct (Token_ltb T Y) eqn:E.
    + constructor; [now constructor|].
      constructor; [now apply Token_lt_le|].
      rewrite Forall_forall in *. intros Z HZ.
      apply Token_lt_le. eapply Token_lt_le_trans; [exact E|auto].
    + constructor; [exact IH|].
      rewrite Forall_forall in *. intros Z HZ.
      apply In_sort_insert in HZ as [->|HZ]; [exact E|auto].
Qed.

Lemma sort_sorted (l : list HighlightingToken) : StronglySorted Token_le (sort l).
Proof.
  induction l as [|Y l IH]; cbn; [constructor|].
  now apply sort_insert_sorted.
Qed.

Lemma sort_insert_Permutation (T : HighlightingToken) (l : list HighlightingToken) :
  Permutation (T :: l) (sort_insert T l).
Proof.
  induction l as [|Y l IH]; cbn; [reflexivity|].
  destruct (Token_ltb T Y); [reflexivity|].
  rewrite perm_swap. now apply perm_skip.
Qed.

Lemma sort_Permutation (l : list HighlightingToken) : Permutation l (sort l).
Proof.
  induction l as [|Y l IH]; cbn; [reflexivity|].
  rewrite <- sort_insert_Permutation. now apply perm_skip.
Qed.

(** Two sorted vectors with the same elements are the same vector. *)
Lemma sorted_Permutation_eq (l l' : list HighlightingToken) :
  StronglySorted Token_le l -> StronglySorted Token_le l' ->
  Permutation l l' -> l = l'.
Proof.
  intros Hl. revert l'. induction Hl as [|x l Hl IH Hx]; intros l' Hl' Hp.
  - apply Permutation_nil in Hp. now subst.
  - destruct Hl' as [|y l' Hl' Hy].
    + apply Permutation_sym, Permutation_nil in Hp. discriminate.
    + rewrite Forall_forall in Hx, Hy.
      assert (x = y) as ->.
      { assert (In y (x :: l)) as [E|HIn]
          by (eapply Permutation_in; [apply Permutation_sym; exact Hp|now left]);
          [exact E|].
        assert (In x (y :: l')) as [E|HIn']
          by (eapply Permutation_in; [exact Hp|now left]); [now symmetry|].
        specialize (Hx y HIn). specialize (Hy x HIn').
        destruct (Token_le_cases Hx) as [E|Hlt]; [exact E|].
        unfold Token_le, Token_lt in *. congruence. }
      f_equal. apply IH; [exact Hl'|].
      eapply Permutation_cons_inv; exact Hp.
Qed.

(** So [sort] is what any sorting algorithm returns: a vector that is in
    order and has the elements of the input is the result of [sort]. *)
Lemma sort_is_the_sorted_vector (l l' : list HighlightingToken) :
  Permutation l l' -> StronglySorted Token_le l' -> l' = sort l.
Proof.
  intros Hp Hs. apply sorted_Permutation_eq; [exact Hs|apply sort_sorted|].
  rewrite <- Hp. apply sort_Permutation.
Qed.

Lemma In_unique_after (K X : HighlightingToken) (l : list HighlightingToken) :
  In X (K :: unique_after K l) <-> In X (K :: l).
Proof.
  revert K. induction l as [|Y l IH]; intros K; [tauto|].
  cbn [unique_after]. destruct (Token_eqb K Y) eqn:E.
  - apply Token_eqb_eq in E as <-. rewrite IH. cbn. tauto.
  - specialize (IH Y). cbn in *. tauto.
Qed.

Lemma In_unique (X : HighlightingToken) (l : list HighlightingToken) :
  In X (unique l) <-> In X l.
Proof.
  destruct l as [|K l]; [tauto|]. apply In_unique_after.
Qed.

Lemma unique_after_sorted (K : HighlightingToken) (l : list HighlightingToken) :
  StronglySorted Token_le (K :: l) ->
  StronglySorted Token_lt (K :: unique_after K l).
Proof.
  revert K. induction l as [|Y l IH]; intros K H.
  - constructor; constructor.
  - inversion H as [|? ? Hl HK]; subst.
    inversion HK as [|? ? HKY HKl]; subst.
    cbn [unique_after]. destruct (Token_eqb K Y) eqn:E.
    + apply Token_eqb_eq in E as <-. now apply IH.
    + specialize (IH Y Hl).
      assert (Token_lt K Y) as HltKY.
      { destruct (Token_le_cases HKY) as [->|Hlt]; [|exact Hlt].
        now rewrite Token_eqb_refl in E. }
      constructor; [exact IH|].
      constructor; [exact HltKY|].
      inversion IH as [|? ? _ HYl]; subst.
      rewrite Forall_forall in *. intros Z HZ.
      eapply Token_lt_trans; [exact HltKY|auto].
Qed.

Lemma unique_sorted (l : list HighlightingToken) :
  StronglySorted Token_le l -> StronglySorted Token_lt (unique l).
Proof.
  destruct l as [|K l]; [constructor|]. apply unique_after_sorted.
Qed.

(** ** Removal of conflicting tokens *)

Lemma take_while_drop {A} (P : A -> bool) (l : list A) :
  take_while P l ++ drop_front (length (take_while P l)) l = l.
Proof.
  unfold drop_front. induction l as [|x l IH]; cbn; [reflexivity|].
  destruct (P x); cbn; [now rewrite IH|reflexivity].
Qed.

Lemma take_while_Forall {A} (P : A -> bool) (l : list A) :
  Forall (fun x => P x = true) (take_while P l).
Proof.
  induction l as [|x l IH]; cbn; [constructor|].
  destruct (P x) eqn:E; constructor; assumption.
Qed.

Lemma drop_take_while_head {A} (P : A -> bool) (l : list A) (x : A) (l' : list A) :
  drop_front (length (take_while P l)) l = x :: l' -> P x = false.
Proof.
  unfold drop_front. induction l as [|y l IH]; cbn; [discriminate|].
  destruct (P y) eqn:E; cbn; [exact IH|].
  intros H. injection H as <- _. exact E.
Qed.

Lemma StronglySorted_app_r {A} (Rel : A -> A -> Prop) (c d : list A) :
  StronglySorted Rel (c ++ d) -> StronglySorted Rel d.
Proof.
  induction c as [|x c IH]; cbn; [auto|].
  intros H. inversion H; subst. auto.
Qed.

Lemma StronglySorted_app_lt {A} (Rel : A -> A -> Prop) (c d : list A) :
  StronglySorted Rel (c ++ d) -> forall x y, In x c -> In y d -> Rel x y.
Proof.
  induction c as [|z c IH]; cbn; [tauto|].
  intros H x y Hx Hy. inversion H as [|? ? Hs Hall]; subst.
  destruct Hx as [->|Hx]; [|eauto].
  rewrite Forall_forall in Hall. apply Hall, in_or_app. now right.
Qed.

(** In a strictly sorted vector the tokens of one range are neighbours:
    behind the run at the front no token has the range of the front. *)
Lemma behind_run_other_range (front : HighlightingToken) (rest : list HighlightingToken) :
  StronglySorted Token_lt (front :: rest) ->
  forall T, In T (drop_front (length (Conflicting_of (front :: rest))) (front :: rest)) ->
  R T <> R front.
Proof.
  intros Hs T HT.
  set (P := fun T => Range_eqb (R T) (R front)).
  change (Conflicting_of (front :: rest)) with (take_while P (front :: rest)) in HT.
  pose proof (take_while_drop P (front :: rest)) as Hsplit.
  destruct (drop_front (length (take_while P (front :: rest))) (front :: rest))
    as [|h d] eqn:Ed; [destruct HT|].
  pose proof (drop_take_while_head P (front :: rest) Ed) as Hh.
  rewrite <- Hsplit in Hs.
  assert (In front (take_while P (front :: rest))) as Hfront.
  { cbn. unfold P at 1. rewrite Range_eqb_refl. now left. }
  assert (Token_lt front h) as Hfh.
  { eapply StronglySorted_app_lt; [exact Hs|exact Hfront|now left]. }
  assert (Token_le h T) as HhT.
  { apply StronglySorted_app_r in Hs. inversion Hs as [|? ? _ Hall]; subst.
    destruct HT as [<-|HT].
    - unfold Token_le. apply (st_irrefl Token_ltb_StrictTotal).
    - apply Token_lt_le. rewrite Forall_forall in Hall. auto. }
  intros E.
  apply Token_lt_le, Token_le_Range in Hfh.
  apply Token_le_Range in HhT. rewrite E in HhT.
  assert (R front = R h) as E' by now apply (st_total Range_ltb_StrictTotal).
  unfold P in Hh. rewrite E', Range_eqb_refl in Hh. discriminate.
Qed.

Lemma removeConflicting_acc (TokRef NonConflicting : list HighlightingToken) :
  removeConflicting TokRef NonConflicting
  = NonConflicting ++ removeConflicting TokRef [].
Proof.
  remember (length TokRef) as n eqn:En.
  revert TokRef En NonConflicting.
  induction n as [n IH] using lt_wf_ind. intros [|front rest] En acc.
  - simp removeConflicting. now rewrite app_nil_r.
  - simp removeConflicting.
    assert (length (drop_front (length (Conflicting_of (front :: rest))) (front :: rest)) < n)%nat
      as Hlt.
    { subst n. unfold drop_front. cbn [Conflicting_of take_while].
      rewrite Range_eqb_refl. cbn [length skipn]. rewrite length_skipn. lia. }
    rewrite (IH _ Hlt _ eq_refl).
    rewrite (IH _ Hlt _ eq_refl (if (_ =? 1)%nat then _ else _)).
    destruct (length (Conflicting_of (front :: rest)) =? 1)%nat; cbn.
    + now rewrite <- app_assoc.
    + reflexivity.
Qed.

Lemma uniqueRangeIn_spec (Tokens : list HighlightingToken) (T : HighlightingToken) :
  uniqueRangeIn Tokens T = true
  <-> forall T', In T' Tokens -> R T' = R T -> T' = T.
Proof.
  unfold uniqueRangeIn. rewrite forallb_forall. split.
  - intros H T' HIn E. specialize (H T' HIn).
    rewrite E, Range_eqb_refl in H. now apply Token_eqb_eq.
  - intros H T' HIn. destruct (Range_eqb (R T') (R T)) eqn:E; [|reflexivity].
    apply Range_eqb_eq in E. cbn. apply Token_eqb_eq. auto.
Qed.

Lemma filter_none {A} (f : A -> bool) (l : list A) :
  (forall x, In x l -> f x = false) -> filter f l = [].
Proof.
  induction l as [|y l IH]; intros H; [reflexivity|].
  cbn. rewrite (H y) by now left. apply IH. intros; apply H; now right.
Qed.

(** On a strictly sorted vector the loop keeps exactly the tokens whose
    range no other token has, in their order. *)
Lemma removeConflicting_filter (TokRef : list HighlightingToken) :
  StronglySorted Token_lt TokRef ->
  removeConflicting TokRef [] = filter (uniqueRangeIn TokRef) TokRef.
Proof.
  remember (length TokRef) as n eqn:En.
  revert TokRef En.
  induction n as [n IH] using lt_wf_ind. intros [|front rest] En Hs.
  - now simp removeConflicting.
  - simp removeConflicting. rewrite removeConflicting_acc.
    pose proof (behind_run_other_range Hs) as Hother.
    set (P := fun T => Range_eqb (R T) (R front)) in *.
    change (Conflicting_of (front :: rest)) with (take_while P (front :: rest)) in *.
    pose proof (take_while_drop P (front :: rest)) as Hsplit.
    pose proof (take_while_Forall P (front :: rest)) as Hrun.
    rewrite Forall_forall in Hrun.
    set (c := take_while P (front :: rest)) in *.
    set (d := drop_front (length c) (front :: rest)) in *.
    assert (StronglySorted Token_lt d) as Hd.
    { rewrite <- Hsplit in Hs. now apply StronglySorted_app_r in Hs. }
    assert (length d < n)%nat as Hlt.
    { subst n d c. unfold drop_front. cbn [take_while]. unfold P at 1.
      rewrite Range_eqb_refl. cbn [length skipn]. rewrite length_skipn. lia. }
    rewrite (IH _ Hlt d eq_refl Hd).
    rewrite <- Hsplit at 2. rewrite filter_app. f_equal.
    + (* the run at the front *)
      assert (exists c', c = front :: c') as [c' Ec].
      { subst c. cbn. unfold P at 1. rewrite Range_eqb_refl. eauto. }
      assert (forall T, In T d -> uniqueRangeIn [front] T = true) as Hfd.
      { intros T HT. cbn. destruct (Range_eqb (R front) (R T)) eqn:E; [|reflexivity].
        apply Range_eqb_eq in E. exfalso. apply (Hother T HT). now symmetry. }
      destruct c' as [|x c'].
      * rewrite Ec. cbn [length Nat.eqb app filter].
        assert (uniqueRangeIn (front :: rest) front = true) as ->; [|reflexivity].
        apply uniqueRangeIn_spec. intros T' HIn E.
        rewrite <- Hsplit, Ec in HIn. cbn in HIn. destruct HIn as [->|HIn]; [reflexivity|].
        exfalso. now apply (Hother T' HIn).
      * assert ((length c =? 1)%nat = false) as -> by now rewrite Ec.
        cbn [app]. symmetry.
        assert (front <> x) as Hfx.
        { rewrite <- Hsplit, Ec in Hs. cbn in Hs.
          inversion Hs as [|? ? _ Hall]; subst.
          inversion Hall as [|? ? Hlt' _]; subst.
          intros ->. now apply Token_lt_irrefl in Hlt'. }
        assert (forall T, In T c -> uniqueRangeIn (front :: rest) T = false) as Hnone.
        { intros T HT. apply not_true_is_false. intros Hu.
          rewrite uniqueRangeIn_spec in Hu.
          assert (R T = R front) as ET by (apply Range_eqb_eq, (Hrun T HT)).
          assert (front = T) as E1.
          { apply Hu; [now left|now symmetry]. }
          assert (x = T) as E2.
          { apply Hu.
            - rewrite <- Hsplit, Ec. cbn. auto.
            - rewrite ET. apply Range_eqb_eq, (Hrun x). rewrite Ec. cbn. auto. }
          congruence. }
        now apply filter_none.
    + (* behind the run *)
      apply filter_ext_in. intros T HT.
      rewrite <- Hsplit. unfold uniqueRangeIn. rewrite forallb_app.
      replace (forallb _ c) with true; [reflexivity|].
      symmetry. apply forallb_forall. intros T' HT'.
      destruct (Range_eqb (R T') (R T)) eqn:E; [|reflexivity].
      apply Range_eqb_eq in E. exfalso. apply (Hother T HT).
      rewrite <- E. apply Range_eqb_eq, (Hrun T' HT').
Qed.

Lemma StronglySorted_lt_NoDup (l : list HighlightingToken) :
  StronglySorted Token_lt l -> NoDup l.
Proof.
  induction 1 as [|x l Hl IH Hx]; constructor; [|exact IH].
  intros HIn. rewrite Forall_forall in Hx.
  now apply (Token_lt_irrefl (A:=x)), Hx.
Qed.

Lemma NoDup_map_on {A B} (f : A -> B) (l : list A) :
  (forall x y, In x l -> In y l -> f x = f y -> x = y) ->
  NoDup l -> NoDup (map f l).
Proof.
  intros Hinj Hnd. induction Hnd as [|x l Hx Hnd IH]; cbn; constructor.
  - intros HIn. apply in_map_iff in HIn as [y [E Hy]].
    apply Hx. rewrite <- (Hinj y x); auto; [now right|now left].
  - apply IH. intros; apply Hinj; auto; now right.
Qed.

Lemma collectTokens_filter (Traversed : list HighlightingToken) (MacroRanges : list Range) :
  let Canon := unique (sort (rawTokens Traversed MacroRanges)) in
  collectTokens Traversed MacroRanges = filter (uniqueRangeIn Canon) Canon
  /\ StronglySorted Token_lt Canon
  /\ forall T, In T Canon <-> In T (rawTokens Traversed MacroRanges).
Proof.
  intros Canon.
  assert (StronglySorted Token_lt Canon) as Hs by apply unique_sorted, sort_sorted.
  split; [|split].
  - unfold collectTokens. now apply removeConflicting_filter.
  - exact Hs.
  - intros T. unfold Canon. now rewrite In_unique, In_sort.
Qed.

Lemma In_collectTokens (Traversed : list HighlightingToken) (MacroRanges : list Range)
    (T : HighlightingToken) :
  In T (collectTokens Traversed MacroRanges)
  <-> In T (rawTokens Traversed MacroRanges)
      /\ forall T', In T' (rawTokens Traversed MacroRanges) -> R T' = R T -> T' = T.
Proof.
  destruct (collectTokens_filter Traversed MacroRanges) as [-> [_ HIn]].
  rewrite filter_In, uniqueRangeIn_spec, HIn.
  split; intros [H1 H2]; (split; [exact H1|]); intros T' HT'; apply H2; now apply HIn.
Qed.

(** C1: the output of [collectTokens] holds at most one token per
    source range.  When two tokens of the raw stream (the traversal's
    tokens followed by the macro ranges) have the same range and
    different kinds, no token of that range is in the output; a token
    whose range no other raw token has is in the output; and the output
    holds raw tokens only. *)
Theorem C1_collectTokens_one_token_per_range
    (Traversed : list HighlightingToken) (MacroRanges : list Range) :
  NoDup (map R (collectTokens Traversed MacroRanges))
  /\ (forall T T',
        In T (rawTokens Traversed MacroRanges) ->
        In T' (rawTokens Traversed MacroRanges) ->
        R T = R T' -> Kind T <> Kind T' ->
        forall X, In X (collectTokens Traversed MacroRanges) -> R X <> R T)
  /\ (forall T,
        In T (rawTokens Traversed MacroRanges) ->
        (forall T', In T' (rawTokens Traversed MacroRanges) -> R T' = R T -> T' = T) ->
        In T (collectTokens Traversed MacroRanges))
  /\ (forall T,
        In T (collectTokens Traversed MacroRanges) ->
        In T (rawTokens Traversed MacroRanges)).
Proof.
  split; [|split; [|split]].
  - apply NoDup_map_on.
    + intros X Y HX HY E. apply In_collectTokens in HX as [HX _].
      apply In_collectTokens in HY as [_ HY]. now apply HY.
    + destruct (collectTokens_filter Traversed MacroRanges) as [-> [Hs _]].
      now apply NoDup_filter, StronglySorted_lt_NoDup.
  - intros T T' HT HT' E HK X HX EX.
    apply In_collectTokens in HX as [_ HX].
    apply HK. rewrite (HX T HT), (HX T' HT'); congruence.
  - intros T HT Hu. apply In_collectTokens. auto.
  - intros T HT. now apply In_collectTokens in HT.
Qed.

(** Scenario E of the specification: a macro range and a traversed token
    of the same range and another kind are both removed, a third token
    (pushed twice by the traversal) stays. *)
Lemma C1_collectTokens_witness :
  let V := mkToken Variable_ (mkRange (mkPosition 1 2) (mkPosition 1 5)) in
  let C := mkToken Class_ (mkRange (mkPosition 0 0) (mkPosition 0 3)) in
  let M := mkRange (mkPosition 0 0) (mkPosition 0 3) in
  In V (collectTokens [V; C; V] [M])
  /\ (forall X, In X (collectTokens [V; C; V] [M]) -> R X <> M)
  /\ collectTokens [V; C; V] [M] = [V].
Proof.
  intros V C M.
  destruct (C1_collectTokens_one_token_per_range [V; C; V] [M]) as [_ [H2 [H3 _]]].
  split; [|split].
  - apply H3.
    + cbn. auto.
    + cbn. intros T' [<-|[<-|[<-|[<-|[]]]]] E; try reflexivity; discriminate E.
  - apply (H2 C (mkToken Macro M)).
    + cbn. auto.
    + cbn. auto.
    + reflexivity.
    + discriminate.
  - reflexivity.
Defined.

(** ** Classifier *)

(** Scenario C of the specification and the order of the tests: a static
    method, a method, a constructor, a lambda's class, a parameter, and a
    class template seen through a using-shadow declaration. *)
Example kindForDecl_examples :
  kindForDecl (CXXMethodDecl true) = Some StaticMethod
  /\ kindForDecl (CXXMethodDecl false) = Some Method
  /\ kindForDecl CXXConstructorDecl = Some Class_
  /\ kindForDecl (RecordDecl true) = None
  /\ kindForDecl ParmVarDecl = Some Parameter_
  /\ kindForDecl (UsingShadowDecl (Some (ClassTemplateDecl (Some (RecordDecl false)))))
     = Some Class_
  /\ kindForDecl (TemplateTemplateParmDecl None) = Some TemplateParameter.
Proof. repeat split. Qed.

Lemma kindForCandidateDecls_from_Some (Decls : list NamedDecl)
    (Result : option HighlightingKind) (K : HighlightingKind) :
  kindForCandidateDecls_from Result Decls = Some K
  <-> (forall D, In D Decls -> kindForDecl D = Some K)
      /\ (Decls = [] -> Result = Some K)
      /\ (forall K', Result = Some K' -> K' = K).
Proof.
  revert Result. induction Decls as [|D Decls IH]; intros Result; cbn.
  - split.
    + intros ->. repeat split; try tauto. congruence.
    + intros [_ [H _]]. auto.
  - destruct (kindForDecl D) as [k|] eqn:EK; cbn.
    + destruct Result as [r|]; cbn.
      * destruct (Kind_eqb k r) eqn:E; cbn.
        -- apply Kind_eqb_eq in E as ->. rewrite IH. split.
           ++ intros [H1 [H2 H3]]. assert (r = K) as -> by auto.
              repeat split; try congruence.
              intros D' [<-|HD']; auto.
           ++ intros [H1 [_ H3]]. assert (r = K) as -> by auto.
              repeat split; auto; congruence.
        -- split; [discriminate|].
           intros [H1 [_ H3]]. exfalso.
           assert (r = K) as -> by auto.
           assert (Some k = Some K) as E' by (rewrite <- EK; auto).
           injection E' as ->. now rewrite (proj2 (Kind_eqb_eq K K) eq_refl) in E.
      * rewrite IH. split.
        -- intros [H1 [_ H3]]. assert (k = K) as -> by auto.
           repeat split; try congruence.
           intros D' [<-|HD']; auto.
        -- intros [H1 _].
           assert (Some k = Some K) as E' by (rewrite <- EK; auto).
           injection E' as ->. repeat split; auto; congruence.
    + split; [discriminate|].
      intros [H1 _]. specialize (H1 D (or_introl eq_refl)). congruence.
Qed.

Lemma kindForCandidateDecls_Some (Decls : list NamedDecl) (K : HighlightingKind) :
  Decls <> [] ->
  (kindForCandidateDecls Decls = Some K
   <-> forall D, In D Decls -> kindForDecl D = Some K).
Proof.
  intros Hne. unfold kindForCandidateDecls.
  rewrite kindForCandidateDecls_from_Some. split.
  - tauto.
  - intros H. repeat split; [exact H|tauto|discriminate].
Qed.

Lemma OptKind_eq_dec (A B : option HighlightingKind) : {A = B} + {A <> B}.
Proof. repeat decide equality. Qed.

(** C6: on a non-empty candidate set, [kindForCandidateDecls] returns a
    kind [K] exactly when every candidate classifies to [K]; it returns
    no kind exactly when some candidate is unclassifiable or two
    candidates classify differently. *)
Theorem C6_kindForCandidateDecls_all_same (Decls : list NamedDecl) :
  Decls <> [] ->
  (forall K,
     kindForCandidateDecls Decls = Some K
     <-> forall D, In D Decls -> kindForDecl D = Some K)
  /\ (kindForCandidateDecls Decls = None
      <-> (exists D, In D Decls /\ kindForDecl D = None)
          \/ (exists D1 D2, In D1 Decls /\ In D2 Decls
                            /\ kindForDecl D1 <> kindForDecl D2)).
Proof.
  intros Hne. split; [intros K; now apply kindForCandidateDecls_Some|].
  split.
  - intros HNone.
    destruct Decls as [|D0 Decls]; [congruence|].
    destruct (kindForDecl D0) as [K0|] eqn:E0.
    + right. exists D0.
      destruct (Forall_Exists_dec (fun D => kindForDecl D = Some K0)
                  (fun D => OptKind_eq_dec (kindForDecl D) (Some K0))
                  (D0 :: Decls)) as [Hall|Hex].
      * exfalso. rewrite Forall_forall in Hall.
        apply (kindForCandidateDecls_Some K0 Hne) in Hall. congruence.
      * apply Exists_exists in Hex as [D [HD HK]].
        exists D. repeat split; [now left|exact HD|congruence].
    + left. exists D0. split; [now left|exact E0].
  - intros H. destruct (kindForCandidateDecls Decls) as [K|] eqn:E; [|reflexivity].
    exfalso. rewrite (kindForCandidateDecls_Some K Hne) in E.
    destruct H as [[D [HD HN]]|[D1 [D2 [H1 [H2 Hd]]]]].
    + rewrite (E D HD) in HN. discriminate.
    + apply Hd. now rewrite (E D1 H1), (E D2 H2).
Qed.

(** Scenario B of the specification: two methods give Method, a method
    and a field give no kind. *)
Lemma C6_kindForCandidateDecls_witness :
  kindForCandidateDecls [CXXMethodDecl false; CXXMethodDecl false] = Some Method
  /\ kindForCandidateDecls [CXXMethodDecl false; FieldDecl] = None.
Proof.
  split.
  - apply (proj1 (C6_kindForCandidateDecls_all_same
                    (Decls:=[CXXMethodDecl false; CXXMethodDecl false])
                    ltac:(discriminate))).
    intros D [<-|[<-|[]]]; reflexivity.
  - apply (proj2 (C6_kindForCandidateDecls_all_same
                    (Decls:=[CXXMethodDecl false; FieldDecl])
                    ltac:(discriminate))).
    right. exists (CXXMethodDecl false), FieldDecl.
    repeat split; cbn; auto. discriminate.
Defined.

(** C8: for a typedef or alias declaration [kindForDecl] always returns a
    kind: the kind of the underlying type when that type has one, and
    [Typedef] otherwise.  The same holds when the declaration is reached
    through a using-shadow declaration or an alias template. *)
Theorem C8_kindForDecl_typedef (U : option ClangType) :
  (exists K, kindForDecl (TypedefNameDecl U) = Some K)
  /\ (forall K, underlyingKind U = Some K -> kindForDecl (TypedefNameDecl U) = Some K)
  /\ (underlyingKind U = None -> kindForDecl (TypedefNameDecl U) = Some Typedef)
  /\ kindForDecl (UsingShadowDecl (Some (TypedefNameDecl U)))
     = kindForDecl (TypedefNameDecl U)
  /\ kindForDecl (OtherTemplateDecl (Some (TypedefNameDecl U)))
     = kindForDecl (TypedefNameDecl U).
Proof.
  unfold underlyingKind. cbn [kindForDecl].
  destruct U as [TP|].
  - destruct (kindForType TP) as [K|].
    + repeat split; eauto; congruence.
    + repeat split; eauto; congruence.
  - repeat split; eauto; congruence.
Qed.

Lemma C8_kindForDecl_typedef_witness :
  kindForDecl (TypedefNameDecl (Some BuiltinType)) = Some Primitive
  /\ kindForDecl (TypedefNameDecl (Some (TagType (RecordDecl true)))) = Some Typedef
  /\ kindForDecl (TypedefNameDecl (Some OtherType)) = Some Typedef.
Proof.
  split; [|split].
  - apply (proj1 (proj2 (C8_kindForDecl_typedef (Some BuiltinType)))). reflexivity.
  - apply (proj1 (proj2 (proj2 (C8_kindForDecl_typedef
                                   (Some (TagType (RecordDecl true))))))).
    reflexivity.
  - apply (proj1 (proj2 (proj2 (C8_kindForDecl_typedef (Some OtherType))))).
    reflexivity.
Defined.

(** ** Tree walker *)

(** C7: [addToken] leaves the collector as it is, token vector and error
    log, when the location comes from a macro expansion that is not a
    macro-argument expansion, and when the location, rewritten to its
    spelling position if it is a macro location, lies outside the main
    file.  The visitors that call it return [true]: the traversal goes
    on. *)
Theorem C7_addToken_filtered (AST : ParsedAST) (Loc : SourceLocation AST)
    (K : HighlightingKind) (C : Collector) :
  (isMacroID AST Loc = true /\ isMacroArgExpansion AST Loc = false)
  \/ isInsideMainFile AST (resolvedLoc AST Loc) = false ->
  addToken AST Loc K C = C
  /\ (forall E : OverloadExpr AST, fst (VisitOverloadExpr E C) = true)
  /\ (forall UD : UsingDecl AST, fst (VisitUsingDecl UD C) = true).
Proof.
  intros H. split; [|split; reflexivity].
  unfold addToken, resolvedLoc in *.
  destruct (isInvalid AST Loc); [reflexivity|].
  destruct (isMacroID AST Loc).
  - destruct H as [[_ ->]|H]; [reflexivity|].
    destruct (isMacroArgExpansion AST Loc); cbn; [|reflexivity].
    now rewrite H.
  - destruct H as [[H _]|H]; [discriminate|]. now rewrite H.
Qed.

Lemma C7_addToken_filtered_witness :
  addToken sampleAST (7 : SourceLocation sampleAST) Class_ (mkCollector [] []) = mkCollector [] []
  /\ addToken sampleAST (121 : SourceLocation sampleAST) Class_ (mkCollector [] [])
     = mkCollector [] [].
Proof.
  split.
  - apply (C7_addToken_filtered sampleAST (7 : SourceLocation sampleAST)).
    left. split; reflexivity.
  - apply (C7_addToken_filtered sampleAST (121 : SourceLocation sampleAST)).
    right. reflexivity.
Defined.

(** C9: the empty candidate set has no kind.  So [VisitOverloadExpr] on
    an expression without candidates adds its token, if the name can be
    highlighted, with the kind [DependentName]: when the name location
    is a valid file location inside the main file with a token range,
    exactly that token is appended.  And [VisitUsingDecl] on a
    declaration without shadows leaves the collector unchanged. *)
Theorem C9_empty_candidate_set (AST : ParsedAST) (C : Collector) :
  kindForCandidateDecls [] = None
  /\ (forall E : OverloadExpr AST,
        decls E = [] ->
        VisitOverloadExpr E C
        = (true, if canHighlightName (getName E)
                 then addToken AST (getNameLoc E) DependentName C
                 else C))
  /\ (forall (E : OverloadExpr AST) (Rg : Range),
        decls E = [] ->
        canHighlightName (getName E) = true ->
        isInvalid AST (getNameLoc E) = false ->
        isMacroID AST (getNameLoc E) = false ->
        isInsideMainFile AST (getNameLoc E) = true ->
        getTokenRange AST (getNameLoc E) = Some Rg ->
        VisitOverloadExpr E C
        = (true, mkCollector (CollectedTokens C ++ [mkToken DependentName Rg])
                   (ErrorLog C)))
  /\ (forall UD : UsingDecl AST,
        shadows UD = [] -> VisitUsingDecl UD C = (true, C)).
Proof.
  split; [reflexivity|]. split; [|split].
  - intros E HE. unfold VisitOverloadExpr. now rewrite HE.
  - intros E Rg HE Hn Hv Hm Hi Hr. unfold VisitOverloadExpr, addToken.
    now rewrite HE, Hn, Hv, Hm, Hi, Hr.
  - intros UD HU. unfold VisitUsingDecl. now rewrite HU.
Qed.

Lemma C9_empty_candidate_set_witness :
  VisitOverloadExpr
    (mkOverloadExpr sampleAST (mkName Identifier (Some "f"%string))
       (4 : SourceLocation sampleAST) [])
    (mkCollector [] [])
  = (true,
     mkCollector [mkToken DependentName (mkRange (mkPosition 0 4) (mkPosition 0 5))] [])
  /\ VisitUsingDecl (mkUsingDecl sampleAST (4 : SourceLocation sampleAST) [])
       (mkCollector [] [])
     = (true, mkCollector [] []).
Proof.
  destruct (C9_empty_candidate_set sampleAST (mkCollector [] [])) as [_ [_ [H3 H4]]].
  split.
  - apply (H3 (mkOverloadExpr sampleAST (mkName Identifier (Some "f"%string))
                 (4 : SourceLocation sampleAST) [])); reflexivity.
  - apply (H4 (mkUsingDecl sampleAST (4 : SourceLocation sampleAST) [])). reflexivity.
Defined.

(** ** Diff engine *)

Lemma ArrayRef_eqb_refl (A : list HighlightingToken) : ArrayRef_eqb A A = true.
Proof. now apply ArrayRef_eqb_eq. Qed.

Lemma is_sorted_StronglySorted (Tokens : list HighlightingToken) :
  is_sorted Tokens = true -> StronglySorted Token_le Tokens.
Proof.
  induction Tokens as [|X Tokens IH]; [constructor|].
  cbn [is_sorted]. destruct Tokens as [|Y Tokens].
  - intros _. constructor; constructor.
  - intros H. apply andb_true_iff in H as [HXY Hs].
    apply negb_true_iff in HXY. specialize (IH Hs).
    constructor; [exact IH|].
    constructor; [exact HXY|].
    inversion IH as [|? ? _ HY]; subst.
    rewrite Forall_forall in *. intros Z HZ.
    eapply Token_le_trans; [exact HXY|auto].
Qed.

Lemma is_sorted_lineSorted (Tokens : list HighlightingToken) :
  is_sorted Tokens = true -> lineSorted Tokens.
Proof.
  intros H. apply is_sorted_StronglySorted in H.
  induction H as [|X l Hl IH HX]; constructor; [exact IH|].
  rewrite Forall_forall in *. intros Y HY. now apply Token_le_line, HX.
Qed.

Lemma lineGroup_none (Tokens : list HighlightingToken) (M : Z) :
  Forall (fun T => startLine T <> M) Tokens -> lineGroup Tokens M = [].
Proof.
  intros H. apply filter_none. rewrite Forall_forall in H.
  intros T HT. apply Z.eqb_neq. now apply H.
Qed.

(** What one call of [takeLine] does on a vector in line order whose
    lines are not below [L]: the slice is the group of line [L], and the
    rest holds the groups of the other lines, all of them above [L]. *)
Lemma takeLine_lineGroup (Tokens : list HighlightingToken) (L : Z) :
  lineSorted Tokens ->
  Forall (fun T => L <= startLine T) Tokens ->
  let Rest := drop_front (length (takeLine Tokens L)) Tokens in
  takeLine Tokens L = lineGroup Tokens L
  /\ lineSorted Rest
  /\ Forall (fun T => L < startLine T) Rest
  /\ (forall M, M <> L -> lineGroup Tokens M = lineGroup Rest M)
  /\ (length Rest <= length Tokens)%nat.
Proof.
  unfold takeLine, lineGroup, drop_front.
  induction 1 as [|X l Hl IH HX]; intros Hge; cbn.
  - repeat split; auto; constructor.
  - inversion Hge as [|? ? HXL Hge']; subst. fold (startLine X).
    destruct (startLine X =? L) eqn:E; cbn.
    + destruct (IH Hge') as [H1 [H2 [H3 [H4 H5]]]].
      repeat split; auto.
      * now rewrite H1.
      * intros M HM. apply Z.eqb_eq in E.
        assert ((startLine X =? M) = false) as -> by (apply Z.eqb_neq; lia).
        auto.
    + apply Z.eqb_neq in E.
      assert (Forall (fun T => L < startLine T) (X :: l)) as Hgt.
      { constructor; [lia|]. rewrite Forall_forall in *. intros Y HY.
        specialize (HX Y HY). cbn in HX. lia. }
      repeat split; auto.
      * symmetry. apply (lineGroup_none (Tokens:=l)).
        inversion Hgt as [|? ? _ Hgt']; subst.
        eapply Forall_impl; [|exact Hgt']. cbn. intros; lia.
      * now constructor.
Qed.

(** Taking the line of the first token consumes it. *)
Lemma takeLine_head (T : HighlightingToken) (Tokens : list HighlightingToken) :
  (length (drop_front (length (takeLine (T :: Tokens) (startLine T))) (T :: Tokens))
   <= length Tokens)%nat.
Proof.
  unfold takeLine, drop_front. cbn [take_while]. fold (startLine T).
  rewrite Z.eqb_refl. cbn [length skipn]. rewrite length_skipn. lia.
Qed.

Lemma diffLoop_empty (fuel : nat) (L : Z) (acc : list LineHighlightings) :
  diffLoop fuel L [] [] acc = Some acc.
Proof. destruct fuel; reflexivity. Qed.

(** One iteration of the loop, when a token is left on either side. *)
Lemma diffLoop_step (fuel : nat) (L : Z) (N O : list HighlightingToken)
    (acc : list LineHighlightings) :
  N <> [] \/ O <> [] ->
  diffLoop (S fuel) L N O acc
  = let N' := drop_front (length (takeLine N L)) N in
    let O' := drop_front (length (takeLine O L)) O in
    diffLoop fuel (NextLineNumber N' O') N' O'
      (if negb (ArrayRef_eqb (takeLine N L) (takeLine O L))
       then acc ++ [mkLine L (takeLine N L)] else acc).
Proof.
  intros H. cbn [diffLoop].
  destruct N as [|n N], O as [|o O]; cbn [is_empty negb orb]; try reflexivity.
  destruct H; congruence.
Qed.

Lemma diffLoop_acc (fuel : nat) (L : Z) (N O : list HighlightingToken)
    (acc : list LineHighlightings) :
  diffLoop fuel L N O acc = option_map (app acc) (diffLoop fuel L N O []).
Proof.
  revert L N O acc. induction fuel as [|fuel IH]; intros L N O acc.
  - destruct N, O; cbn; try reflexivity. now rewrite app_nil_r.
  - assert ((N = [] /\ O = []) \/ (N <> [] \/ O <> [])) as [[-> ->]|Hne].
    { destruct N, O; auto; right; (left + right); discriminate. }
    + cbn. now rewrite app_nil_r.
    + rewrite !diffLoop_step by exact Hne. cbn zeta.
      rewrite IH. rewrite (IH _ _ _ (if negb _ then _ else _)).
      destruct (diffLoop fuel _ _ _ []) as [d|]; cbn; [|reflexivity].
      destruct (negb _); cbn; now rewrite ?app_nil_r, <- ?app_assoc.
Qed.

Lemma Forall_drop_front {A} (P : A -> Prop) (n : nat) (l : list A) :
  Forall P l -> Forall P (drop_front n l).
Proof.
  intros H. unfold drop_front. rewrite <- (firstn_skipn n l) in H.
  now apply Forall_app in H.
Qed.

Lemma drop_front_nil {A} (n : nat) : drop_front n (@nil A) = [].
Proof. now destruct n. Qed.

Lemma length_drop_front {A} (n : nat) (l : list A) :
  (length (drop_front n l) <= length l)%nat.
Proof. unfold drop_front. rewrite length_skipn. lia. Qed.

Lemma lineSorted_head (T : HighlightingToken) (Tokens : list HighlightingToken) :
  lineSorted (T :: Tokens) -> Forall (fun X => startLine T <= startLine X) (T :: Tokens).
Proof.
  intros H. inversion H; subst. constructor; [lia|assumption].
Qed.

(** [NextLineNumber] is the least start line that is left; taking that
    line on both sides consumes a token. *)
Lemma NextLineNumber_least (N O : list HighlightingToken) :
  lineSorted N -> lineSorted O -> linesBounded N -> linesBounded O ->
  N <> [] \/ O <> [] ->
  let L := NextLineNumber N O in
  Forall (fun T => L <= startLine T) N
  /\ Forall (fun T => L <= startLine T) O
  /\ (length (drop_front (length (takeLine N L)) N)
      + length (drop_front (length (takeLine O L)) O)
      < length N + length O)%nat
  /\ (forall Lp, Forall (fun T => Lp < startLine T) N ->
                 Forall (fun T => Lp < startLine T) O -> Lp < L).
Proof.
  intros HsN HsO HbN HbO Hne. unfold NextLineNumber.
  destruct N as [|n N], O as [|o O]; [destruct Hne; congruence| | |].
  - fold (startLine o). inversion HbO; subst.
    rewrite Z.min_r by assumption. repeat split; [constructor|now apply lineSorted_head| |].
    + pose proof (takeLine_head o O). rewrite drop_front_nil. cbn [length] in *. lia.
    + intros Lp _ H. now inversion H.
  - fold (startLine n). inversion HbN; subst.
    rewrite Z.min_l by assumption. repeat split; [now apply lineSorted_head|constructor| |].
    + pose proof (takeLine_head n N). rewrite drop_front_nil. cbn [length] in *. lia.
    + intros Lp H _. now inversion H.
  - fold (startLine n) (startLine o).
    apply lineSorted_head in HsN, HsO.
    repeat split.
    + eapply Forall_impl; [|exact HsN]. cbn. intros; lia.
    + eapply Forall_impl; [|exact HsO]. cbn. intros; lia.
    + destruct (Z.min_spec (startLine n) (startLine o)) as [[_ ->]|[_ ->]].
      * pose proof (takeLine_head n N).
        pose proof (length_drop_front (length (takeLine (o :: O) (startLine n))) (o :: O)).
        cbn [length] in *. lia.
      * pose proof (takeLine_head o O).
        pose proof (length_drop_front (length (takeLine (n :: N) (startLine o))) (n :: N)).
        cbn [length] in *. lia.
    + intros Lp H1 H2. inversion H1; inversion H2; subst. lia.
Qed.

(** The effect of the body of the loop at line [L] on the grouping that
    the records pushed so far have produced. *)
Lemma diff_body (L : Z) (N O : list HighlightingToken)
    (g : Z -> list HighlightingToken) :
  lineSorted N -> lineSorted O ->
  Forall (fun T => L <= startLine T) N ->
  Forall (fun T => L <= startLine T) O ->
  (forall M, L <= M -> g M = lineGroup O M) ->
  let N' := drop_front (length (takeLine N L)) N in
  let O' := drop_front (length (takeLine O L)) O in
  let g1 := fold_left overwriteLine
              (if negb (ArrayRef_eqb (takeLine N L) (takeLine O L))
               then [mkLine L (takeLine N L)] else []) g in
  (forall M, L < M -> g1 M = lineGroup O' M)
  /\ forall d',
       (forall M, applyDiff d' g1 M = if L <? M then lineGroup N' M else g1 M) ->
       forall M, applyDiff d' g1 M = if L <=? M then lineGroup N M else g M.
Proof.
  intros HsN HsO HgeN HgeO Hg N' O' g1.
  destruct (takeLine_lineGroup HsN HgeN) as [EN [_ [_ [HN _]]]].
  destruct (takeLine_lineGroup HsO HgeO) as [EO [_ [_ [HO _]]]].
  fold N' in HN. fold O' in HO.
  assert (forall M, M <> L -> g1 M = g M) as Hother.
  { intros M HM. unfold g1. destruct (negb _); cbn; [|reflexivity].
    unfold overwriteLine. cbn. now apply Z.eqb_neq in HM as ->. }
  assert (g1 L = lineGroup N L) as HL.
  { unfold g1. destruct (ArrayRef_eqb _ _) eqn:E; cbn.
    - apply ArrayRef_eqb_eq in E. rewrite Hg by lia. now rewrite <- EO, <- E.
    - unfold overwriteLine. cbn. now rewrite Z.eqb_refl. }
  split.
  - intros M HM. rewrite Hother by lia. rewrite Hg by lia. apply HO. lia.
  - intros d' Hd' M. rewrite Hd'.
    destruct (Z.ltb_spec L M) as [HLM|HLM].
    + rewrite (proj2 (Z.leb_le L M)) by lia. symmetry. apply HN. lia.
    + destruct (Z.leb_spec L M) as [HLM'|HLM'].
      * assert (M = L) as -> by lia. exact HL.
      * apply Hother. lia.
Qed.

(** The loop from a state that an iteration at line [Lp] has left: it
    ends, and its records turn a grouping that agrees with [O] above
    [Lp] into the grouping of [N] above [Lp]. *)
Lemma diffLoop_applyDiff (fuel : nat) :
  forall (N O : list HighlightingToken) (Lp : Z) (g : Z -> list HighlightingToken),
  lineSorted N -> lineSorted O -> linesBounded N -> linesBounded O ->
  Forall (fun T => Lp < startLine T) N ->
  Forall (fun T => Lp < startLine T) O ->
  (length N + length O <= fuel)%nat ->
  (forall M, Lp < M -> g M = lineGroup O M) ->
  exists d,
    diffLoop fuel (NextLineNumber N O) N O [] = Some d
    /\ forall M, applyDiff d g M = if Lp <? M then lineGroup N M else g M.
Proof.
  induction fuel as [|fuel IH]; intros N O Lp g HsN HsO HbN HbO HgtN HgtO Hfuel Hg;
    (assert ((N = [] /\ O = []) \/ (N <> [] \/ O <> [])) as [[-> ->]|Hne];
     [destruct N, O; auto; right; (left + right); discriminate
     |exists []; split; [apply diffLoop_empty|];
      intros M; cbn; destruct (Lp <? M) eqn:E; [apply Z.ltb_lt in E; now apply Hg|reflexivity]
     |]).
  - exfalso. destruct N, O; cbn in Hfuel; try lia. destruct Hne; congruence.
  - destruct (NextLineNumber_least HsN HsO HbN HbO Hne) as [HgeN [HgeO [Hcons HLp]]].
    specialize (HLp Lp HgtN HgtO).
    set (L := NextLineNumber N O) in *.
    rewrite (diffLoop_step fuel L [] Hne). cbn zeta.
    destruct (takeLine_lineGroup HsN HgeN) as [_ [HsN' [HgtN' _]]].
    destruct (takeLine_lineGroup HsO HgeO) as [_ [HsO' [HgtO' _]]].
    assert (forall M, L <= M -> g M = lineGroup O M) as Hg' by (intros; apply Hg; lia).
    destruct (diff_body g HsN HsO HgeN HgeO Hg') as [Hg1 Hconcl].
    set (N' := drop_front (length (takeLine N L)) N) in *.
    set (O' := drop_front (length (takeLine O L)) O) in *.
    destruct (IH N' O' L _ HsN' HsO'
                (Forall_drop_front _ HbN) (Forall_drop_front _ HbO)
                HgtN' HgtO' ltac:(lia) Hg1) as [d' [Hd' Happ]].
    rewrite diffLoop_acc, Hd'. cbn [option_map].
    eexists. split; [reflexivity|].
    intros M. unfold applyDiff. rewrite fold_left_app. cbn [app].
    change (fold_left overwriteLine d' ?h) with (applyDiff d' h).
    rewrite (Hconcl d' Happ M).
    destruct (Z.leb_spec L M) as [HLM|HLM].
    + now rewrite (proj2 (Z.ltb_lt Lp M)) by lia.
    + destruct (Z.ltb_spec Lp M) as [HpM|HpM]; [|reflexivity].
      rewrite Hg by lia.
      rewrite !lineGroup_none; [reflexivity| |].
      * eapply Forall_impl; [|exact HgeN]. cbn. intros; lia.
      * eapply Forall_impl; [|exact HgeO]. cbn. intros; lia.
Qed.

(** C2: for sorted vectors [New] and [Old] of tokens with zero-based start
    lines, [diffHighlightings New Old] returns, and overwriting the
    per-line grouping of [Old] with its records, one after the other,
    gives the per-line grouping of [New] at every line number. *)
Theorem C2_diffHighlightings_complete (New Old : list HighlightingToken) :
  is_sorted New = true -> is_sorted Old = true ->
  linesValid New -> linesValid Old ->
  exists Diffed,
    diffHighlightings New Old = Some Diffed
    /\ forall LineNo, applyDiff Diffed (lineGroup Old) LineNo = lineGroup New LineNo.
Proof.
  intros HsN HsO HvN HvO.
  apply is_sorted_lineSorted in HsN, HsO.
  assert (linesBounded New) as HbN by (eapply Forall_impl; [|exact HvN]; cbn; intros; lia).
  assert (linesBounded Old) as HbO by (eapply Forall_impl; [|exact HvO]; cbn; intros; lia).
  assert (Forall (fun T => 0 <= startLine T) New) as HgeN
    by (eapply Forall_impl; [|exact HvN]; cbn; intros; lia).
  assert (Forall (fun T => 0 <= startLine T) Old) as HgeO
    by (eapply Forall_impl; [|exact HvO]; cbn; intros; lia).
  unfold diffHighlightings.
  assert ((New = [] /\ Old = []) \/ (New <> [] \/ Old <> [])) as [[-> ->]|Hne].
  { destruct New, Old; auto; right; (left + right); discriminate. }
  - exists []. split; reflexivity.
  - rewrite (diffLoop_step _ 0 [] Hne). cbn zeta.
    destruct (takeLine_lineGroup HsN HgeN) as [_ [HsN' [HgtN' [_ HlN]]]].
    destruct (takeLine_lineGroup HsO HgeO) as [_ [HsO' [HgtO' [_ HlO]]]].
    destruct (diff_body (lineGroup Old) HsN HsO HgeN HgeO ltac:(reflexivity))
      as [Hg1 Hconcl].
    set (N' := drop_front (length (takeLine New 0)) New) in *.
    set (O' := drop_front (length (takeLine Old 0)) Old) in *.
    destruct (@diffLoop_applyDiff (length New + length Old) N' O' 0 _ HsN' HsO'
                (Forall_drop_front _ HbN) (Forall_drop_front _ HbO)
                HgtN' HgtO' ltac:(lia) Hg1) as [d' [Hd' Happ]].
    rewrite diffLoop_acc, Hd'. cbn [option_map].
    eexists. split; [reflexivity|].
    intros M. unfold applyDiff. rewrite fold_left_app. cbn [app].
    change (fold_left overwriteLine d' ?h) with (applyDiff d' h).
    rewrite (Hconcl d' Happ M).
    destruct (Z.leb_spec 0 M) as [HM|HM]; [reflexivity|].
    rewrite !lineGroup_none; [reflexivity| |].
    + eapply Forall_impl; [|exact HgeN]. cbn. intros; lia.
    + eapply Forall_impl; [|exact HgeO]. cbn. intros; lia.
Qed.

(** Scenario D of the specification: line 10 had one token and now has
    two; the diff is one record for line 10 with both new tokens. *)
Lemma C2_diffHighlightings_complete_witness :
  let V := mkToken Variable_ (mkRange (mkPosition 10 4) (mkPosition 10 5)) in
  let V' := mkToken Variable_ (mkRange (mkPosition 10 6) (mkPosition 10 7)) in
  let F := mkToken Function_ (mkRange (mkPosition 10 9) (mkPosition 10 12)) in
  let C := mkToken Class_ (mkRange (mkPosition 3 0) (mkPosition 3 2)) in
  diffHighlightings [C; V'; F] [C; V] = Some [mkLine 10 [V'; F]]
  /\ exists Diffed,
       diffHighlightings [C; V'; F] [C; V] = Some Diffed
       /\ forall LineNo,
            applyDiff Diffed (lineGroup [C; V]) LineNo = lineGroup [C; V'; F] LineNo.
Proof.
  intros V V' F C. split; [reflexivity|].
  apply C2_diffHighlightings_complete.
  - reflexivity.
  - reflexivity.
  - unfold linesValid, INT_MAX. repeat constructor; cbn; lia.
  - unfold linesValid, INT_MAX. repeat constructor; cbn; lia.
Defined.

Lemma diffLoop_same (fuel : nat) :
  forall (S0 : list HighlightingToken) (acc : list LineHighlightings),
  (length S0 <= fuel)%nat ->
  diffLoop fuel (NextLineNumber S0 S0) S0 S0 acc = Some acc.
Proof.
  induction fuel as [|fuel IH]; intros [|T S0] acc Hlen;
    try apply diffLoop_empty; cbn [length] in Hlen; [lia|].
  rewrite diffLoop_step by (left; discriminate). cbn zeta.
  rewrite ArrayRef_eqb_refl. cbn [negb].
  apply IH.
  unfold NextLineNumber. rewrite Z.min_id. fold (startLine T).
  pose proof (takeLine_head T S0). lia.
Qed.

(** C4: the diff of a sorted token vector with itself is the empty list
    of changed lines. *)
Theorem C4_diffHighlightings_same (Tokens : list HighlightingToken) :
  is_sorted Tokens = true -> diffHighlightings Tokens Tokens = Some [].
Proof.
  intros _. unfold diffHighlightings.
  destruct Tokens as [|T Tokens]; [reflexivity|].
  rewrite diffLoop_step by (left; discriminate). cbn zeta.
  rewrite ArrayRef_eqb_refl. cbn [negb].
  apply diffLoop_same.
  pose proof (length_drop_front (length (takeLine (T :: Tokens) 0)) (T :: Tokens)).
  lia.
Qed.

Lemma C4_diffHighlightings_same_witness :
  diffHighlightings
    [mkToken Class_ (mkRange (mkPosition 3 0) (mkPosition 3 2));
     mkToken Variable_ (mkRange (mkPosition 10 4) (mkPosition 10 5))]
    [mkToken Class_ (mkRange (mkPosition 3 0) (mkPosition 3 2));
     mkToken Variable_ (mkRange (mkPosition 10 4) (mkPosition 10 5))]
  = Some [].
Proof.
  apply C4_diffHighlightings_same. reflexivity.
Defined.

(** The zero-based hypothesis of C2 is needed: with a start line below
    zero the first iteration, at line 0, takes the tokens of line 0 on
    one side only, and line 0 is visited a second time later. *)
Remark diffHighlightings_negative_line :
  let A := mkToken Variable_ (mkRange (mkPosition 0 2) (mkPosition 0 5)) in
  let B := mkToken Variable_ (mkRange (mkPosition (-1) 2) (mkPosition (-1) 5)) in
  let C := mkToken Class_ (mkRange (mkPosition 0 0) (mkPosition 0 1)) in
  is_sorted [A] = true /\ is_sorted [B; C] = true
  /\ diffHighlightings [A] [B; C]
     = Some [mkLine 0 [A]; mkLine (-1) []; mkLine 0 []].
Proof. repeat split. Qed.

(** ** Wire encoder *)

Lemma to_byte_to_char (b : Z) : to_byte (to_char b) = b mod 256.
Proof.
  unfold to_byte, to_char. destruct (b mod 256 <? 128).
  - apply Z.mod_mod. lia.
  - Z.div_mod_to_equations. lia.
Qed.

Lemma to_uint16_t_to_int (x : Z) : to_uint16_t (to_int x) = x mod 2 ^ 16.
Proof.
  unfold to_uint16_t, to_int.
  change (2 ^ 31) with 2147483648. change (2 ^ 32) with 4294967296.
  change (2 ^ 16) with 65536.
  Z.div_mod_to_equations. lia.
Qed.

Lemma be_bytes_4 (v : Z) :
  be_bytes 4 v = [(v / 16777216) mod 256; (v / 65536) mod 256; (v / 256) mod 256; v mod 256].
Proof.
  unfold be_bytes. cbn [seq rev app map Z.of_nat Pos.of_succ_nat Pos.succ].
  change (256 ^ 3) with 16777216. change (256 ^ 2) with 65536.
  change (256 ^ 1) with 256. change (256 ^ 0) with 1.
  now rewrite Z.div_1_r.
Qed.

Lemma be_bytes_2 (v : Z) : be_bytes 2 v = [(v / 256) mod 256; v mod 256].
Proof.
  unfold be_bytes. cbn [seq rev app map Z.of_nat Pos.of_succ_nat Pos.succ].
  change (256 ^ 1) with 256. change (256 ^ 0) with 1.
  now rewrite Z.div_1_r.
Qed.

Lemma be_value_be_bytes_4 (v : Z) : 0 <= v < 2 ^ 32 -> be_value (be_bytes 4 v) = v.
Proof.
  change (2 ^ 32) with 4294967296. intros H.
  rewrite be_bytes_4. unfold be_value. cbn [fold_left].
  Z.div_mod_to_equations. lia.
Qed.

Lemma be_value_be_bytes_2 (v : Z) : 0 <= v < 2 ^ 16 -> be_value (be_bytes 2 v) = v.
Proof.
  change (2 ^ 16) with 65536. intros H.
  rewrite be_bytes_2. unfold be_value. cbn [fold_left].
  Z.div_mod_to_equations. lia.
Qed.

Lemma map_to_byte_write32be (I : Z) (OS : list Z) :
  map to_byte (write32be I OS) = map to_byte OS ++ be_bytes 4 I.
Proof.
  unfold write32be. rewrite map_app, be_bytes_4. f_equal.
  cbn [map]. rewrite !to_byte_to_char, !Z.shiftr_div_pow2 by lia.
  reflexivity.
Qed.

Lemma map_to_byte_write16be (I : Z) (OS : list Z) :
  map to_byte (write16be I OS) = map to_byte OS ++ be_bytes 2 I.
Proof.
  unfold write16be. rewrite map_app, be_bytes_2. f_equal.
  cbn [map]. rewrite !to_byte_to_char, !Z.shiftr_div_pow2 by lia.
  reflexivity.
Qed.

Lemma ordinal_range (K : HighlightingKind) : 0 <= ordinal K <= 17.
Proof. destruct K; cbn; lia. Qed.

Lemma map_to_byte_writeToken (OS : list Z) (Token : HighlightingToken) :
  map to_byte (writeToken OS Token) = map to_byte OS ++ recordOf Token.
Proof.
  unfold writeToken, recordOf.
  rewrite !map_to_byte_write16be, map_to_byte_write32be, to_uint16_t_to_int.
  unfold to_uint32_t, to_uint16_t.
  rewrite (Z.mod_small (ordinal _)) by (pose proof (ordinal_range (Kind Token)); lia).
  now rewrite <- !app_assoc.
Qed.

Lemma map_to_byte_fold_writeToken (LineTokens : list HighlightingToken) (OS : list Z) :
  map to_byte (fold_left writeToken LineTokens OS)
  = map to_byte OS ++ flat_map recordOf LineTokens.
Proof.
  revert OS. induction LineTokens as [|T l IH]; intros OS; cbn.
  - now rewrite app_nil_r.
  - now rewrite IH, map_to_byte_writeToken, <- app_assoc.
Qed.

Lemma fold_left_push {A B} (f : A -> B) (l : list A) (acc : list B) :
  fold_left (fun Lines x => Lines ++ [f x]) l acc = acc ++ map f l.
Proof.
  revert acc. induction l as [|x l IH]; intros acc; cbn.
  - now rewrite app_nil_r.
  - now rewrite IH, <- app_assoc.
Qed.

Lemma toSemanticHighlightingInformation_map (Lines : list LineHighlightings) :
  toSemanticHighlightingInformation Lines = map encodeLine Lines.
Proof.
  unfold toSemanticHighlightingInformation.
  destruct Lines as [|L Lines]; [reflexivity|].
  cbn [length Nat.eqb]. now rewrite fold_left_push.
Qed.

(** The fields of a record, read back as big-endian numbers. *)
Lemma recordOf_fields (Token : HighlightingToken) :
  length (recordOf Token) = 8%nat
  /\ be_value (firstn 4 (recordOf Token))
     = character (start (R Token)) mod 2 ^ 32
  /\ be_value (firstn 2 (skipn 4 (recordOf Token)))
     = (character (end_ (R Token)) - character (start (R Token))) mod 2 ^ 16
  /\ be_value (skipn 6 (recordOf Token)) = ordinal (Kind Token).
Proof.
  unfold recordOf.
  pose proof (ordinal_range (Kind Token)) as HK.
  pose proof (Z.mod_pos_bound (character (start (R Token))) (2 ^ 32) ltac:(lia)) as H32.
  pose proof (Z.mod_pos_bound
                (character (end_ (R Token)) - character (start (R Token)))
                (2 ^ 16) ltac:(lia)) as H16.
  assert (0 <= ordinal (Kind Token) < 2 ^ 16) as HK16
    by (change (2 ^ 16) with 65536; lia).
  split; [|split; [|split]].
  - rewrite !be_bytes_4, !be_bytes_2. reflexivity.
  - rewrite <- (be_value_be_bytes_4 H32) at 2. rewrite !be_bytes_4. reflexivity.
  - rewrite <- (be_value_be_bytes_2 H16) at 2. rewrite !be_bytes_4, !be_bytes_2.
    reflexivity.
  - rewrite <- (be_value_be_bytes_2 HK16) at 2. rewrite !be_bytes_4, !be_bytes_2.
    reflexivity.
Qed.

(** X28: the byte buffer that the encoder fills for a line, before it is
    turned into base64, holds the records of the line's tokens one after
    the other: eight bytes per token, the start column in four bytes, the
    length (end column minus start column, modulo 2^16) in two and the
    kind ordinal in two, each with the most significant byte first; a
    column that is a non-negative [int] and a length below 2^16 are read
    back from these bytes unchanged. *)
Theorem X28_line_buffer_records :
  (forall LineTokens,
     map to_byte (LineByteTokens_of LineTokens) = flat_map recordOf LineTokens)
  /\ (forall Token,
        length (recordOf Token) = 8%nat
        /\ be_value (firstn 4 (recordOf Token))
           = character (start (R Token)) mod 2 ^ 32
        /\ be_value (firstn 2 (skipn 4 (recordOf Token)))
           = (character (end_ (R Token)) - character (start (R Token))) mod 2 ^ 16
        /\ be_value (skipn 6 (recordOf Token)) = ordinal (Kind Token))
  /\ (forall Token,
        0 <= character (start (R Token)) <= INT_MAX ->
        0 <= character (end_ (R Token)) - character (start (R Token)) < 2 ^ 16 ->
        be_value (firstn 4 (recordOf Token)) = character (start (R Token))
        /\ be_value (firstn 2 (skipn 4 (recordOf Token)))
           = character (end_ (R Token)) - character (start (R Token))).
Proof.
  pose proof recordOf_fields as Hrec.
  split; [|split; [exact Hrec|]].
  - intros LineTokens. unfold LineByteTokens_of.
    now rewrite map_to_byte_fold_writeToken.
  - intros Token Hc Hl. destruct (Hrec Token) as [_ [H1 [H2 _]]].
    rewrite H1, H2. unfold INT_MAX in Hc.
    rewrite !Z.mod_small; [auto|lia|change (2 ^ 32) with 4294967296; lia].
Qed.

Lemma X28_line_buffer_records_witness :
  let T := mkToken Function_ (mkRange (mkPosition 3 130) (mkPosition 3 133)) in
  map to_byte (LineByteTokens_of [T]) = [0; 0; 0; 130; 0; 3; 0; 3]
  /\ be_value (firstn 4 (recordOf T)) = 130
  /\ be_value (firstn 2 (skipn 4 (recordOf T))) = 3.
Proof.
  intros T.
  destruct X28_line_buffer_records as [H1 [_ H3]].
  split.
  - rewrite (H1 [T]). reflexivity.
  - apply (H3 T).
    + unfold INT_MAX. cbn. lia.
    + cbn. lia.
Defined.

(** C5: what the encoder emits for a line is not always the records of
    the line's tokens.  On a line with a token at columns 4 to 5 and a
    token at columns 130 to 133 the buffer holds the two records, with
    the bytes 00 00 00 82 for the second start column, but the payload
    that is returned is the base64 text of other bytes: a reader gets
    00 FF FF 82 there.  The text that [encodeBase64] makes of the buffer
    is at fault: the byte 82 is a negative [char].  The empty input does
    give the empty list. *)
Theorem C5_emitted_record_differs_at_column_130 :
  let Line3 :=
    mkLine 3 [mkToken Variable_ (mkRange (mkPosition 3 4) (mkPosition 3 5));
              mkToken Function_ (mkRange (mkPosition 3 130) (mkPosition 3 133))] in
  flat_map recordOf (Tokens Line3)
  = [0; 0; 0; 4; 0; 1; 0; 0; 0; 0; 0; 130; 0; 3; 0; 3]
  /\ map to_byte (LineByteTokens_of (Tokens Line3)) = flat_map recordOf (Tokens Line3)
  /\ toSemanticHighlightingInformation [Line3] = [mkInfo 3 "AAAABAABAAAA//+CAAMAAw=="]
  /\ decodeBase64 "AAAABAABAAAA//+CAAMAAw=="
     = Some [0; 0; 0; 4; 0; 1; 0; 0; 0; 255; 255; 130; 0; 3; 0; 3]
  /\ decodeBase64 "AAAABAABAAAAAACCAAMAAw==" = Some (flat_map recordOf (Tokens Line3))
  /\ toSemanticHighlightingInformation [] = [].
Proof. repeat split. Qed.

(** C10: the two bytes of the length field spell the difference of the
    end column and the start column modulo 2^16.  For a token that ends
    on a later line in a column before its start column the difference
    is negative, and the field holds it increased by 2^16. *)
Theorem C10_length_field_wraps (Token : HighlightingToken) (OS : list Z) :
  let Written := skipn (length OS) (map to_byte (writeToken OS Token)) in
  be_value (firstn 2 (skipn 4 Written))
  = (character (end_ (R Token)) - character (start (R Token))) mod 2 ^ 16
  /\ (character (end_ (R Token)) < character (start (R Token)) ->
      character (start (R Token)) - character (end_ (R Token)) <= 2 ^ 16 ->
      be_value (firstn 2 (skipn 4 Written))
      = character (end_ (R Token)) - character (start (R Token)) + 2 ^ 16).
Proof.
  intros Written.
  assert (Written = recordOf Token) as ->.
  { unfold Written. rewrite map_to_byte_writeToken.
    rewrite <- (length_map to_byte OS), skipn_app, Nat.sub_diag, skipn_all.
    reflexivity. }
  destruct (recordOf_fields Token) as [_ [_ [-> _]]].
  split; [reflexivity|].
  change (2 ^ 16) with 65536. intros H1 H2.
  Z.div_mod_to_equations. lia.
Qed.

(** A token from line 3, column 10 to line 4, column 2: the length field
    holds 65528. *)
Lemma C10_length_field_wraps_witness :
  let T := mkToken Macro (mkRange (mkPosition 3 10) (mkPosition 4 2)) in
  be_value (firstn 2 (skipn 4 (skipn 0 (map to_byte (writeToken [] T))))) = 65528.
Proof.
  intros T.
  apply (proj2 (C10_length_field_wraps T [])).
  - cbn. lia.
  - cbn. lia.
Defined.

(** C3: the round trip fails on a line with a second token at column
    130.  The low byte of that column is the third [char] of a group of
    the base64 loop; it is negative, and adding it to the group's value
    borrows from the two bytes before it.  The payload of the line
    decodes to the start column 16777090 for the second token. *)
Theorem C3_round_trip_fails_at_column_130 :
  let Line3 :=
    mkLine 3 [mkToken Variable_ (mkRange (mkPosition 3 4) (mkPosition 3 5));
              mkToken Function_ (mkRange (mkPosition 3 130) (mkPosition 3 133))] in
  toSemanticHighlightingInformation [Line3]
  = [mkInfo 3 "AAAABAABAAAA//+CAAMAAw=="]
  /\ decodePayload "AAAABAABAAAA//+CAAMAAw==" = Some [(4, 1, 0); (16777090, 3, 3)]
  /\ map tokenTriple (Tokens Line3) = [(4, 1, 0); (130, 3, 3)]
  /\ decodePayload "AAAABAABAAAAAACCAAMAAw==" = Some (map tokenTriple (Tokens Line3)).
Proof. repeat split. Qed.

(** *** Where the encoder is right: seven-bit data

    A [char] below 128 is its own byte, and on a buffer of such [char]s
    [encodeBase64] is standard base64. *)

Lemma Table_at_value (i : Z) :
  0 <= i < 64 ->
  base64_value (Table_at i) = Some i /\ Ascii.eqb (Table_at i) "=" = false.
Proof.
  intros H.
  assert (exists n, i = Z.of_nat n /\ (n < 64)%nat) as [n [-> Hn]]
    by (exists (Z.to_nat i); lia).
  clear H.
  do 64 (destruct n as [|n]; [split; reflexivity|]).
  lia.
Qed.

Lemma land_63 (x : Z) : 0 <= x -> Z.land x 63 = x mod 64.
Proof.
  intros H. change 63 with (Z.ones 6). now rewrite Z.land_ones by lia.
Qed.

(** The four table indices of a group of three seven-bit [char]s. *)
Lemma group_indices (b0 b1 b2 : Z) :
  0 <= b0 < 128 -> 0 <= b1 < 128 -> 0 <= b2 < 128 ->
  let X := to_uint32_t (to_int (to_int (Z.shiftl b0 16 + Z.shiftl b1 8) + b2)) in
  Z.land (Z.shiftr X 18) 63 = b0 / 4
  /\ Z.land (Z.shiftr X 12) 63 = (b0 mod 4) * 16 + b1 / 16
  /\ Z.land (Z.shiftr X 6) 63 = (b1 mod 16) * 4 + b2 / 64
  /\ Z.land X 63 = b2 mod 64.
Proof.
  intros H0 H1 H2 X.
  assert (X = b0 * 65536 + b1 * 256 + b2) as ->.
  { unfold X, to_uint32_t, to_int. rewrite !Z.shiftl_mul_pow2 by lia.
    change (2 ^ 16) with 65536. change (2 ^ 8) with 256.
    change (2 ^ 31) with 2147483648. change (2 ^ 32) with 4294967296.
    rewrite (Z.mod_small (b0 * 65536 + b1 * 256 + 2147483648)) by lia.
    replace (b0 * 65536 + b1 * 256 + 2147483648 - 2147483648 + b2 + 2147483648)
      with (b0 * 65536 + b1 * 256 + b2 + 2147483648) by lia.
    rewrite (Z.mod_small (b0 * 65536 + b1 * 256 + b2 + 2147483648)) by lia.
    rewrite Z.mod_small by lia. lia. }
  rewrite !Z.shiftr_div_pow2 by lia.
  change (2 ^ 18) with 262144. change (2 ^ 12) with 4096. change (2 ^ 6) with 64.
  rewrite !land_63 by (try apply Z.div_pos; lia).
  repeat split; Z.div_mod_to_equations; lia.
Qed.

Lemma decodeBase64_group (c0 c1 c2 c3 : ascii) (v0 v1 v2 v3 : Z) (s : string) :
  base64_value c0 = Some v0 -> base64_value c1 = Some v1 ->
  base64_value c2 = Some v2 -> base64_value c3 = Some v3 ->
  Ascii.eqb c2 "=" = false -> Ascii.eqb c3 "=" = false ->
  decodeBase64 (String c0 (String c1 (String c2 (String c3 s))))
  = option_map
      (fun bytes =>
         v0 * 4 + v1 / 16 :: (v1 mod 16) * 16 + v2 / 4 :: (v2 mod 4) * 64 + v3 :: bytes)
      (decodeBase64 s).
Proof.
  intros E0 E1 E2 E3 N2 N3. cbn [decodeBase64].
  rewrite E0, E1, E2, E3, N2, N3.
  now destruct (decodeBase64 s).
Qed.

Lemma list_ind3 {A} (P : list A -> Prop) :
  P [] -> (forall a, P [a]) -> (forall a b, P [a; b]) ->
  (forall a b c l, P l -> P (a :: b :: c :: l)) ->
  forall l, P l.
Proof.
  intros H0 H1 H2 H3 l.
  assert (P l /\ (forall a, P (a :: l)) /\ (forall a b, P (a :: b :: l))) as [H _].
  { induction l as [|x l [IH0 [IH1 IH2]]]; auto. }
  exact H.
Qed.

Lemma encodeBase64_round_trip_7bit (Bytes : list Z) :
  Forall (fun c => 0 <= c < 128) Bytes ->
  decodeBase64 (encodeBase64 Bytes) = Some Bytes.
Proof.
  induction Bytes as [|b0|b0 b1|b0 b1 b2 Bytes IH] using list_ind3; intros H.
  - reflexivity.
  - inversion H as [|? ? H0 _]; subst.
    pose proof (group_indices H0 (b1:=0) (b2:=0) ltac:(lia) ltac:(lia)) as [I0 [I1 _]].
    cbn [encodeBase64].
    replace (to_uint32_t (Z.shiftl b0 16))
      with (to_uint32_t (to_int (to_int (Z.shiftl b0 16 + Z.shiftl 0 8) + 0))).
    2:{ unfold to_uint32_t, to_int. rewrite !Z.shiftl_mul_pow2 by lia.
        change (2 ^ 16) with 65536. change (2 ^ 31) with 2147483648.
        change (2 ^ 32) with 4294967296. change (2 ^ 8) with 256.
        Z.div_mod_to_equations. lia. }
    cbn zeta in I0, I1. rewrite I0, I1.
    destruct (Table_at_value (i:=b0 / 4)) as [E0 _]; [Z.div_mod_to_equations; lia|].
    destruct (Table_at_value (i:=b0 mod 4 * 16 + 0 / 16)) as [E1 _];
      [Z.div_mod_to_equations; lia|].
    cbn [decodeBase64]. rewrite E0, E1. cbn.
    do 2 f_equal. Z.div_mod_to_equations. lia.
  - inversion H as [|? ? H0 H']; subst. inversion H' as [|? ? H1 _]; subst.
    pose proof (group_indices H0 H1 (b2:=0) ltac:(lia)) as [I0 [I1 [I2 _]]].
    cbn [encodeBase64].
    replace (to_uint32_t (to_int (Z.shiftl b0 16 + Z.shiftl b1 8)))
      with (to_uint32_t (to_int (to_int (Z.shiftl b0 16 + Z.shiftl b1 8) + 0))).
    2:{ unfold to_uint32_t, to_int. rewrite !Z.shiftl_mul_pow2 by lia.
        change (2 ^ 16) with 65536. change (2 ^ 31) with 2147483648.
        change (2 ^ 32) with 4294967296. change (2 ^ 8) with 256.
        Z.div_mod_to_equations. lia. }
    cbn zeta in I0, I1, I2. rewrite I0, I1, I2.
    destruct (Table_at_value (i:=b0 / 4)) as [E0 _]; [Z.div_mod_to_equations; lia|].
    destruct (Table_at_value (i:=b0 mod 4 * 16 + b1 / 16)) as [E1 _];
      [Z.div_mod_to_equations; lia|].
    destruct (Table_at_value (i:=b1 mod 16 * 4 + 0 / 64)) as [E2 N2];
      [Z.div_mod_to_equations; lia|].
    cbn [decodeBase64]. rewrite E0, E1, E2, N2. cbn.
    do 2 f_equal; [|f_equal]; Z.div_mod_to_equations; lia.
  - inversion H as [|? ? H0 H']; subst. inversion H' as [|? ? H1 H'']; subst.
    inversion H'' as [|? ? H2 Hrest]; subst.
    pose proof (group_indices H0 H1 H2) as [I0 [I1 [I2 I3]]].
    cbn [encodeBase64]. cbn zeta in I0, I1, I2, I3. rewrite I0, I1, I2, I3.
    destruct (Table_at_value (i:=b0 / 4)) as [E0 _]; [Z.div_mod_to_equations; lia|].
    destruct (Table_at_value (i:=b0 mod 4 * 16 + b1 / 16)) as [E1 _];
      [Z.div_mod_to_equations; lia|].
    destruct (Table_at_value (i:=b1 mod 16 * 4 + b2 / 64)) as [E2 N2];
      [Z.div_mod_to_equations; lia|].
    destruct (Table_at_value (i:=b2 mod 64)) as [E3 N3]; [Z.div_mod_to_equations; lia|].
    rewrite (@decodeBase64_group _ _ _ _ _ _ _ _ _ E0 E1 E2 E3 N2 N3), (IH Hrest).
    cbn [option_map].
    do 2 f_equal; [|f_equal; [|f_equal]]; Z.div_mod_to_equations; lia.
Qed.

Lemma to_char_small (b : Z) : 0 <= b < 128 -> to_char b = b.
Proof.
  intros H. unfold to_char. rewrite Z.mod_small by lia.
  now rewrite (proj2 (Z.ltb_lt b 128)) by lia.
Qed.

Lemma writeToken_sevenBit (OS : list Z) (Token : HighlightingToken) :
  sevenBit Token ->
  writeToken OS Token
  = OS ++ [0; 0; 0; character (start (R Token));
           0; character (end_ (R Token)) - character (start (R Token));
           0; ordinal (Kind Token)].
Proof.
  intros [Hc Hl]. pose proof (ordinal_range (Kind Token)) as HK.
  unfold writeToken, write32be, write16be.
  rewrite to_uint16_t_to_int. unfold to_uint32_t, to_uint16_t.
  change (2 ^ 32) with 4294967296. change (2 ^ 16) with 65536.
  rewrite !Z.mod_small by lia.
  rewrite !Z.shiftr_div_pow2 by lia.
  change (2 ^ 24) with 16777216. change (2 ^ 16) with 65536. change (2 ^ 8) with 256.
  rewrite !Z.div_small by lia.
  cbn [map]. rewrite !to_char_small by lia.
  now rewrite <- !app_assoc.
Qed.

Lemma writeToken_app (OS : list Z) (Token : HighlightingToken) :
  writeToken OS Token = OS ++ writeToken [] Token.
Proof.
  unfold writeToken, write32be, write16be. cbn [app].
  now rewrite <- !app_assoc.
Qed.

Lemma LineByteTokens_flat_map (LineTokens : list HighlightingToken) :
  LineByteTokens_of LineTokens = flat_map (writeToken []) LineTokens.
Proof.
  unfold LineByteTokens_of.
  assert (forall OS, fold_left writeToken LineTokens OS
                     = OS ++ flat_map (writeToken []) LineTokens) as H.
  { induction LineTokens as [|T l IH]; intros OS; cbn [fold_left flat_map].
    - now rewrite app_nil_r.
    - now rewrite IH, writeToken_app, <- app_assoc. }
  apply H.
Qed.

Lemma LineByteTokens_sevenBit (LineTokens : list HighlightingToken) :
  Forall sevenBit LineTokens ->
  Forall (fun c => 0 <= c < 128) (LineByteTokens_of LineTokens)
  /\ decodeRecords (LineByteTokens_of LineTokens) = Some (map tokenTriple LineTokens).
Proof.
  rewrite LineByteTokens_flat_map.
  induction 1 as [|T l HT Hl [IH1 IH2]]; cbn [flat_map map].
  - split; [constructor|reflexivity].
  - rewrite writeToken_sevenBit by exact HT. cbn [app].
    pose proof (ordinal_range (Kind T)) as HK. destruct HT as [Hc Hlen].
    split.
    + repeat (constructor; [lia|]). exact IH1.
    + cbn [decodeRecords]. rewrite IH2. unfold tokenTriple, be_value.
      cbn [fold_left]. repeat f_equal; lia.
Qed.

(** On a line whose tokens have start columns and lengths below 128 the
    payload decodes to the triples of the tokens, in order. *)
Lemma wire_round_trip_sevenBit (Line' : LineHighlightings) :
  Forall sevenBit (Tokens Line') ->
  decodePayload (InfoTokens (encodeLine Line')) = Some (map tokenTriple (Tokens Line')).
Proof.
  intros H. destruct (LineByteTokens_sevenBit H) as [H1 H2].
  unfold decodePayload, encodeLine. cbn [InfoTokens].
  now rewrite (encodeBase64_round_trip_7bit H1).
Qed.

(* ===================================================================== *)
(** * Further properties of the code *)
(* ===================================================================== *)

(** ** The order of the tokens and the collector *)

(** X1: [operator<] and [operator==] of the tokens fit together as
    [llvm::sort], [std::unique] and [std::is_sorted] need: of two tokens
    exactly one is less, or they are equal; and [operator<] is
    transitive. *)
Theorem X1_Token_order_trichotomy :
  (forall A B,
     (Token_ltb A B = true /\ Token_eqb A B = false /\ Token_ltb B A = false)
     \/ (Token_ltb A B = false /\ Token_eqb A B = true /\ Token_ltb B A = false)
     \/ (Token_ltb A B = false /\ Token_eqb A B = false /\ Token_ltb B A = true))
  /\ (forall A B C,
        Token_ltb A B = true -> Token_ltb B C = true -> Token_ltb A C = true).
Proof.
  split; [|apply (st_trans Token_ltb_StrictTotal)].
  intros A B.
  destruct (Token_ltb A B) eqn:EAB, (Token_ltb B A) eqn:EBA.
  - exfalso. apply (Token_lt_irrefl (A:=A)). eapply Token_lt_trans; eassumption.
  - left. repeat split. apply not_true_is_false. intros E.
    apply Token_eqb_eq in E as ->.
    now rewrite (st_irrefl Token_ltb_StrictTotal) in EAB.
  - right. right. repeat split. apply not_true_is_false. intros E.
    apply Token_eqb_eq in E as ->.
    now rewrite (st_irrefl Token_ltb_StrictTotal) in EBA.
  - right. left. repeat split. apply Token_eqb_eq.
    now apply (st_total Token_ltb_StrictTotal).
Qed.

Lemma X1_Token_order_trichotomy_witness :
  Token_ltb (mkToken Class_ (mkRange (mkPosition 0 0) (mkPosition 0 3)))
            (mkToken Field (mkRange (mkPosition 1 2) (mkPosition 1 5))) = true.
Proof.
  apply (proj2 X1_Token_order_trichotomy) with
    (B := mkToken Macro (mkRange (mkPosition 0 0) (mkPosition 0 3)));
    reflexivity.
Defined.

Lemma StronglySorted_filter {A} (Rel : A -> A -> Prop) (f : A -> bool) (l : list A) :
  StronglySorted Rel l -> StronglySorted Rel (filter f l).
Proof.
  induction 1 as [|x l Hl IH Hx]; cbn; [constructor|].
  destruct (f x); [|exact IH].
  constructor; [exact IH|].
  rewrite Forall_forall in *. intros y Hy. apply filter_In in Hy as [Hy _]. auto.
Qed.

Lemma StronglySorted_lt_le (l : list HighlightingToken) :
  StronglySorted Token_lt l -> StronglySorted Token_le l.
Proof.
  induction 1 as [|x l Hl IH Hx]; constructor; [exact IH|].
  eapply Forall_impl; [|exact Hx]. intros y. apply Token_lt_le.
Qed.

Lemma StronglySorted_le_is_sorted (l : list HighlightingToken) :
  StronglySorted Token_le l -> is_sorted l = true.
Proof.
  induction 1 as [|x l Hl IH Hx]; [reflexivity|].
  cbn [is_sorted]. destruct l as [|y l]; [reflexivity|].
  inversion Hx as [|? ? Hxy _]; subst.
  unfold Token_le in Hxy. now rewrite Hxy, IH.
Qed.

Lemma sort_of_sorted (l : list HighlightingToken) :
  StronglySorted Token_le l -> sort l = l.
Proof.
  intros H. symmetry. apply sort_is_the_sorted_vector; [reflexivity|exact H].
Qed.

Lemma unique_after_strict (K : HighlightingToken) (l : list HighlightingToken) :
  StronglySorted Token_lt (K :: l) -> unique_after K l = l.
Proof.
  revert K. induction l as [|Y l IH]; intros K H; [reflexivity|].
  inversion H as [|? ? Hl HK]; subst. inversion HK as [|? ? HKY _]; subst.
  cbn [unique_after].
  assert (Token_eqb K Y = false) as ->.
  { apply not_true_is_false. intros E. apply Token_eqb_eq in E as ->.
    now apply Token_lt_irrefl in HKY. }
  now rewrite IH.
Qed.

Lemma unique_of_strict (l : list HighlightingToken) :
  StronglySorted Token_lt l -> unique l = l.
Proof.
  destruct l as [|K l]; [reflexivity|]. intros H. cbn [unique].
  now rewrite unique_after_strict.
Qed.

(** Two vectors in strict order with the same tokens are the same. *)
Lemma strict_same_tokens_eq (l l' : list HighlightingToken) :
  StronglySorted Token_lt l -> StronglySorted Token_lt l' ->
  (forall T, In T l <-> In T l') -> l = l'.
Proof.
  intros Hl Hl' HIn.
  apply sorted_Permutation_eq; try now apply StronglySorted_lt_le.
  apply NoDup_Permutation; try now apply StronglySorted_lt_NoDup.
  exact HIn.
Qed.

Lemma collectTokens_strict (Traversed : list HighlightingToken) (MacroRanges : list Range) :
  StronglySorted Token_lt (collectTokens Traversed MacroRanges).
Proof.
  destruct (collectTokens_filter Traversed MacroRanges) as [E [Hs _]].
  rewrite E. now apply StronglySorted_filter.
Qed.

(** X2: the vector that [collectTokens] returns is canonical: in strict
    canonical order, with no range twice.  So it passes the [is_sorted]
    assertions of [diffHighlightings]. *)
Theorem X2_collectTokens_canonical
    (Traversed : list HighlightingToken) (MacroRanges : list Range) :
  canonical (collectTokens Traversed MacroRanges)
  /\ is_sorted (collectTokens Traversed MacroRanges) = true.
Proof.
  pose proof (collectTokens_strict Traversed MacroRanges) as Hout.
  split; [split; [exact Hout|]|].
  - apply NoDup_map_on; [|now apply StronglySorted_lt_NoDup].
    intros X Y HX HY EXY. apply In_collectTokens in HX as [HX _].
    apply In_collectTokens in HY as [_ HY]. now apply HY.
  - now apply StronglySorted_le_is_sorted, StronglySorted_lt_le.
Qed.

(** X3: [collectTokens] returns a canonical vector as it is: sorting and
    deduplicating an already canonical token set changes nothing. *)
Theorem X3_collectTokens_fixes_canonical (Tokens : list HighlightingToken) :
  canonical Tokens -> collectTokens Tokens [] = Tokens.
Proof.
  intros [Hs Hnd]. unfold collectTokens. cbn [map]. rewrite app_nil_r.
  rewrite (sort_of_sorted (StronglySorted_lt_le Hs)), (unique_of_strict Hs).
  rewrite (removeConflicting_filter Hs).
  apply forallb_filter_id. apply forallb_forall. intros T HT.
  apply uniqueRangeIn_spec. intros T' HT' E.
  clear Hs. induction Tokens as [|X l IH]; [destruct HT|].
  cbn [map] in Hnd. inversion Hnd as [|? ? Hnot Hnd']; subst.
  destruct HT as [->|HT], HT' as [->|HT']; auto.
  - exfalso. apply Hnot. rewrite <- E. now apply in_map.
  - exfalso. apply Hnot. rewrite E. now apply in_map.
Qed.

Lemma X3_collectTokens_fixes_canonical_witness :
  let A := mkToken Class_ (mkRange (mkPosition 0 0) (mkPosition 0 3)) in
  let B := mkToken Field (mkRange (mkPosition 1 2) (mkPosition 1 5)) in
  collectTokens [A; B] [] = [A; B].
Proof.
  intros A B. apply X3_collectTokens_fixes_canonical. split.
  - repeat constructor.
  - repeat constructor; cbn; intuition discriminate.
Defined.

Lemma collectTokens_ext
    (Traversed Traversed' : list HighlightingToken) (MacroRanges MacroRanges' : list Range) :
  (forall T, In T (rawTokens Traversed MacroRanges)
             <-> In T (rawTokens Traversed' MacroRanges')) ->
  collectTokens Traversed MacroRanges = collectTokens Traversed' MacroRanges'.
Proof.
  intros H. unfold collectTokens. fold (rawTokens Traversed MacroRanges).
  fold (rawTokens Traversed' MacroRanges').
  f_equal. apply strict_same_tokens_eq; try apply unique_sorted, sort_sorted.
  intros T. now rewrite !In_unique, !In_sort.
Qed.

(** X4: the result of [collectTokens] depends on the set of raw tokens
    only: neither the order in which the traversal pushes them nor how
    often it pushes one of them changes it. *)
Theorem X4_collectTokens_same_set
    (Traversed Traversed' : list HighlightingToken) (MacroRanges MacroRanges' : list Range) :
  (forall T, In T (rawTokens Traversed MacroRanges)
             <-> In T (rawTokens Traversed' MacroRanges')) ->
  collectTokens Traversed MacroRanges = collectTokens Traversed' MacroRanges'.
Proof. apply collectTokens_ext. Qed.

Lemma X4_collectTokens_same_set_witness :
  let A := mkToken Class_ (mkRange (mkPosition 0 0) (mkPosition 0 3)) in
  let B := mkToken Field (mkRange (mkPosition 1 2) (mkPosition 1 5)) in
  collectTokens [A; B; A] [] = collectTokens [B; A] [].
Proof.
  intros A B. apply X4_collectTokens_same_set.
  intros T. cbn. tauto.
Defined.

(** ** The diff engine: which lines are reported *)

Lemma LineHighlightings_eta (r : LineHighlightings) : r = mkLine (Line r) (Tokens r).
Proof. now destruct r. Qed.

(** One iteration at line [L0] in front of records [d'] that are the
    changed lines of what the iteration leaves. *)
Lemma records_step (L0 : Z) (N O : list HighlightingToken) (d' : list LineHighlightings) :
  lineSorted N -> lineSorted O ->
  Forall (fun T => L0 <= startLine T) N ->
  Forall (fun T => L0 <= startLine T) O ->
  let N' := drop_front (length (takeLine N L0)) N in
  let O' := drop_front (length (takeLine O L0)) O in
  let d := (if negb (ArrayRef_eqb (takeLine N L0) (takeLine O L0))
            then [mkLine L0 (takeLine N L0)] else []) ++ d' in
  changedLines N' O' d' -> (forall r, In r d' -> L0 < Line r) ->
  changedLines N O d /\ (forall r, In r d -> L0 <= Line r).
Proof.
  intros HsN HsO HgeN HgeO N' O' d [Hsorted Hiff] Hlow.
  destruct (takeLine_lineGroup HsN HgeN) as [EN [_ [_ [HN _]]]].
  destruct (takeLine_lineGroup HsO HgeO) as [EO [_ [_ [HO _]]]].
  fold N' in HN. fold O' in HO.
  assert (negb (ArrayRef_eqb (takeLine N L0) (takeLine O L0)) = true
          <-> lineGroup N L0 <> lineGroup O L0) as Hneq.
  { rewrite negb_true_iff, <- not_true_iff_false, ArrayRef_eqb_eq, EN, EO. tauto. }
  split; [split|].
  - unfold d. destruct (negb _); cbn [app map]; [|exact Hsorted].
    constructor; [exact Hsorted|].
    apply Forall_forall. intros L HL. apply in_map_iff in HL as [r [<- Hr]]. auto.
  - intros L ts. unfold d. rewrite in_app_iff, Hiff. split.
    + intros [Hpush|[-> Hd]].
      * destruct (negb _) eqn:E; [|destruct Hpush].
        destruct Hpush as [Hr|[]]. injection Hr as <- <-.
        split; [exact EN|now apply Hneq].
      * assert (L0 < L) as HL.
        { apply (Hlow (mkLine L (lineGroup N' L))). apply Hiff. auto. }
        rewrite (HN L), (HO L) by lia. auto.
    + intros [-> Hd]. destruct (Z.eq_dec L L0) as [->|HL].
      * left. rewrite (proj2 Hneq Hd). left. now rewrite EN.
      * right. rewrite <- (HN L), <- (HO L) by exact HL. auto.
  - intros r Hr. unfold d in Hr. apply in_app_iff in Hr as [Hr|Hr].
    + destruct (negb _); [|destruct Hr]. destruct Hr as [<-|[]]. cbn. lia.
    + specialize (Hlow r Hr). lia.
Qed.

Lemma diffLoop_changedLines (fuel : nat) :
  forall (N O : list HighlightingToken) (Lp : Z),
  lineSorted N -> lineSorted O -> linesBounded N -> linesBounded O ->
  Forall (fun T => Lp < startLine T) N ->
  Forall (fun T => Lp < startLine T) O ->
  (length N + length O <= fuel)%nat ->
  exists d,
    diffLoop fuel (NextLineNumber N O) N O [] = Some d
    /\ changedLines N O d /\ (forall r, In r d -> Lp < Line r).
Proof.
  induction fuel as [|fuel IH]; intros N O Lp HsN HsO HbN HbO HgtN HgtO Hfuel;
    (assert ((N = [] /\ O = []) \/ (N <> [] \/ O <> [])) as [[-> ->]|Hne];
     [destruct N, O; auto; right; (left + right); discriminate
     |exists []; split; [apply diffLoop_empty|];
      split; [split; [constructor|]|intros r []];
      intros L ts; cbn; split; [tauto|intros [_ H]; now apply H]
     |]).
  - exfalso. destruct N, O; cbn in Hfuel; try lia. destruct Hne; congruence.
  - destruct (NextLineNumber_least HsN HsO HbN HbO Hne) as [HgeN [HgeO [Hcons HLp]]].
    specialize (HLp Lp HgtN HgtO).
    set (L := NextLineNumber N O) in *.
    rewrite (diffLoop_step fuel L [] Hne). cbn zeta.
    destruct (takeLine_lineGroup HsN HgeN) as [_ [HsN' [HgtN' _]]].
    destruct (takeLine_lineGroup HsO HgeO) as [_ [HsO' [HgtO' _]]].
    destruct (IH _ _ L HsN' HsO'
                (Forall_drop_front _ HbN) (Forall_drop_front _ HbO)
                HgtN' HgtO' ltac:(lia)) as [d' [Hd' [Hch Hlow]]].
    rewrite diffLoop_acc, Hd'. cbn [option_map app].
    eexists. split; [reflexivity|].
    destruct (records_step HsN HsO HgeN HgeO Hch Hlow) as [H1 H2].
    split; [exact H1|]. intros r Hr. specialize (H2 r Hr). lia.
Qed.

(** The changed lines, for sorted vectors with zero-based start lines. *)
Lemma diffHighlightings_changedLines (New Old : list HighlightingToken) :
  is_sorted New = true -> is_sorted Old = true ->
  linesValid New -> linesValid Old ->
  exists Diffed,
    diffHighlightings New Old = Some Diffed /\ changedLines New Old Diffed.
Proof.
  intros HsN HsO HvN HvO.
  apply is_sorted_lineSorted in HsN, HsO.
  assert (linesBounded New) as HbN by (eapply Forall_impl; [|exact HvN]; cbn; intros; lia).
  assert (linesBounded Old) as HbO by (eapply Forall_impl; [|exact HvO]; cbn; intros; lia).
  assert (Forall (fun T => 0 <= startLine T) New) as HgeN
    by (eapply Forall_impl; [|exact HvN]; cbn; intros; lia).
  assert (Forall (fun T => 0 <= startLine T) Old) as HgeO
    by (eapply Forall_impl; [|exact HvO]; cbn; intros; lia).
  unfold diffHighlightings.
  assert ((New = [] /\ Old = []) \/ (New <> [] \/ Old <> [])) as [[-> ->]|Hne].
  { destruct New, Old; auto; right; (left + right); discriminate. }
  - exists []. split; [reflexivity|]. split; [constructor|].
    intros L ts. cbn. split; [tauto|intros [_ H]; now apply H].
  - rewrite (diffLoop_step _ 0 [] Hne). cbn zeta.
    destruct (takeLine_lineGroup HsN HgeN) as [_ [HsN' [HgtN' [_ HlN]]]].
    destruct (takeLine_lineGroup HsO HgeO) as [_ [HsO' [HgtO' [_ HlO]]]].
    destruct (@diffLoop_changedLines (length New + length Old) _ _ 0 HsN' HsO'
                (Forall_drop_front _ HbN) (Forall_drop_front _ HbO)
                HgtN' HgtO' ltac:(lia)) as [d' [Hd' [Hch Hlow]]].
    rewrite diffLoop_acc, Hd'. cbn [option_map app].
    eexists. split; [reflexivity|].
    now destruct (records_step HsN HsO HgeN HgeO Hch Hlow) as [H1 _].
Qed.

(** X5: for sorted vectors with zero-based start lines the records of
    [diffHighlightings New Old] are exactly the changed lines: a line has
    a record if and only if its tokens in [New] and in [Old] differ, the
    record carries the tokens [New] has on the line, and the records come
    in increasing order of their line numbers, so no line twice. *)
Theorem X5_diffHighlightings_changed_lines (New Old : list HighlightingToken) :
  is_sorted New = true -> is_sorted Old = true ->
  linesValid New -> linesValid Old ->
  exists Diffed,
    diffHighlightings New Old = Some Diffed
    /\ StronglySorted Z.lt (map Line Diffed)
    /\ forall L ts,
         In (mkLine L ts) Diffed
         <-> ts = lineGroup New L /\ lineGroup New L <> lineGroup Old L.
Proof. apply diffHighlightings_changedLines. Qed.

Lemma X5_diffHighlightings_changed_lines_witness :
  let V := mkToken Variable_ (mkRange (mkPosition 10 4) (mkPosition 10 5)) in
  let F := mkToken Function_ (mkRange (mkPosition 12 9) (mkPosition 12 12)) in
  let C := mkToken Class_ (mkRange (mkPosition 3 0) (mkPosition 3 2)) in
  exists Diffed,
    diffHighlightings [C; F] [C; V] = Some Diffed
    /\ StronglySorted Z.lt (map Line Diffed)
    /\ forall L ts,
         In (mkLine L ts) Diffed
         <-> ts = lineGroup [C; F] L /\ lineGroup [C; F] L <> lineGroup [C; V] L.
Proof.
  intros V F C. apply X5_diffHighlightings_changed_lines.
  - reflexivity.
  - reflexivity.
  - unfold linesValid, INT_MAX. repeat constructor; cbn; lia.
  - unfold linesValid, INT_MAX. repeat constructor; cbn; lia.
Defined.

Lemma lineGroup_cons (T : HighlightingToken) (l : list HighlightingToken) (M : Z) :
  lineGroup (T :: l) M = if startLine T =? M then T :: lineGroup l M else lineGroup l M.
Proof. reflexivity. Qed.

Lemma lineGroup_below (T : HighlightingToken) (l : list HighlightingToken) (M : Z) :
  lineSorted (T :: l) -> M < startLine T -> lineGroup (T :: l) M = [].
Proof.
  intros H HM. apply lineSorted_head in H. apply lineGroup_none.
  eapply Forall_impl; [|exact H]. cbn. intros; lia.
Qed.

(** A vector in line order is determined by its per-line grouping. *)
Lemma lineGroups_ext (l l' : list HighlightingToken) :
  lineSorted l -> lineSorted l' ->
  (forall M, lineGroup l M = lineGroup l' M) -> l = l'.
Proof.
  intros Hl. revert l'. induction l as [|x l IH]; intros l' Hl' H.
  - destruct l' as [|y l']; [reflexivity|].
    specialize (H (startLine y)). rewrite lineGroup_cons, Z.eqb_refl in H.
    discriminate H.
  - destruct l' as [|y l'].
    + specialize (H (startLine x)). rewrite lineGroup_cons, Z.eqb_refl in H.
      discriminate H.
    + assert (startLine x = startLine y) as Exy.
      { destruct (Z.lt_trichotomy (startLine x) (startLine y)) as [Hlt|[E|Hlt]];
          [|exact E|].
        - specialize (H (startLine x)).
          rewrite (lineGroup_below Hl' Hlt), lineGroup_cons, Z.eqb_refl in H.
          discriminate H.
        - specialize (H (startLine y)).
          rewrite (lineGroup_below Hl Hlt), lineGroup_cons, Z.eqb_refl in H.
          discriminate H. }
      pose proof (H (startLine x)) as Hx.
      rewrite !lineGroup_cons, <- Exy, Z.eqb_refl in Hx.
      injection Hx as <- Hx.
      f_equal. inversion Hl; inversion Hl'; subst. apply IH; try assumption.
      intros M. specialize (H M). rewrite !lineGroup_cons in H.
      destruct (startLine x =? M) eqn:E; [|exact H].
      apply Z.eqb_eq in E as <-. exact Hx.
Qed.

Lemma list_Token_eq_dec (l l' : list HighlightingToken) : l = l' \/ l <> l'.
Proof.
  destruct (ArrayRef_eqb l l') eqn:E.
  - left. now apply ArrayRef_eqb_eq.
  - right. intros H. apply ArrayRef_eqb_eq in H. congruence.
Qed.

(** X6: for sorted vectors with zero-based start lines the diff is empty
    if and only if the two vectors are equal. *)
Theorem X6_diffHighlightings_empty_iff_equal (New Old : list HighlightingToken) :
  is_sorted New = true -> is_sorted Old = true ->
  linesValid New -> linesValid Old ->
  (diffHighlightings New Old = Some [] <-> New = Old).
Proof.
  intros HsN HsO HvN HvO.
  destruct (diffHighlightings_changedLines HsN HsO HvN HvO) as [d [Hd [_ Hiff]]].
  rewrite Hd. split.
  - intros E. injection E as ->.
    apply lineGroups_ext; try now apply is_sorted_lineSorted.
    intros M. destruct (list_Token_eq_dec (lineGroup New M) (lineGroup Old M)) as [E|E];
      [exact E|].
    exfalso. apply (proj2 (Hiff M (lineGroup New M))). auto.
  - intros ->. f_equal. destruct d as [|r d]; [reflexivity|].
    exfalso. rewrite (LineHighlightings_eta r) in Hiff.
    destruct (proj1 (Hiff (Line r) (Tokens r)) (or_introl eq_refl)) as [_ H].
    now apply H.
Qed.

Lemma X6_diffHighlightings_empty_iff_equal_witness :
  let V := mkToken Variable_ (mkRange (mkPosition 10 4) (mkPosition 10 5)) in
  let C := mkToken Class_ (mkRange (mkPosition 3 0) (mkPosition 3 2)) in
  diffHighlightings [C; V] [C] <> Some [].
Proof.
  intros V C E.
  apply (X6_diffHighlightings_empty_iff_equal (New:=[C; V]) (Old:=[C])) in E.
  - discriminate E.
  - reflexivity.
  - reflexivity.
  - unfold linesValid, INT_MAX. repeat constructor; cbn; lia.
  - unfold linesValid, INT_MAX. repeat constructor; cbn; lia.
Defined.

Lemma ArrayRef_eqb_nil (c : list HighlightingToken) :
  ArrayRef_eqb c [] = match c with [] => true | _ => false end.
Proof. now destruct c. Qed.

Lemma diffLoop_first_snapshot (fuel : nat) :
  forall N : list HighlightingToken,
  linesBounded N -> (length N <= fuel)%nat ->
  exists d,
    diffLoop fuel (NextLineNumber N []) N [] [] = Some d
    /\ flat_map Tokens d = N /\ (forall r, In r d -> Tokens r <> []).
Proof.
  induction fuel as [|fuel IH]; intros [|T N] Hb Hlen;
    try (exists []; split; [apply diffLoop_empty|split; [reflexivity|intros r []]]);
    cbn [length] in Hlen; [lia|].
  rewrite diffLoop_step by (left; discriminate). cbn zeta.
  assert (NextLineNumber (T :: N) [] = startLine T) as ->.
  { unfold NextLineNumber. fold (startLine T). inversion Hb; subst.
    now apply Z.min_l. }
  pose proof (takeLine_head T N) as Hhead.
  assert (takeLine (T :: N) (startLine T)
          ++ drop_front (length (takeLine (T :: N) (startLine T))) (T :: N) = T :: N)
    as Hsplit by apply take_while_drop.
  assert (exists c, takeLine (T :: N) (startLine T) = T :: c) as [c Ec].
  { unfold takeLine. cbn [take_while]. fold (startLine T). rewrite Z.eqb_refl. eauto. }
  rewrite Ec in *. change (takeLine [] (startLine T)) with (@nil HighlightingToken).
  rewrite drop_front_nil. cbn [ArrayRef_eqb negb app].
  destruct (IH (drop_front (length (T :: c)) (T :: N))
              (Forall_drop_front _ Hb) ltac:(lia)) as [d' [Hd' [Hflat Hne]]].
  rewrite diffLoop_acc, Hd'. cbn [option_map app].
  eexists. split; [reflexivity|]. split.
  - cbn [flat_map Tokens]. rewrite Hflat. exact Hsplit.
  - intros r [<-|Hr]; [discriminate|auto].
Qed.

(** X7: against an empty previous snapshot the diff reports every token:
    the token lists of its records, one after the other, are [New], and
    no record is empty. *)
Theorem X7_diffHighlightings_first_snapshot (New : list HighlightingToken) :
  is_sorted New = true -> linesBounded New ->
  exists Diffed,
    diffHighlightings New [] = Some Diffed
    /\ flat_map Tokens Diffed = New
    /\ forall r, In r Diffed -> Tokens r <> [].
Proof.
  intros _ Hb. unfold diffHighlightings.
  destruct New as [|T N]; [exists []; repeat split; intros r []|].
  rewrite diffLoop_step by (left; discriminate). cbn zeta.
  change (takeLine [] 0) with (@nil HighlightingToken). rewrite drop_front_nil.
  assert (takeLine (T :: N) 0
          ++ drop_front (length (takeLine (T :: N) 0)) (T :: N) = T :: N)
    as Hsplit by apply take_while_drop.
  pose proof (length_drop_front (length (takeLine (T :: N) 0)) (T :: N)) as Hlen.
  destruct (@diffLoop_first_snapshot (length (T :: N) + length (@nil HighlightingToken))
              (drop_front (length (takeLine (T :: N) 0)) (T :: N))
              (Forall_drop_front _ Hb) ltac:(lia)) as [d' [Hd' [Hflat Hne]]].
  rewrite diffLoop_acc, Hd'. cbn [option_map app].
  eexists. split; [reflexivity|].
  rewrite ArrayRef_eqb_nil.
  destruct (takeLine (T :: N) 0) as [|x c] eqn:Ec; cbn [negb app].
  - split; [rewrite Hflat; exact Hsplit|exact Hne].
  - split.
    + cbn [flat_map Tokens]. rewrite Hflat. exact Hsplit.
    + intros r [<-|Hr]; [discriminate|auto].
Qed.

Lemma X7_diffHighlightings_first_snapshot_witness :
  let V := mkToken Variable_ (mkRange (mkPosition 10 4) (mkPosition 10 5)) in
  let C := mkToken Class_ (mkRange (mkPosition 3 0) (mkPosition 3 2)) in
  exists Diffed,
    diffHighlightings [C; V] [] = Some Diffed
    /\ flat_map Tokens Diffed = [C; V]
    /\ forall r, In r Diffed -> Tokens r <> [].
Proof.
  intros V C. apply X7_diffHighlightings_first_snapshot.
  - reflexivity.
  - unfold linesBounded, INT_MAX. repeat constructor; cbn; lia.
Defined.

Lemma lineGroup_nonempty (Tokens : list HighlightingToken) (L : Z) :
  lineGroup Tokens L <> [] <-> exists T, In T Tokens /\ startLine T = L.
Proof.
  unfold lineGroup. split.
  - intros H. destruct (filter _ Tokens) as [|T l] eqn:E; [congruence|].
    assert (In T (filter (fun Token => line (start (R Token)) =? L) Tokens)) as HT
      by (rewrite E; now left).
    apply filter_In in HT as [HT HL]. apply Z.eqb_eq in HL. eauto.
  - intros [T [HT HL]] E.
    assert (In T (filter (fun Token => line (start (R Token)) =? L) Tokens)) as HIn
      by (apply filter_In; split; [exact HT|now apply Z.eqb_eq]).
    rewrite E in HIn. destruct HIn.
Qed.

(** X8: when the new vector is empty, the diff has one record for every
    line on which [Old] has a token, and every record has no tokens. *)
Theorem X8_diffHighlightings_all_removed (Old : list HighlightingToken) :
  is_sorted Old = true -> linesValid Old ->
  exists Diffed,
    diffHighlightings [] Old = Some Diffed
    /\ (forall r, In r Diffed -> Tokens r = [])
    /\ (forall L, In L (map Line Diffed) <-> exists T, In T Old /\ startLine T = L).
Proof.
  intros Hs Hv.
  destruct (@diffHighlightings_changedLines [] Old eq_refl Hs (Forall_nil _) Hv)
    as [d [Hd [_ Hiff]]].
  exists d. split; [exact Hd|]. split.
  - intros r Hr. rewrite (LineHighlightings_eta r) in Hr.
    now apply Hiff in Hr as [-> _].
  - intros L. rewrite <- lineGroup_nonempty, in_map_iff. split.
    + intros [r [<- Hr]]. rewrite (LineHighlightings_eta r) in Hr.
      apply Hiff in Hr as [_ Hr]. intros E. apply Hr. now rewrite E.
    + intros H. exists (mkLine L []). split; [reflexivity|].
      apply Hiff. split; [reflexivity|]. intros E. apply H. now rewrite <- E.
Qed.

Lemma X8_diffHighlightings_all_removed_witness :
  let V := mkToken Variable_ (mkRange (mkPosition 10 4) (mkPosition 10 5)) in
  let C := mkToken Class_ (mkRange (mkPosition 3 0) (mkPosition 3 2)) in
  exists Diffed,
    diffHighlightings [] [C; V] = Some Diffed
    /\ (forall r, In r Diffed -> Tokens r = [])
    /\ (forall L, In L (map Line Diffed) <-> exists T, In T [C; V] /\ startLine T = L).
Proof.
  intros V C. apply X8_diffHighlightings_all_removed.
  - reflexivity.
  - unfold linesValid, INT_MAX. repeat constructor; cbn; lia.
Defined.

Lemma increasing_same_elements (l l' : list Z) :
  StronglySorted Z.lt l -> StronglySorted Z.lt l' ->
  (forall x, In x l <-> In x l') -> l = l'.
Proof.
  intros Hl. revert l'. induction Hl as [|x l Hl IH Hx]; intros l' Hl' H.
  - destruct l' as [|y l']; [reflexivity|]. exfalso. apply (H y). now left.
  - destruct Hl' as [|y l' Hl' Hy]; [exfalso; apply (H x); now left|].
    rewrite Forall_forall in Hx, Hy.
    assert (x = y) as ->.
    { destruct (proj1 (H x) (or_introl eq_refl)) as [E|HIn]; [now symmetry|].
      destruct (proj2 (H y) (or_introl eq_refl)) as [E|HIn']; [exact E|].
      specialize (Hx y HIn'). specialize (Hy x HIn). lia. }
    f_equal. apply IH; [exact Hl'|]. intros z. split; intros Hz.
    + destruct (proj1 (H z) (or_intror Hz)) as [<-|HIn]; [|exact HIn].
      specialize (Hx y Hz). lia.
    + destruct (proj2 (H z) (or_intror Hz)) as [<-|HIn]; [|exact HIn].
      specialize (Hy y Hz). lia.
Qed.

Lemma changedLines_lines (New Old : list HighlightingToken) (d : list LineHighlightings) :
  changedLines New Old d ->
  forall L, In L (map Line d) <-> lineGroup New L <> lineGroup Old L.
Proof.
  intros [_ Hiff] L. rewrite in_map_iff. split.
  - intros [r [<- Hr]]. rewrite (LineHighlightings_eta r) in Hr.
    now apply Hiff in Hr.
  - intros H. exists (mkLine L (lineGroup New L)). split; [reflexivity|].
    apply Hiff. auto.
Qed.

(** X9: the diff in one direction and the diff in the other report the
    same line numbers, in the same order. *)
Theorem X9_diffHighlightings_same_lines_both_ways (New Old : list HighlightingToken) :
  is_sorted New = true -> is_sorted Old = true ->
  linesValid New -> linesValid Old ->
  exists Forth Back,
    diffHighlightings New Old = Some Forth
    /\ diffHighlightings Old New = Some Back
    /\ map Line Forth = map Line Back.
Proof.
  intros HsN HsO HvN HvO.
  destruct (diffHighlightings_changedLines HsN HsO HvN HvO) as [d [Hd Hch]].
  destruct (diffHighlightings_changedLines HsO HsN HvO HvN) as [d' [Hd' Hch']].
  exists d, d'. repeat split; try assumption.
  apply increasing_same_elements; [apply Hch|apply Hch'|].
  intros L. rewrite (changedLines_lines Hch), (changedLines_lines Hch').
  split; intros H E; apply H; now symmetry.
Qed.

Lemma X9_diffHighlightings_same_lines_both_ways_witness :
  let V := mkToken Variable_ (mkRange (mkPosition 10 4) (mkPosition 10 5)) in
  let F := mkToken Function_ (mkRange (mkPosition 12 9) (mkPosition 12 12)) in
  exists Forth Back,
    diffHighlightings [V] [F] = Some Forth
    /\ diffHighlightings [F] [V] = Some Back
    /\ map Line Forth = map Line Back.
Proof.
  intros V F. apply X9_diffHighlightings_same_lines_both_ways.
  - reflexivity.
  - reflexivity.
  - unfold linesValid, INT_MAX. repeat constructor; cbn; lia.
  - unfold linesValid, INT_MAX. repeat constructor; cbn; lia.
Defined.

Lemma collectTokens_linesValid (Traversed : list HighlightingToken) (MacroRanges : list Range) :
  linesValid (rawTokens Traversed MacroRanges) ->
  linesValid (collectTokens Traversed MacroRanges).
Proof.
  unfold linesValid. rewrite !Forall_forall. intros H T HT.
  apply H. now apply In_collectTokens in HT.
Qed.

(** X10: two results of [collectTokens] can always be diffed: when the
    raw tokens have zero-based start lines, [diffHighlightings] accepts
    the two results (they are sorted), ends, and its records are the
    lines on which the two results differ, each with the new tokens. *)
Theorem X10_diff_of_collected
    (Traversed Traversed' : list HighlightingToken) (MacroRanges MacroRanges' : list Range) :
  linesValid (rawTokens Traversed MacroRanges) ->
  linesValid (rawTokens Traversed' MacroRanges') ->
  let New := collectTokens Traversed MacroRanges in
  let Old := collectTokens Traversed' MacroRanges' in
  is_sorted New = true /\ is_sorted Old = true
  /\ exists Diffed,
       diffHighlightings New Old = Some Diffed
       /\ (forall L ts,
             In (mkLine L ts) Diffed
             <-> ts = lineGroup New L /\ lineGroup New L <> lineGroup Old L).
Proof.
  intros Hv Hv' New Old.
  assert (is_sorted New = true) as HsN
    by apply StronglySorted_le_is_sorted, StronglySorted_lt_le, collectTokens_strict.
  assert (is_sorted Old = true) as HsO
    by apply StronglySorted_le_is_sorted, StronglySorted_lt_le, collectTokens_strict.
  split; [exact HsN|split; [exact HsO|]].
  destruct (diffHighlightings_changedLines HsN HsO
              (collectTokens_linesValid _ _ Hv) (collectTokens_linesValid _ _ Hv'))
    as [d [Hd [_ Hiff]]].
  eauto.
Qed.

Lemma X10_diff_of_collected_witness :
  let V := mkToken Variable_ (mkRange (mkPosition 10 4) (mkPosition 10 5)) in
  let C := mkToken Class_ (mkRange (mkPosition 3 0) (mkPosition 3 2)) in
  let M := mkRange (mkPosition 3 0) (mkPosition 3 2) in
  exists Diffed,
    diffHighlightings (collectTokens [V; C] [M]) (collectTokens [C; V; C] []) = Some Diffed.
Proof.
  intros V C M.
  destruct (@X10_diff_of_collected [V; C] [C; V; C] [M] [])
    as [_ [_ [Diffed [H _]]]].
  - unfold linesValid, INT_MAX. repeat constructor; cbn; lia.
  - unfold linesValid, INT_MAX. repeat constructor; cbn; lia.
  - exists Diffed. exact H.
Defined.

(** ** The wire encoder: what a reader receives *)

Lemma land_63_mod (x : Z) : Z.land x 63 = x mod 64.
Proof. change 63 with (Z.ones 6). now rewrite Z.land_ones by lia. Qed.

(** The four table indices of any [X], and the three bytes they carry. *)
Lemma sextets_of (X : Z) :
  0 <= X ->
  let i0 := Z.land (Z.shiftr X 18) 63 in
  let i1 := Z.land (Z.shiftr X 12) 63 in
  let i2 := Z.land (Z.shiftr X 6) 63 in
  let i3 := Z.land X 63 in
  (0 <= i0 < 64 /\ 0 <= i1 < 64 /\ 0 <= i2 < 64 /\ 0 <= i3 < 64)
  /\ i0 * 4 + i1 / 16 = (X / 65536) mod 256
  /\ (i1 mod 16) * 16 + i2 / 4 = (X / 256) mod 256
  /\ (i2 mod 4) * 64 + i3 = X mod 256.
Proof.
  intros HX i0 i1 i2 i3. unfold i0, i1, i2, i3.
  rewrite !land_63_mod, !Z.shiftr_div_pow2 by lia.
  change (2 ^ 18) with 262144. change (2 ^ 12) with 4096. change (2 ^ 6) with 64.
  repeat split; Z.div_mod_to_equations; lia.
Qed.

Lemma to_uint32_t_nonneg (x : Z) : 0 <= to_uint32_t x.
Proof. unfold to_uint32_t. apply Z.mod_pos_bound. lia. Qed.

Lemma decode_tail1 (X : Z) :
  0 <= X ->
  decodeBase64
    (String (Table_at (Z.land (Z.shiftr X 18) 63))
       (String (Table_at (Z.land (Z.shiftr X 12) 63)) "=="))
  = Some [(X / 65536) mod 256].
Proof.
  intros HX. destruct (sextets_of HX) as [[R0 [R1 _]] [E0 _]]. cbn zeta in *.
  destruct (Table_at_value R0) as [V0 _]. destruct (Table_at_value R1) as [V1 _].
  rewrite <- E0.
  remember (Z.land (Z.shiftr X 18) 63) as i0.
  remember (Z.land (Z.shiftr X 12) 63) as i1.
  cbn [decodeBase64]. now rewrite V0, V1.
Qed.

Lemma decode_tail2 (X : Z) :
  0 <= X ->
  decodeBase64
    (String (Table_at (Z.land (Z.shiftr X 18) 63))
       (String (Table_at (Z.land (Z.shiftr X 12) 63))
          (String (Table_at (Z.land (Z.shiftr X 6) 63)) "=")))
  = Some [(X / 65536) mod 256; (X / 256) mod 256].
Proof.
  intros HX. destruct (sextets_of HX) as [[R0 [R1 [R2 _]]] [E0 [E1 _]]].
  cbn zeta in *.
  destruct (Table_at_value R0) as [V0 _]. destruct (Table_at_value R1) as [V1 _].
  destruct (Table_at_value R2) as [V2 N2].
  rewrite <- E0, <- E1.
  remember (Z.land (Z.shiftr X 18) 63) as i0.
  remember (Z.land (Z.shiftr X 12) 63) as i1.
  remember (Z.land (Z.shiftr X 6) 63) as i2.
  cbn [decodeBase64]. now rewrite V0, V1, V2, N2.
Qed.

Lemma decode_group3 (X : Z) (s : string) :
  0 <= X ->
  decodeBase64
    (String (Table_at (Z.land (Z.shiftr X 18) 63))
       (String (Table_at (Z.land (Z.shiftr X 12) 63))
          (String (Table_at (Z.land (Z.shiftr X 6) 63))
             (String (Table_at (Z.land X 63)) s))))
  = option_map
      (fun bytes => (X / 65536) mod 256 :: (X / 256) mod 256 :: X mod 256 :: bytes)
      (decodeBase64 s).
Proof.
  intros HX. destruct (sextets_of HX) as [[R0 [R1 [R2 R3]]] [E0 [E1 E2]]].
  cbn zeta in *.
  destruct (Table_at_value R0) as [V0 _]. destruct (Table_at_value R1) as [V1 _].
  destruct (Table_at_value R2) as [V2 N2]. destruct (Table_at_value R3) as [V3 N3].
  rewrite (@decodeBase64_group _ _ _ _ _ _ _ _ _ V0 V1 V2 V3 N2 N3).
  now rewrite E0, E1, E2.
Qed.

Lemma encodeBase64_received (Bytes : list Z) :
  decodeBase64 (encodeBase64 Bytes) = Some (receivedBytes Bytes).
Proof.
  induction Bytes as [|b0|b0 b1|b0 b1 b2 Bytes IH] using list_ind3.
  - reflexivity.
  - apply decode_tail1, to_uint32_t_nonneg.
  - apply decode_tail2, to_uint32_t_nonneg.
  - cbn [encodeBase64 receivedBytes]. cbn zeta.
    rewrite decode_group3 by apply to_uint32_t_nonneg.
    now rewrite IH.
Qed.

Lemma length_receivedBytes (Bytes : list Z) :
  length (receivedBytes Bytes) = length Bytes.
Proof.
  induction Bytes as [|b0|b0 b1|b0 b1 b2 Bytes IH] using list_ind3;
    cbn [receivedBytes length]; congruence.
Qed.

Lemma receivedBytes_range (Bytes : list Z) :
  Forall (fun b => 0 <= b < 256) (receivedBytes Bytes).
Proof.
  induction Bytes as [|b0|b0 b1|b0 b1 b2 Bytes IH] using list_ind3;
    cbn [receivedBytes]; repeat constructor; try exact IH;
    apply Z.mod_pos_bound; lia.
Qed.

(** X11: whatever the buffer holds, [encodeBase64] writes well-formed
    base64 with padding: a standard decoder accepts it and gets as many
    bytes as the buffer has, each the low byte-triple of its group's
    [X]. *)
Theorem X11_encodeBase64_well_formed (Bytes : list Z) :
  decodeBase64 (encodeBase64 Bytes) = Some (receivedBytes Bytes)
  /\ length (receivedBytes Bytes) = length Bytes
  /\ Forall (fun b => 0 <= b < 256) (receivedBytes Bytes).
Proof.
  split; [apply encodeBase64_received|].
  split; [apply length_receivedBytes|apply receivedBytes_range].
Qed.

Lemma String_length_encodeBase64 (Bytes : list Z) :
  String.length (encodeBase64 Bytes) = (4 * ((length Bytes + 2) / 3))%nat.
Proof.
  induction Bytes as [|b0|b0 b1|b0 b1 b2 Bytes IH] using list_ind3;
    try reflexivity.
  cbn [encodeBase64 String.length length]. rewrite IH.
  replace (S (S (S (length Bytes))) + 2)%nat with (1 * 3 + (length Bytes + 2))%nat by lia.
  rewrite Nat.div_add_l by lia. lia.
Qed.

(** X12: the text that [encodeBase64] returns has four characters for
    every three bytes of the buffer, rounded up. *)
Theorem X12_encodeBase64_length (Bytes : list Z) :
  String.length (encodeBase64 Bytes) = (4 * ((length Bytes + 2) / 3))%nat.
Proof. apply String_length_encodeBase64. Qed.

Lemma group_X (b0 b1 b2 : Z) :
  to_uint32_t (to_int (to_int (Z.shiftl b0 16 + Z.shiftl b1 8) + b2))
  = (b0 * 65536 + b1 * 256 + b2) mod 4294967296.
Proof.
  unfold to_uint32_t, to_int. rewrite !Z.shiftl_mul_pow2 by lia.
  change (2 ^ 16) with 65536. change (2 ^ 8) with 256.
  change (2 ^ 31) with 2147483648. change (2 ^ 32) with 4294967296.
  Z.div_mod_to_equations. lia.
Qed.

Lemma group_received_iff (b0 b1 b2 : Z) :
  isChar b0 -> isChar b1 -> isChar b2 ->
  let X := (b0 * 65536 + b1 * 256 + b2) mod 4294967296 in
  ((X / 65536) mod 256 = b0 mod 256
   /\ (X / 256) mod 256 = b1 mod 256
   /\ X mod 256 = b2 mod 256)
  <-> 0 <= b1 /\ 0 <= b2.
Proof.
  unfold isChar. intros H0 H1 H2. cbn zeta.
  split.
  - intros [E0 [E1 E2]]. split.
    + destruct (Z.lt_ge_cases b1 0) as [Hn|Hp]; [|exact Hp].
      exfalso. revert E0. Z.div_mod_to_equations. lia.
    + destruct (Z.lt_ge_cases b2 0) as [Hn|Hp]; [|exact Hp].
      exfalso. revert E1. Z.div_mod_to_equations. lia.
  - intros [P1 P2]. repeat split; Z.div_mod_to_equations; lia.
Qed.

Lemma receivedBytes_iff (Bytes : list Z) :
  Forall isChar Bytes ->
  (receivedBytes Bytes = map to_byte Bytes <-> offsetsSafe Bytes).
Proof.
  induction Bytes as [|b0|b0 b1|b0 b1 b2 Bytes IH] using list_ind3; intros H.
  - cbn. tauto.
  - inversion H as [|? ? H0 _]; subst. cbn [receivedBytes map offsetsSafe].
    split; [tauto|intros _]. f_equal.
    pose proof (group_X b0 0 0) as E. rewrite Z.shiftl_0_l in E.
    replace (to_uint32_t (Z.shiftl b0 16))
      with ((b0 * 65536 + 0 * 256 + 0) mod 4294967296).
    2:{ unfold to_uint32_t. rewrite Z.shiftl_mul_pow2 by lia.
        change (2 ^ 16) with 65536. change (2 ^ 32) with 4294967296.
        f_equal. lia. }
    unfold to_byte, isChar in *. Z.div_mod_to_equations. lia.
  - inversion H as [|? ? H0 H']; subst. inversion H' as [|? ? H1 _]; subst.
    cbn [receivedBytes map offsetsSafe].
    replace (to_uint32_t (to_int (Z.shiftl b0 16 + Z.shiftl b1 8)))
      with ((b0 * 65536 + b1 * 256 + 0) mod 4294967296).
    2:{ rewrite <- group_X. unfold to_uint32_t, to_int.
        change (2 ^ 31) with 2147483648. change (2 ^ 32) with 4294967296.
        Z.div_mod_to_equations. lia. }
    pose proof (group_received_iff H0 H1 (b2:=0) ltac:(unfold isChar; lia)) as G.
    cbn zeta in G. unfold to_byte. split.
    + intros E. injection E as E0 E1. apply G. repeat split; try assumption.
      Z.div_mod_to_equations. lia.
    + intros P. destruct (proj2 G (conj P (Z.le_refl 0))) as [E0 [E1 _]].
      now rewrite E0, E1.
  - inversion H as [|? ? H0 H']; subst. inversion H' as [|? ? H1 H'']; subst.
    inversion H'' as [|? ? H2 Hrest]; subst.
    cbn [receivedBytes map offsetsSafe]. cbn zeta. rewrite group_X.
    pose proof (group_received_iff H0 H1 H2) as G. cbn zeta in G.
    specialize (IH Hrest). unfold to_byte in *. split.
    + intros E. injection E as E0 E1 E2 Er.
      destruct (proj1 G (conj E0 (conj E1 E2))). tauto.
    + intros [P1 [P2 Pr]]. destruct (proj2 G (conj P1 P2)) as [E0 [E1 E2]].
      rewrite E0, E1, E2. do 3 f_equal. tauto.
Qed.

(** X13: on a buffer of [char]s the text of [encodeBase64] decodes to the
    bytes of the buffer if and only if no [char] at the second or third
    place of a group of three is negative, that is, no byte there has
    its high bit set. *)
Theorem X13_encodeBase64_round_trip_iff (Bytes : list Z) :
  Forall isChar Bytes ->
  (decodeBase64 (encodeBase64 Bytes) = Some (map to_byte Bytes) <-> offsetsSafe Bytes).
Proof.
  intros H. rewrite encodeBase64_received, <- (receivedBytes_iff H).
  split; [intros E; now injection E|intros ->; reflexivity].
Qed.

Lemma X13_encodeBase64_round_trip_iff_witness :
  decodeBase64 (encodeBase64 [-1; 2; 3; -128]) = Some [255; 2; 3; 128]
  /\ decodeBase64 (encodeBase64 [0; 0; -126]) <> Some [0; 0; 130].
Proof.
  split.
  - apply (proj2 (X13_encodeBase64_round_trip_iff (Bytes:=[-1; 2; 3; -128])
                    ltac:(repeat constructor; unfold isChar; lia))).
    cbn. lia.
  - intros E.
    apply (proj1 (X13_encodeBase64_round_trip_iff (Bytes:=[0; 0; -126])
                    ltac:(repeat constructor; unfold isChar; lia))) in E.
    cbn in E. lia.
Defined.

(** X14: on a changed line whose tokens all have a start column and a
    length below 128 the payload decodes to the triples (start column,
    length, kind ordinal) of the line's tokens, in order. *)
Theorem X14_wire_round_trip_seven_bit (Line' : LineHighlightings) :
  Forall sevenBit (Tokens Line') ->
  decodePayload (InfoTokens (encodeLine Line')) = Some (map tokenTriple (Tokens Line')).
Proof. apply wire_round_trip_sevenBit. Qed.

Lemma X14_wire_round_trip_seven_bit_witness :
  let Line3 :=
    mkLine 3 [mkToken Variable_ (mkRange (mkPosition 3 4) (mkPosition 3 5));
              mkToken Function_ (mkRange (mkPosition 3 100) (mkPosition 3 127))] in
  decodePayload (InfoTokens (encodeLine Line3)) = Some [(4, 1, 0); (100, 27, 3)].
Proof.
  intros Line3. apply (X14_wire_round_trip_seven_bit Line3).
  repeat constructor; cbn; lia.
Defined.

Lemma length_writeToken (Token : HighlightingToken) :
  length (writeToken [] Token) = 8%nat.
Proof. reflexivity. Qed.

Lemma length_LineByteTokens (LineTokens : list HighlightingToken) :
  length (LineByteTokens_of LineTokens) = (8 * length LineTokens)%nat.
Proof.
  rewrite LineByteTokens_flat_map.
  induction LineTokens as [|T l IH]; [reflexivity|].
  cbn [flat_map length]. rewrite length_app, length_writeToken, IH. lia.
Qed.

Lemma String_length_zero (s : string) : String.length s = 0%nat <-> s = EmptyString.
Proof. destruct s; cbn; split; congruence. Qed.

(** X15: the encoder returns one entry per changed line, in the order of
    the lines and with their line numbers; the payload of a line with
    [k] tokens has 4 * ceil(8k / 3) characters, and it is the empty
    string exactly for a line without tokens (a line whose highlightings
    were all removed). *)
Theorem X15_payload_shape (Lines : list LineHighlightings) :
  Forall2
    (fun L I =>
       InfoLine I = Line L
       /\ String.length (InfoTokens I) = (4 * ((8 * length (Tokens L) + 2) / 3))%nat
       /\ (InfoTokens I = EmptyString <-> Tokens L = []))
    Lines (toSemanticHighlightingInformation Lines).
Proof.
  rewrite toSemanticHighlightingInformation_map.
  induction Lines as [|L Lines IH]; constructor; [|exact IH].
  unfold encodeLine. cbn [InfoLine InfoTokens].
  pose proof (String_length_encodeBase64 (LineByteTokens_of (Tokens L))) as Hlen.
  rewrite length_LineByteTokens in Hlen.
  split; [reflexivity|split; [exact Hlen|]].
  rewrite <- String_length_zero, Hlen.
  destruct (Tokens L) as [|T l]; [cbn; tauto|].
  split; [|discriminate]. intros E. exfalso. cbn [length] in E.
  assert (3 <= (8 * S (length l) + 2) / 3)%nat; [|lia].
  apply Nat.div_le_lower_bound; lia.
Qed.

(** X16: what [write32be] and [write16be] append to the stream is the
    value read back as a big-endian number, for a value that fits the
    width; what was in the stream before stays in front. *)
Theorem X16_write_be_read_back (I : Z) (OS : list Z) :
  (0 <= I < 2 ^ 32 ->
   firstn (length OS) (write32be I OS) = OS
   /\ be_value (map to_byte (skipn (length OS) (write32be I OS))) = I)
  /\ (0 <= I < 2 ^ 16 ->
      firstn (length OS) (write16be I OS) = OS
      /\ be_value (map to_byte (skipn (length OS) (write16be I OS))) = I).
Proof.
  split; intros H.
  - split.
    + unfold write32be. now rewrite firstn_app, Nat.sub_diag, firstn_all, app_nil_r.
    + rewrite <- skipn_map, map_to_byte_write32be.
      rewrite <- (length_map to_byte OS), skipn_app, Nat.sub_diag, skipn_all.
      now apply be_value_be_bytes_4.
  - split.
    + unfold write16be. now rewrite firstn_app, Nat.sub_diag, firstn_all, app_nil_r.
    + rewrite <- skipn_map, map_to_byte_write16be.
      rewrite <- (length_map to_byte OS), skipn_app, Nat.sub_diag, skipn_all.
      now apply be_value_be_bytes_2.
Qed.

Lemma X16_write_be_read_back_witness :
  be_value (map to_byte (skipn 1 (write32be 3000000000 [7]))) = 3000000000
  /\ be_value (map to_byte (skipn 1 (write16be 65528 [7]))) = 65528.
Proof.
  split.
  - apply (proj1 (X16_write_be_read_back 3000000000 [7])). lia.
  - apply (proj2 (X16_write_be_read_back 65528 [7])). lia.
Defined.

(** ** The classifier and the walker *)

Lemma kindFor_notReserved (n : nat) :
  (forall D, (declDepth D < n)%nat -> notReserved (kindForDecl D))
  /\ (forall TP, (typeDepth TP < n)%nat -> notReserved (kindForType TP)).
Proof.
  induction n as [|n [IHD IHT]]; [split; intros; lia|].
  assert (forall TP, (typeDepth TP < S n)%nat -> notReserved (kindForType TP)) as HT.
  { intros [|D|D|] H; cbn [kindForType typeDepth] in *;
      try (apply IHD; lia); repeat split; discriminate. }
  split; [|exact HT].
  intros D H.
  destruct D as [[T|]|[T|]|[T|]|[T|]|[TP|]|[]| |[]| | | | |[] []| | | | | | | |];
    cbn [declDepth] in H;
    try (repeat split; discriminate);
    try (apply IHD in H; exact H).
  - (* a using-shadow declaration with a target *)
    assert (notReserved (kindForDecl T)) as HTk by (apply IHD; lia).
    destruct T as [[?|]|[T'|]|[T'|]|[T'|]|[TP|]|[]| |[]| | | | |[] []| | | | | | | |];
      try exact HTk; cbn; repeat split; discriminate.
  - (* the three kinds of template with a templated declaration *)
    assert (notReserved (kindForDecl T)) as HTk by (apply IHD; lia).
    destruct T as [[?|]|[T'|]|[T'|]|[T'|]|[TP|]|[]| |[]| | | | |[] []| | | | | | | |];
      try exact HTk; cbn; repeat split; discriminate.
  - assert (notReserved (kindForDecl T)) as HTk by (apply IHD; lia).
    destruct T as [[?|]|[T'|]|[T'|]|[T'|]|[TP|]|[]| |[]| | | | |[] []| | | | | | | |];
      try exact HTk; cbn; repeat split; discriminate.
  - assert (notReserved (kindForDecl T)) as HTk by (apply IHD; lia).
    destruct T as [[?|]|[T'|]|[T'|]|[T'|]|[TP|]|[]| |[]| | | | |[] []| | | | | | | |];
      try exact HTk; cbn; repeat split; discriminate.
  - (* a typedef *)
    assert (notReserved (kindForType TP)) as [H1 [H2 H3]] by (apply IHT; lia).
    cbn [kindForDecl]. destruct (kindForType TP) as [K|];
      repeat split; congruence.
Qed.

Lemma notReserved_kindForDecl (D : NamedDecl) : notReserved (kindForDecl D).
Proof. apply (proj1 (kindFor_notReserved (S (declDepth D)))). lia. Qed.

Lemma notReserved_kindForType (TP : ClangType) : notReserved (kindForType TP).
Proof. apply (proj2 (kindFor_notReserved (S (typeDepth TP)))). lia. Qed.

Lemma notReserved_kindForCandidateDecls (Decls : list NamedDecl) :
  notReserved (kindForCandidateDecls Decls).
Proof.
  destruct (kindForCandidateDecls Decls) as [K|] eqn:E;
    [|repeat split; discriminate].
  unfold kindForCandidateDecls in E.
  apply kindForCandidateDecls_from_Some in E as [Hall [Hne _]].
  destruct Decls as [|D Decls]; [specialize (Hne eq_refl); discriminate|].
  rewrite <- (Hall D (or_introl eq_refl)). apply notReserved_kindForDecl.
Qed.

(** X17: the classifier never hands out [Macro], [DependentName] or
    [DependentType]: neither [kindForDecl] nor [kindForType] nor
    [kindForCandidateDecls] returns one of them. *)
Theorem X17_classifier_never_reserved :
  (forall D, notReserved (kindForDecl D))
  /\ (forall TP, notReserved (kindForType TP))
  /\ (forall Decls, notReserved (kindForCandidateDecls Decls)).
Proof.
  split; [apply notReserved_kindForDecl|].
  split; [apply notReserved_kindForType|apply notReserved_kindForCandidateDecls].
Qed.

Lemma extend_empty (C : Collector) : extend C (mkCollector [] []) = C.
Proof. destruct C. unfold extend. cbn. now rewrite !app_nil_r. Qed.

(** What [addToken] does to an empty collector: nothing, or one error
    message, or one token of the given kind whose range is the token
    range of a location inside the main file. *)
Lemma addToken_empty (AST : ParsedAST) (Loc : SourceLocation AST) (K : HighlightingKind) :
  let E := addToken AST Loc K (mkCollector [] []) in
  E = mkCollector [] []
  \/ (CollectedTokens E = [] /\ length (ErrorLog E) = 1%nat)
  \/ (ErrorLog E = []
      /\ exists Rg Loc',
           CollectedTokens E = [mkToken K Rg]
           /\ isInsideMainFile AST Loc' = true /\ getTokenRange AST Loc' = Some Rg).
Proof.
  unfold addToken.
  destruct (isInvalid AST Loc); [now left|].
  destruct (isMacroID AST Loc).
  - destruct (isMacroArgExpansion AST Loc); cbn [negb]; [|now left].
    destruct (isInsideMainFile AST (getSpellingLoc AST Loc)) eqn:Ei; cbn [negb]; [|now left].
    destruct (getTokenRange AST (getSpellingLoc AST Loc)) as [Rg|] eqn:Er.
    + right. right. split; [reflexivity|]. exists Rg, (getSpellingLoc AST Loc). auto.
    + right. left. split; reflexivity.
  - destruct (isInsideMainFile AST Loc) eqn:Ei; cbn [negb]; [|now left].
    destruct (getTokenRange AST Loc) as [Rg|] eqn:Er.
    + right. right. split; [reflexivity|]. exists Rg, Loc. auto.
    + right. left. split; reflexivity.
Qed.

Lemma addToken_extend (AST : ParsedAST) (Loc : SourceLocation AST)
    (K : HighlightingKind) (C : Collector) :
  addToken AST Loc K C = extend C (addToken AST Loc K (mkCollector [] [])).
Proof.
  unfold addToken.
  destruct (isInvalid AST Loc); [now rewrite extend_empty|].
  destruct (isMacroID AST Loc).
  - destruct (isMacroArgExpansion AST Loc); cbn [negb]; [|now rewrite extend_empty].
    destruct (isInsideMainFile AST (getSpellingLoc AST Loc)); cbn [negb];
      [|now rewrite extend_empty].
    destruct (getTokenRange AST (getSpellingLoc AST Loc));
      unfold extend; cbn; now rewrite ?app_nil_r.
  - destruct (isInsideMainFile AST Loc); cbn [negb]; [|now rewrite extend_empty].
    destruct (getTokenRange AST Loc); unfold extend; cbn; now rewrite ?app_nil_r.
Qed.

Lemma addTokenDecl_extend (AST : ParsedAST) (Loc : SourceLocation AST)
    (D : NamedDecl) (C : Collector) :
  addTokenDecl AST Loc D C = extend C (addTokenDecl AST Loc D (mkCollector [] [])).
Proof.
  unfold addTokenDecl. destruct (kindForDecl D); [apply addToken_extend|].
  now rewrite extend_empty.
Qed.

Lemma dispatch_extend (AST : ParsedAST) (Call : VisitorCall AST) (C : Collector) :
  dispatch Call C = (true, extend C (callEffect Call)).
Proof.
  unfold callEffect.
  destruct Call as [Loc D|Name Loc D|E|Name Loc|Name Loc|Name Loc D|UD|Name Loc D
                    |Loc D|Loc [TD|]|[] Loc TP|Loc TP|Loc|Loc|[[]|] Loc|[FD|] Loc
                    |[[TP|]|] Loc];
    cbn [dispatch VisitNamespaceAliasDecl VisitMemberExpr VisitOverloadExpr
         VisitDependentScopeDeclRefExpr VisitCXXDependentScopeMemberExpr
         VisitNamedDecl VisitUsingDecl VisitDeclRefExpr VisitTypedefTypeLoc
         VisitTemplateSpecializationTypeLoc VisitTagTypeLoc VisitDecltypeTypeLoc
         VisitDependentNameTypeLoc VisitTemplateTypeParmTypeLoc
         TraverseNestedNameSpecifierLoc TraverseConstructorInitializer
         VisitDeclaratorDecl snd];
    unfold VisitNamespaceAliasDecl, VisitMemberExpr, VisitOverloadExpr,
      VisitDependentScopeDeclRefExpr, VisitCXXDependentScopeMemberExpr,
      VisitNamedDecl, VisitUsingDecl, VisitDeclRefExpr, VisitTypedefTypeLoc,
      VisitTemplateSpecializationTypeLoc, VisitTagTypeLoc, VisitDecltypeTypeLoc,
      VisitDependentNameTypeLoc, VisitTemplateTypeParmTypeLoc,
      TraverseNestedNameSpecifierLoc, TraverseConstructorInitializer,
      VisitDeclaratorDecl; cbn [snd];
    repeat match goal with
           | |- context [if canHighlightName ?n then _ else _] =>
               destruct (canHighlightName n)
           | |- context [match kindForType ?t with _ => _ end] =>
               destruct (kindForType t)
           | |- context [match kindForCandidateDecls ?d with _ => _ end] =>
               destruct (kindForCandidateDecls d)
           end;
    cbn [snd];
    first [ now rewrite extend_empty
          | f_equal; apply addToken_extend
          | f_equal; apply addTokenDecl_extend ].
Qed.

(** What a call adds is nothing, or what [addToken] adds for some
    location and a kind that is not [Macro]. *)
Lemma callEffect_addToken (AST : ParsedAST) (Call : VisitorCall AST) :
  callEffect Call = mkCollector [] []
  \/ exists Loc K,
       K <> Macro /\ callEffect Call = addToken AST Loc K (mkCollector [] []).
Proof.
  unfold callEffect.
  destruct Call as [Loc D|Name Loc D|E|Name Loc|Name Loc|Name Loc D|UD|Name Loc D
                    |Loc D|Loc [TD|]|[] Loc TP|Loc TP|Loc|Loc|[[]|] Loc|[FD|] Loc
                    |[[TP|]|] Loc];
    cbn [dispatch];
    unfold VisitNamespaceAliasDecl, VisitMemberExpr, VisitOverloadExpr,
      VisitDependentScopeDeclRefExpr, VisitCXXDependentScopeMemberExpr,
      VisitNamedDecl, VisitUsingDecl, VisitDeclRefExpr, VisitTypedefTypeLoc,
      VisitTemplateSpecializationTypeLoc, VisitTagTypeLoc, VisitDecltypeTypeLoc,
      VisitDependentNameTypeLoc, VisitTemplateTypeParmTypeLoc,
      TraverseNestedNameSpecifierLoc, TraverseConstructorInitializer,
      VisitDeclaratorDecl, addTokenDecl; cbn [snd];
    repeat match goal with
           | |- context [if canHighlightName ?n then _ else _] =>
               destruct (canHighlightName n)
           | |- context [match kindForDecl ?d with _ => _ end] =>
               let E := fresh "E" in
               pose proof (notReserved_kindForDecl d) as [E _];
               destruct (kindForDecl d)
           | |- context [match kindForType ?t with _ => _ end] =>
               let E := fresh "E" in
               pose proof (notReserved_kindForType t) as [E _];
               destruct (kindForType t)
           | |- context [match kindForCandidateDecls ?d with _ => _ end] =>
               let E := fresh "E" in
               pose proof (notReserved_kindForCandidateDecls d) as [E _];
               destruct (kindForCandidateDecls d)
           end;
    cbn [snd];
    first [ left; reflexivity
          | right; eexists _, _; split; [|reflexivity]; congruence ].
Qed.

Lemma callEffect_cases (AST : ParsedAST) (Call : VisitorCall AST) :
  callEffect Call = mkCollector [] []
  \/ (CollectedTokens (callEffect Call) = []
      /\ length (ErrorLog (callEffect Call)) = 1%nat)
  \/ (ErrorLog (callEffect Call) = []
      /\ exists K Rg Loc,
           K <> Macro
           /\ CollectedTokens (callEffect Call) = [mkToken K Rg]
           /\ isInsideMainFile AST Loc = true /\ getTokenRange AST Loc = Some Rg).
Proof.
  destruct (callEffect_addToken Call) as [E|[Loc [K [HK E]]]]; [now left|].
  rewrite E. destruct (addToken_empty AST Loc K) as [H|[H|[H1 [Rg [Loc' H2]]]]];
    [now left|now right; left|].
  right. right. split; [exact H1|]. exists K, Rg, Loc'. tauto.
Qed.

(** X18: every [Visit] function returns [true], so the traversal goes
    on, and the two traversal overrides hand on to the base traversal;
    each leaves what the collector holds in place and adds behind it
    what depends on the visited node only: nothing, one token, or one
    error message. *)
Theorem X18_visitors_only_append (AST : ParsedAST) (Call : VisitorCall AST) (C : Collector) :
  dispatch Call C = (true, extend C (callEffect Call))
  /\ (length (CollectedTokens (callEffect Call))
      + length (ErrorLog (callEffect Call)) <= 1)%nat.
Proof.
  split; [apply dispatch_extend|].
  destruct (callEffect_cases Call) as [->|[[-> ->]|[-> [K [Rg [Loc [_ [-> _]]]]]]]];
    cbn; lia.
Qed.

Lemma TraverseAST_tokens (AST : ParsedAST) (Calls : list (VisitorCall AST)) (C : Collector) :
  CollectedTokens (TraverseAST Calls C)
  = CollectedTokens C ++ flat_map (fun Call => CollectedTokens (callEffect Call)) Calls.
Proof.
  revert C. induction Calls as [|Call Calls IH]; intros C; cbn [TraverseAST flat_map].
  - now rewrite app_nil_r.
  - rewrite dispatch_extend, IH. unfold extend. cbn. now rewrite app_assoc.
Qed.

Lemma In_traversed (AST : ParsedAST) (Calls : list (VisitorCall AST))
    (Log : list string) (T : HighlightingToken) :
  In T (CollectedTokens (TraverseAST Calls (mkCollector [] Log)))
  <-> exists Call, In Call Calls /\ In T (CollectedTokens (callEffect Call)).
Proof.
  rewrite TraverseAST_tokens. cbn [CollectedTokens app]. apply in_flat_map.
Qed.

(** X19: [getSemanticHighlightings] depends on the set of visitor calls
    only: the order in which the traversal makes them, a call made more
    than once, and what the error log held before do not change the
    result. *)
Theorem X19_getSemanticHighlightings_order_free (AST : ParsedAST)
    (Calls Calls' : list (VisitorCall AST)) (Log Log' : list string) :
  (forall Call, In Call Calls <-> In Call Calls') ->
  getSemanticHighlightings Calls Log = getSemanticHighlightings Calls' Log'.
Proof.
  intros H. unfold getSemanticHighlightings. apply collectTokens_ext.
  intros T. unfold rawTokens. rewrite !in_app_iff, !In_traversed.
  split; (intros [[Call [HC HT]]|HM]; [left; exists Call; split; [now apply H|exact HT]
                                      |now right]).
Qed.

Lemma X19_getSemanticHighlightings_order_free_witness :
  let A : VisitorCall sampleAST := CallDependentNameTypeLoc (4 : SourceLocation sampleAST) in
  let B : VisitorCall sampleAST := CallTemplateTypeParmTypeLoc (8 : SourceLocation sampleAST) in
  getSemanticHighlightings [A; B; A] [] = getSemanticHighlightings [B; A] [].
Proof.
  intros A B. apply X19_getSemanticHighlightings_order_free.
  intros Call. cbn. tauto.
Defined.

Lemma traversed_token (AST : ParsedAST) (Calls : list (VisitorCall AST))
    (Log : list string) (T : HighlightingToken) :
  In T (CollectedTokens (TraverseAST Calls (mkCollector [] Log))) ->
  Kind T <> Macro
  /\ exists Loc, isInsideMainFile AST Loc = true /\ getTokenRange AST Loc = Some (R T).
Proof.
  intros H. apply In_traversed in H as [Call [_ HT]].
  destruct (callEffect_cases Call) as [E|[[E _]|[_ [K [Rg [Loc [HK [E [Hi Hr]]]]]]]]];
    rewrite E in HT; [destruct HT|destruct HT|].
  destruct HT as [<-|[]]. cbn. eauto.
Qed.

(** X20: every token that [getSemanticHighlightings] returns is either a
    [Macro] token on one of the macro ranges of the tree, or a token of
    another kind whose range is the token range of a location inside the
    main file. *)
Theorem X20_only_main_file_tokens (AST : ParsedAST) (Calls : list (VisitorCall AST))
    (Log : list string) (T : HighlightingToken) :
  In T (getSemanticHighlightings Calls Log) ->
  (Kind T = Macro /\ In (R T) (getMacros_Ranges AST))
  \/ (Kind T <> Macro
      /\ exists Loc,
           isInsideMainFile AST Loc = true /\ getTokenRange AST Loc = Some (R T)).
Proof.
  unfold getSemanticHighlightings. intros H.
  apply In_collectTokens in H as [H _]. unfold rawTokens in H.
  apply in_app_iff in H as [H|H].
  - right. now apply traversed_token in H.
  - left. apply in_map_iff in H as [M [<- HM]]. auto.
Qed.

Lemma X20_only_main_file_tokens_witness :
  let A : VisitorCall sampleAST := CallDependentNameTypeLoc (4 : SourceLocation sampleAST) in
  let T := mkToken DependentType (mkRange (mkPosition 0 4) (mkPosition 0 5)) in
  exists Loc : SourceLocation sampleAST,
    isInsideMainFile sampleAST Loc = true /\ getTokenRange sampleAST Loc = Some (R T).
Proof.
  intros A T.
  destruct (@X20_only_main_file_tokens sampleAST [A] [] T) as [[H _]|[_ H]].
  - cbn. now left.
  - discriminate H.
  - exact H.
Defined.

(** X21: a macro range gets its [Macro] token in the result of
    [getSemanticHighlightings] if and only if no token pushed by the
    traversal has the same range; when one has, the result holds no
    token of that range at all. *)
Theorem X21_macro_token_iff (AST : ParsedAST) (Calls : list (VisitorCall AST))
    (Log : list string) (M : Range) :
  (In (mkToken Macro M) (getSemanticHighlightings Calls Log)
   <-> In M (getMacros_Ranges AST)
       /\ forall T, In T (traversedTokens Calls) -> R T <> M)
  /\ (In M (getMacros_Ranges AST) ->
      (exists T, In T (traversedTokens Calls) /\ R T = M) ->
      forall X, In X (getSemanticHighlightings Calls Log) -> R X <> M).
Proof.
  assert (forall T, In T (traversedTokens Calls)
                    <-> In T (CollectedTokens (TraverseAST Calls (mkCollector [] Log)))) as Htr.
  { intros T. unfold traversedTokens. now rewrite !In_traversed. }
  unfold getSemanticHighlightings. split.
  - rewrite In_collectTokens. unfold rawTokens. split.
    + intros [Hraw Hu]. split.
      * apply in_app_iff in Hraw as [H|H].
        -- apply traversed_token in H as [H _]. now elim H.
        -- apply in_map_iff in H as [M' [E HM]]. now injection E as <-.
      * intros T HT E. apply Htr in HT.
        pose proof (traversed_token _ _ _ HT) as [HK _].
        apply HK. rewrite (Hu T); [reflexivity| |exact E].
        apply in_app_iff. now left.
    + intros [HM Hnone]. split.
      * apply in_app_iff. right. apply in_map_iff. eauto.
      * intros T' HT' E. apply in_app_iff in HT' as [H|H].
        -- exfalso. apply (Hnone T'); [now apply Htr|exact E].
        -- apply in_map_iff in H as [M' [<- _]]. cbn in E. now subst.
  - intros HM [T [HT E]] X HX EX.
    apply In_collectTokens in HX as [_ Hu]. unfold rawTokens in Hu.
    apply Htr in HT. pose proof (traversed_token _ _ _ HT) as [HK _].
    apply HK.
    rewrite (Hu T), <- (Hu (mkToken Macro M)); [reflexivity| | | |].
    + apply in_app_iff. right. apply in_map_iff. eauto.
    + now rewrite EX.
    + apply in_app_iff. now left.
    + now rewrite EX.
Qed.

Lemma X21_macro_token_iff_witness :
  let AST := mkParsedAST (SourceLocation:=Z) (fun Loc => Loc =? 0) Z.odd
               (fun Loc => 100 <? Loc) (fun Loc => Loc / 2) (fun Loc => Loc <? 50)
               (fun Loc => Some (mkRange (mkPosition 0 Loc) (mkPosition 0 (Loc + 1))))
               [mkRange (mkPosition 0 10) (mkPosition 0 13)] in
  let B : VisitorCall AST := CallDependentNameTypeLoc (4 : SourceLocation AST) in
  In (mkToken Macro (mkRange (mkPosition 0 10) (mkPosition 0 13)))
     (getSemanticHighlightings [B] []).
Proof.
  intros AST B.
  apply (proj1 (@X21_macro_token_iff AST [B] []
                  (mkRange (mkPosition 0 10) (mkPosition 0 13)))).
  split.
  - cbn. now left.
  - cbn. intros T [<-|[]]. discriminate.
Defined.

(** X22: [kindForCandidateDecls] depends on the set of candidates only,
    not on their order or on repetitions. *)
Theorem X22_kindForCandidateDecls_set (Decls Decls' : list NamedDecl) :
  (forall D, In D Decls <-> In D Decls') ->
  kindForCandidateDecls Decls = kindForCandidateDecls Decls'.
Proof.
  intros H.
  assert (forall A B : list NamedDecl,
            (forall D, In D A <-> In D B) ->
            forall K, kindForCandidateDecls A = Some K -> kindForCandidateDecls B = Some K)
    as Hone.
  { intros A B HAB K. unfold kindForCandidateDecls.
    rewrite !kindForCandidateDecls_from_Some. intros [Hall [Hne _]].
    split; [|split].
    - intros D HD. apply Hall, HAB, HD.
    - intros ->. destruct A as [|D A]; [auto|]. exfalso. apply (HAB D). now left.
    - discriminate. }
  destruct (kindForCandidateDecls Decls) as [K|] eqn:E.
  - symmetry. now apply (Hone Decls Decls' H).
  - destruct (kindForCandidateDecls Decls') as [K|] eqn:E'; [|reflexivity].
    assert (kindForCandidateDecls Decls = Some K) as E''.
    { apply (Hone Decls' Decls); [|exact E']. intros D. symmetry. apply H. }
    congruence.
Qed.

Lemma X22_kindForCandidateDecls_set_witness :
  kindForCandidateDecls [CXXMethodDecl false; FunctionDecl; CXXMethodDecl false]
  = kindForCandidateDecls [FunctionDecl; CXXMethodDecl false].
Proof.
  apply X22_kindForCandidateDecls_set. intros D. cbn. tauto.
Defined.

(** X23: different kinds have different TextMate scopes, and different
    printed names. *)
Theorem X23_kind_tables_injective (K1 K2 : HighlightingKind) :
  (toTextMateScope K1 = toTextMateScope K2 -> K1 = K2)
  /\ (printKind K1 = printKind K2 -> K1 = K2).
Proof.
  split; destruct K1, K2; intros H; try reflexivity; discriminate H.
Qed.

Lemma X23_kind_tables_injective_witness :
  toTextMateScope Method <> toTextMateScope StaticMethod.
Proof.
  intros H. apply (proj1 (X23_kind_tables_injective Method StaticMethod)) in H.
  discriminate H.
Defined.

(** X24: on a vector in the order of the start lines, none of them below
    [L], [takeLine] returns all tokens of line [L], and what is left
    behind the slice starts on later lines only. *)
Theorem X24_takeLine_whole_line (Tokens : list HighlightingToken) (L : Z) :
  lineSorted Tokens ->
  Forall (fun T => L <= startLine T) Tokens ->
  takeLine Tokens L = lineGroup Tokens L
  /\ Forall (fun T => L < startLine T) (drop_front (length (takeLine Tokens L)) Tokens)
  /\ takeLine Tokens L ++ drop_front (length (takeLine Tokens L)) Tokens = Tokens.
Proof.
  intros Hs Hge. destruct (takeLine_lineGroup Hs Hge) as [H1 [_ [H3 _]]].
  split; [exact H1|]. split; [exact H3|]. apply take_while_drop.
Qed.

Lemma X24_takeLine_whole_line_witness :
  let A := mkToken Class_ (mkRange (mkPosition 3 0) (mkPosition 3 2)) in
  let B := mkToken Field (mkRange (mkPosition 3 4) (mkPosition 3 5)) in
  let C := mkToken Variable_ (mkRange (mkPosition 7 4) (mkPosition 7 5)) in
  takeLine [A; B; C] 3 = lineGroup [A; B; C] 3.
Proof.
  intros A B C. apply (X24_takeLine_whole_line (Tokens:=[A; B; C]) (L:=3)).
  - repeat constructor; cbn; lia.
  - repeat constructor; cbn; lia.
Defined.

(** Taking the next line number on both sides consumes a token,
    whatever the order of the tokens. *)
Lemma NextLineNumber_consumes (N O : list HighlightingToken) :
  linesBounded N -> linesBounded O -> N <> [] \/ O <> [] ->
  let L := NextLineNumber N O in
  (length (drop_front (length (takeLine N L)) N)
   + length (drop_front (length (takeLine O L)) O)
   < length N + length O)%nat.
Proof.
  intros HbN HbO Hne. unfold NextLineNumber.
  destruct N as [|n N], O as [|o O]; [destruct Hne; congruence| | |].
  - fold (startLine o). inversion HbO; subst. rewrite Z.min_r by assumption.
    pose proof (takeLine_head o O). rewrite drop_front_nil. cbn [length] in *. lia.
  - fold (startLine n). inversion HbN; subst. rewrite Z.min_l by assumption.
    pose proof (takeLine_head n N). rewrite drop_front_nil. cbn [length] in *. lia.
  - fold (startLine n) (startLine o).
    destruct (Z.min_spec (startLine n) (startLine o)) as [[_ ->]|[_ ->]].
    + pose proof (takeLine_head n N).
      pose proof (length_drop_front (length (takeLine (o :: O) (startLine n))) (o :: O)).
      cbn [length] in *. lia.
    + pose proof (takeLine_head o O).
      pose proof (length_drop_front (length (takeLine (n :: N) (startLine o))) (n :: N)).
      cbn [length] in *. lia.
Qed.

Lemma diffLoop_terminates (fuel : nat) :
  forall (N O : list HighlightingToken) (acc : list LineHighlightings),
  linesBounded N -> linesBounded O -> (length N + length O <= fuel)%nat ->
  exists d, diffLoop fuel (NextLineNumber N O) N O acc = Some d.
Proof.
  induction fuel as [|fuel IH]; intros N O acc HbN HbO Hfuel;
    (assert ((N = [] /\ O = []) \/ (N <> [] \/ O <> [])) as [[-> ->]|Hne];
     [destruct N, O; auto; right; (left + right); discriminate
     |exists acc; apply diffLoop_empty|]).
  - exfalso. destruct N, O; cbn in Hfuel; try lia. destruct Hne; congruence.
  - pose proof (NextLineNumber_consumes HbN HbO Hne) as Hcons. cbn zeta in Hcons.
    rewrite diffLoop_step by exact Hne. cbn zeta.
    apply IH; try now apply Forall_drop_front. lia.
Qed.

(** X25: the loop of [diffHighlightings] ends within one iteration more
    than there are tokens, also on vectors that are not sorted, as long
    as the start lines fit an [int]. *)
Theorem X25_diffHighlightings_terminates (New Old : list HighlightingToken) :
  linesBounded New -> linesBounded Old ->
  exists Diffed, diffHighlightings New Old = Some Diffed.
Proof.
  intros HbN HbO. unfold diffHighlightings.
  assert ((New = [] /\ Old = []) \/ (New <> [] \/ Old <> [])) as [[-> ->]|Hne].
  { destruct New, Old; auto; right; (left + right); discriminate. }
  - now exists [].
  - rewrite diffLoop_step by exact Hne. cbn zeta.
    apply diffLoop_terminates; try now apply Forall_drop_front.
    pose proof (length_drop_front (length (takeLine New 0)) New).
    pose proof (length_drop_front (length (takeLine Old 0)) Old). lia.
Qed.

Lemma X25_diffHighlightings_terminates_witness :
  let A := mkToken Class_ (mkRange (mkPosition 9 0) (mkPosition 9 2)) in
  let B := mkToken Field (mkRange (mkPosition 3 4) (mkPosition 3 5)) in
  exists Diffed, diffHighlightings [A; B] [B; A; B] = Some Diffed.
Proof.
  intros A B. apply X25_diffHighlightings_terminates;
    unfold linesBounded, INT_MAX; repeat constructor; cbn; lia.
Defined.

Lemma to_char_isChar (b : Z) : isChar (to_char b).
Proof.
  unfold isChar, to_char. pose proof (Z.mod_pos_bound b 256 ltac:(lia)).
  destruct (Z.ltb_spec (b mod 256) 128); lia.
Qed.

Lemma writeToken_isChar (Token : HighlightingToken) :
  Forall isChar (writeToken [] Token).
Proof.
  unfold writeToken, write32be, write16be. cbn [app map].
  repeat constructor; apply to_char_isChar.
Qed.

Lemma LineByteTokens_isChar (LineTokens : list HighlightingToken) :
  Forall isChar (LineByteTokens_of LineTokens).
Proof.
  rewrite LineByteTokens_flat_map.
  induction LineTokens as [|T l IH]; [constructor|].
  cbn [flat_map]. apply Forall_app. split; [apply writeToken_isChar|exact IH].
Qed.

(** X26: the payload of a changed line decodes to the records of the
    line's tokens if and only if, in the line's byte buffer, no byte at
    the second or third place of a group of three has its high bit set;
    otherwise a standard decoder gets other bytes. *)
Theorem X26_line_payload_right_iff (Line' : LineHighlightings) :
  decodeBase64 (InfoTokens (encodeLine Line')) = Some (flat_map recordOf (Tokens Line'))
  <-> offsetsSafe (LineByteTokens_of (Tokens Line')).
Proof.
  unfold encodeLine. cbn [InfoTokens].
  rewrite <- (receivedBytes_iff (LineByteTokens_isChar (Tokens Line'))).
  rewrite encodeBase64_received.
  unfold LineByteTokens_of at 3. rewrite map_to_byte_fold_writeToken. cbn [map app].
  split; [intros E; now injection E|intros ->; reflexivity].
Qed.

Lemma LineHighlightings_eqb_eq (L R' : LineHighlightings) :
  LineHighlightings_eqb L R' = true <-> L = R'.
Proof.
  destruct L as [l ts], R' as [l' ts']. unfold LineHighlightings_eqb. cbn.
  rewrite andb_true_iff, Z.eqb_eq, ArrayRef_eqb_eq. split.
  - intros [-> ->]. reflexivity.
  - intros H. injection H as -> ->. auto.
Qed.

(** X27: [operator==] of the tokens and [operator==] of the changed
    lines hold for identical values and for no others, and so does the
    element-wise comparison of token vectors that the second one
    uses. *)
Theorem X27_equality_operators :
  (forall A B : HighlightingToken, Token_eqb A B = true <-> A = B)
  /\ (forall A B : list HighlightingToken, ArrayRef_eqb A B = true <-> A = B)
  /\ (forall A B : LineHighlightings, LineHighlightings_eqb A B = true <-> A = B).
Proof.
  split; [exact Token_eqb_eq|].
  split; [exact ArrayRef_eqb_eq|exact LineHighlightings_eqb_eq].
Qed.
